(** * f5-telemetry-streaming: system stats collection and the sink data filter

    A shallow embedding of [src/nodejs/systemStats.js] (the class
    [SystemStats]), of the data filter class [DataFilter] and of the disk
    usage summary, with the properties of the specification, and further
    properties read off the code, stated and proved over it.

    JavaScript values are finite trees.  An object is the list of its own
    enumerable properties in enumeration order; a read of a name that is not
    an own property falls through to [Object.prototype], as it does in
    JavaScript.  Numbers are integers: the program only tests them for
    truthiness.  Exceptions are explicit: a function that can throw returns
    a [result]. *)

From Stdlib Require Import ZArith.
From stdpp Require Import base decidable option list strings pretty.

Open Scope string_scope.
Open Scope list_scope.
Set Warnings "-register-all".

(** ** Values *)

Inductive value :=
| VUndef
| VNull
| VBool (b : bool)
| VNum (n : Z)
| VStr (s : string)
| VProtoMember (name : string)   (* a member inherited from Object.prototype *)
| VArr (items : list value) (props : list (string * value))
| VObj (fields : list (string * value)).

(** An object as its own properties, in enumeration order. *)
Abbreviation obj := (list (string * value)).

Inductive exn :=
| Error (msg : string)
| TypeError (msg : string)
| Rejection (reason : value).     (* an error value handed over by a collaborator *)

Inductive result (A : Type) :=
| Ok (a : A)
| Throw (e : exn).
Arguments Ok {A} a.
Arguments Throw {A} e.

Definition ok_or {A} (d : A) (r : result A) : A :=
  match r with
  | Ok a => a
  | Throw _ => d
  end.

(** Sequencing: the first exception ends the computation. *)
#[global] Instance result_bind : MBind result := λ A B k r,
  match r with
  | Ok a => k a
  | Throw e => Throw e
  end.

(** [if (v)], [!v], [a || b]: JavaScript truthiness. *)
Definition truthy (v : value) : bool :=
  match v with
  | VUndef | VNull => false
  | VBool b => b
  | VNum n => negb (n =? 0)%Z
  | VStr s => negb (bool_decide (s = ""))
  | VProtoMember _ | VArr _ _ | VObj _ => true
  end.

(** [a && b], where [b] is only evaluated when [a] is truthy. *)
Definition js_and (a : value) (b : result value) : result value :=
  if truthy a then b else Ok a.

(** [v === s] for a string literal [s]. *)
Definition is_string (s : string) (v : value) : bool :=
  match v with
  | VStr s' => bool_decide (s' = s)
  | _ => false
  end.

(** [v === true] *)
Definition is_true (v : value) : bool :=
  match v with
  | VBool b => b
  | _ => false
  end.

(** The names every plain object inherits from [Object.prototype]. *)
Definition object_prototype_names : list string :=
  [ "constructor"; "__defineGetter__"; "__defineSetter__"; "hasOwnProperty";
    "__lookupGetter__"; "__lookupSetter__"; "isPrototypeOf";
    "propertyIsEnumerable"; "toString"; "valueOf"; "__proto__";
    "toLocaleString" ].

(** ** Objects *)

Fixpoint obj_lookup {A} (k : string) (o : list (string * A)) : option A :=
  match o with
  | [] => None
  | (k', v) :: rest => if decide (k' = k) then Some v else obj_lookup k rest
  end.

(** [o[k]] on a plain object: own properties first, [Object.prototype]
    second, [undefined] otherwise. *)
Definition obj_get (k : string) (o : obj) : value :=
  match obj_lookup k o with
  | Some v => v
  | None => if decide (k ∈ object_prototype_names) then VProtoMember k else VUndef
  end.

(** [o[k] = v]: an existing property keeps its place, a new one goes last.
    (JavaScript enumerates canonical array indices first; the property names
    of this program are not indices.) *)
Fixpoint obj_set (k : string) (v : value) (o : obj) : obj :=
  match o with
  | [] => [(k, v)]
  | (k', v') :: rest =>
      if decide (k' = k) then (k, v) :: rest else (k', v') :: obj_set k v rest
  end.

(** [delete o[k]] *)
Fixpoint obj_delete (k : string) (o : obj) : obj :=
  match o with
  | [] => []
  | (k', v') :: rest =>
      if decide (k' = k) then obj_delete k rest else (k', v') :: obj_delete k rest
  end.

(** [Object.keys(o)] *)
Definition obj_keys (o : obj) : list string := o.*1.

(** [Object.assign(target, source)] *)
Definition obj_assign (target source : obj) : obj :=
  fold_left (λ acc kv, obj_set kv.1 kv.2 acc) source target.

(** The characters of a string as one-character strings. *)
Fixpoint string_chars (s : string) : list value :=
  match s with
  | EmptyString => []
  | String c rest => VStr (String c EmptyString) :: string_chars rest
  end.

(** The elements of an array or the characters of a string under their
    index names. *)
Definition indexed (items : list value) : obj :=
  imap (λ i x, (pretty i, x)) items.

(** The own enumerable properties of any value, as [Object.keys] lists
    them: the fields of an object, the indices and then the named properties
    of an array, the indices of a string, nothing for the other values. *)
Definition own_entries (v : value) : obj :=
  match v with
  | VObj fields => fields
  | VArr items props => indexed items ++ props
  | VStr s => indexed (string_chars s)
  | _ => []
  end.

(** [v[k]] on any value: a [TypeError] on [undefined] and [null].  The
    methods that arrays, strings, numbers and booleans inherit are functions;
    the program reads none of them by a fixed name. *)
Definition get_member (v : value) (k : string) : result value :=
  match v with
  | VUndef => Throw (TypeError ("Cannot read property '" +:+ k +:+ "' of undefined"))
  | VNull => Throw (TypeError ("Cannot read property '" +:+ k +:+ "' of null"))
  | VObj fields => Ok (obj_get k fields)
  | VArr items _ =>
      if decide (k = "length") then Ok (VNum (Z.of_nat (length items)))
      else Ok (default VUndef (obj_lookup k (own_entries v)))
  | VStr s =>
      if decide (k = "length") then Ok (VNum (Z.of_nat (String.length s)))
      else Ok (default VUndef (obj_lookup k (own_entries v)))
  | _ => Ok VUndef
  end.

(** [v[k] = x] in strict mode: a [TypeError] on [undefined], [null] and the
    primitive values; a named property on an array.  (A write through an
    inherited member lands on an object shared by all objects and is dealt
    with where it can occur.) *)
Definition set_member (v : value) (k : string) (x : value) : result value :=
  match v with
  | VObj fields => Ok (VObj (obj_set k x fields))
  | VArr items props => Ok (VArr items (obj_set k x props))
  | VProtoMember name => Ok (VProtoMember name)
  | _ => Throw (TypeError ("Cannot create property '" +:+ k +:+ "'"))
  end.

(** ** The collaborators of the class

    [systemStats.js] requires [util.js], [normalize.js], [mustache], the
    endpoint loader and the two configuration documents.  They are the
    parameters of the development. *)

(** The [options] object [_processData] hands to [normalize.data]. *)
Record addKeysByTag_options := {
  tags : obj;
  definitions : value;
  opts : value
}.

Record normalize_options := {
  key : value;
  filterByKeys : list value;
  renameKeysByPattern : list value;
  convertArrayToMap : value;
  includeFirstEntry : value;
  formatTimestamps : value;
  runCustomFunctions : value;
  addKeysByTag : addKeysByTag_options;
  propertyKey : string
}.

Class Collaborators := {
  (** [util.compareVersionStrings(v1, comparator, v2)]: a boolean, or throws *)
  compareVersionStrings : value → string → value → result bool;
  (** [String(v)] for a value that is not a string *)
  ToString : value → string;
  (** [`${err}`] *)
  exn_to_string : exn → string;
  (** [mustache.render(template, view)] *)
  mustache_render : value → obj → result value;
  (** [normalize.data(data, options)] *)
  normalize_data : value → normalize_options → result value;
  (** [constants.STATS_KEY_SEP] *)
  STATS_KEY_SEP : string;
  (** [this.loader.auth()] *)
  loader_auth : result unit;
  (** [this.loader.loadEndpoint(endpoint, keyArgs, callback)]: the pair
      [(data, err)] the loader calls [callback] with, once, at a later turn
      of the event loop *)
  loader_response : string → value → value * value;
  (** [properties.json]: [stats], [context], [definitions] and the members
      of [global] the class reads *)
  stats : obj;
  context : value;
  properties_definitions : value;
  global_filterKeys : value;
  global_renameKeys : value;
  global_formatTimestamps_keys : value;
  global_addKeysByTag : value
}.

(** ** Conditional blocks ([SystemStats.prototype._resolveConditional]) *)

Section Conditionals.
Context `{Collaborators}.

Definition property_key (v : value) : string :=
  match v with
  | VStr s => s
  | _ => ToString v
  end.

(** [function deviceVersionGreaterOrEqual(contextData, versionToCompare)] *)
Definition deviceVersionGreaterOrEqual (contextData : obj) (versionToCompare : value)
  : result value :=
  let deviceVersion := obj_get "deviceVersion" contextData in
  match deviceVersion with
  | VUndef =>
      Throw (Error "deviceVersionGreaterOrEqual: context has no property 'deviceVersion'")
  | _ =>
      b ← compareVersionStrings deviceVersion ">=" versionToCompare;
      Ok (VBool b)
  end.

(** [x.level] for a truthy [x]: only an object can own a [level]. *)
Definition level_of (x : value) : value :=
  match x with
  | VObj fields => obj_get "level" fields
  | _ => VUndef
  end.

(** [function isModuleProvisioned(contextData, moduleToCompare)] *)
Definition isModuleProvisioned (contextData : obj) (moduleToCompare : value)
  : result value :=
  let provisioning := obj_get "provisioning" contextData in
  match provisioning with
  | VUndef =>
      Throw (Error "isModuleProvisioned: context has no property 'provisioning'")
  | _ =>
      m ← get_member provisioning (property_key moduleToCompare);
      let entry := if truthy m then m else VObj [] in
      let level := if truthy (level_of entry) then level_of entry else VStr "none" in
      Ok (VBool (negb (is_string "none" level)))
  end.

(** What [CONDITIONAL_FUNCS[key]] evaluates to.  [CONDITIONAL_FUNCS] is an
    object literal holding the two predicates, so the lookup of any other
    name reaches [Object.prototype]. *)
Inductive conditional_func :=
| FDeviceVersionGreaterOrEqual
| FIsModuleProvisioned
| FObjectPrototype (name : string).

Definition CONDITIONAL_FUNCS (key : string) : option conditional_func :=
  if decide (key = "deviceVersionGreaterOrEqual") then Some FDeviceVersionGreaterOrEqual
  else if decide (key = "isModuleProvisioned") then Some FIsModuleProvisioned
  else if decide (key ∈ object_prototype_names) then Some (FObjectPrototype key)
  else None.

(** The closed registry of the specification. *)
Definition registered (key : string) : Prop :=
  key = "deviceVersionGreaterOrEqual" ∨ key = "isModuleProvisioned".

(** [func(this.contextData, conditionalBlock[key])], called as a plain
    function ([this] is [undefined]).  Of the inherited members,
    [toString] answers for its receiver, [constructor] is [Object] and
    returns the object it is given, [__proto__] is not a function, and the
    others convert their receiver to an object first, which throws. *)
Definition call_conditional (func : conditional_func) (contextData : obj) (arg : value)
  : result value :=
  match func with
  | FDeviceVersionGreaterOrEqual => deviceVersionGreaterOrEqual contextData arg
  | FIsModuleProvisioned => isModuleProvisioned contextData arg
  | FObjectPrototype name =>
      if decide (name = "toString") then Ok (VStr "[object Undefined]")
      else if decide (name = "constructor") then Ok (VObj contextData)
      else if decide (name = "__proto__") then Throw (TypeError "func is not a function")
      else Throw (TypeError "Cannot convert undefined or null to object")
  end.

(** [CONDITIONAL_FUNCS[key](this.contextData, arg)] *)
Definition apply_predicate (key : string) (contextData : obj) (arg : value)
  : result value :=
  match CONDITIONAL_FUNCS key with
  | Some func => call_conditional func contextData arg
  | None => Throw (TypeError "CONDITIONAL_FUNCS[key] is not a function")
  end.

(** The predicate of an entry of a conditional block returns [true]. *)
Definition holds (contextData : obj) (entry : string * value) : Prop :=
  apply_predicate entry.1 contextData entry.2 = Ok (VBool true).

(** One turn of the [forEach] callback.  The state is [ret] and the list of
    the keys whose function has been invoked so far. *)
Definition resolve_step (contextData : obj) (st : value * list string)
    (entry : string * value) : result (value * list string) :=
  let '(ret, invoked) := st in
  let '(key, arg) := entry in
  match CONDITIONAL_FUNCS key with
  | None => Throw (Error ("Unknown property in conditional block " +:+ key))
  | Some func =>
      if truthy ret then
        r ← call_conditional func contextData arg;
        Ok (r, invoked ++ [key])
      else Ok (ret, invoked)
  end.

Fixpoint resolve_entries (contextData : obj) (st : value * list string)
    (entries : obj) : result (value * list string) :=
  match entries with
  | [] => Ok st
  | entry :: rest =>
      st' ← resolve_step contextData st entry;
      resolve_entries contextData st' rest
  end.

(** [_resolveConditional] together with the keys whose predicate it invoked. *)
Definition _resolveConditional_traced (contextData : obj) (conditionalBlock : value)
  : result (value * list string) :=
  resolve_entries contextData (VBool true, []) (own_entries conditionalBlock).

Definition _resolveConditional (contextData : obj) (conditionalBlock : value)
  : result value :=
  st ← _resolveConditional_traced contextData conditionalBlock ; Ok st.1.

(** ** Conditional properties ([SystemStats.prototype._preprocessProperty]) *)

(** Modelled from the spec: [util.deepCopy] of [util.js], a deep copy.
    Values are immutable trees here, so the copy of a value is that value. *)
Definition deepCopy (v : value) : value := v.

Definition is_conditional_key (key : string) : bool :=
  bool_decide (key = "if") || bool_decide (key = "then") || bool_decide (key = "else").

(** [Object.keys(property).forEach(...)]: copy all non-conditional data on
    the same level to the new object. *)
Definition copy_unconditional (property : value) (newObj : obj) : obj :=
  fold_left
    (λ acc kv, if is_conditional_key kv.1 then acc else obj_set kv.1 kv.2 acc)
    (own_entries property) newObj.

(** An object without [if], [then] and [else]. *)
Definition unconditional (o : obj) : Prop :=
  Forall (λ k, is_conditional_key k = false) (obj_keys o).

(** The body of [while (property) { ... }].  Only an object can have a
    truthy [if]; the inner [descend] is the read of [property.then] or
    [property.else], written so that the recursion is on a part of
    [property] (see [resolve_loop_object]). *)
Fixpoint resolve_loop (contextData : obj) (newObj : obj) (property : value)
  {struct property} : result obj :=
  if truthy property then
    let newObj' := copy_unconditional property newObj in
    match property with
    | VObj fields =>
        let cond := obj_get "if" fields in
        if truthy cond then
          r ← _resolveConditional contextData cond;
          let branch := if truthy r then "then" else "else" in
          (fix descend (fs : obj) : result obj :=
             match fs with
             | [] => Ok newObj'
             | (k, v) :: rest =>
                 if decide (k = branch) then resolve_loop contextData newObj' v
                 else descend rest
             end) fields
        else Ok newObj'
    | _ => Ok newObj'
    end
  else Ok newObj.

Definition _preprocessProperty (contextData : obj) (property : value) : result value :=
  cond ← get_member property "if";
  if truthy cond then
    newObj ← resolve_loop contextData [] property;
    Ok (deepCopy (VObj newObj))
  else Ok (deepCopy property).

(** The conditional blocks of a property: its own [if], and the
    conditional blocks of its [then] and of its [else]. *)
Inductive block_of : value → value → Prop :=
| block_here (fields : obj) :
    truthy (obj_get "if" fields) = true →
    block_of (VObj fields) (obj_get "if" fields)
| block_then (fields : obj) (block : value) :
    truthy (obj_get "if" fields) = true →
    block_of (obj_get "then" fields) block → block_of (VObj fields) block
| block_else (fields : obj) (block : value) :
    truthy (obj_get "if" fields) = true →
    block_of (obj_get "else" fields) block → block_of (VObj fields) block.

(** The resolution of a property as the specification describes it, from
    the fields accumulated so far to the flattened property.  An absent (or
    falsy) continuation ends it with the fields accumulated so far; a property
    without a condition adds its fields and ends it; a property with a
    condition adds its fields other than [if], [then] and [else], and the
    resolution goes on with the branch its block selects. *)
Inductive flattens (contextData : obj) : obj → value → obj → Prop :=
| flattens_absent (accumulated : obj) (property : value) :
    truthy property = false →
    flattens contextData accumulated property accumulated
| flattens_plain (accumulated : obj) (property : value) :
    truthy property = true →
    (∀ fields, property = VObj fields → truthy (obj_get "if" fields) = false) →
    flattens contextData accumulated property (copy_unconditional property accumulated)
| flattens_branch (accumulated fields : obj) (r : value) (flattened : obj) :
    truthy (obj_get "if" fields) = true →
    _resolveConditional contextData (obj_get "if" fields) = Ok r →
    flattens contextData (copy_unconditional (VObj fields) accumulated)
      (obj_get (if truthy r then "then" else "else") fields) flattened →
    flattens contextData accumulated (VObj fields) flattened.

(** ** Key templates ([SystemStats.prototype._renderProperty]) *)

Definition _renderProperty (contextData : obj) (property : value) : result value :=
  k ← get_member property "key";
  if truthy k then
    match property with
    | VObj fields =>
        rendered ← mustache_render k contextData;
        Ok (VObj (obj_set "key" rendered fields))
    | _ => Ok property
    end
  else Ok property.

End Conditionals.

(** ** Loading and normalizing one property *)

(** How a promise has settled, if it has. *)
Inductive settlement (A : Type) :=
| Resolved (a : A)
| Rejected (e : exn)
| Pending.
Arguments Resolved {A} a.
Arguments Rejected {A} e.
Arguments Pending {A}.

Section Properties.
Context `{Collaborators}.

(** [s.split(sep)] for a non-empty separator: [skip] counts the characters
    of a separator just matched that are still to be dropped, [cur] is the
    piece being read. *)
Fixpoint split_go (sep : string) (skip : nat) (cur : string) (s : string) : list string :=
  match s with
  | EmptyString => [cur]
  | String c rest =>
      match skip with
      | S n => split_go sep n cur rest
      | O =>
          if String.prefix sep s
          then cur :: split_go sep (String.length sep - 1) "" rest
          else split_go sep 0 (cur +:+ String c "") rest
      end
  end.

Definition string_split (sep : string) (s : string) : list string :=
  if decide (sep = "")
  then (λ c, String c "") <$> String.list_ascii_of_string s
  else split_go sep 0 "" s.

(** [SystemStats.prototype._splitKey]: [{ rootKey, childKey }].  A key that
    is not a string has no [split]. *)
Definition _splitKey (k : value) : result (value * value) :=
  match k with
  | VStr s =>
      match string_split STATS_KEY_SEP s with
      | [] => Ok (VUndef, VUndef)
      | rootKey :: splitKeys =>
          Ok (VStr rootKey,
              if decide (0 < length splitKeys)
              then VStr (String.concat STATS_KEY_SEP splitKeys) else VUndef)
      end
  | _ => Throw (TypeError "key.split is not a function")
  end.

(** [typeof v === 'object'] for a truthy [v] *)
Definition is_object (v : value) : bool :=
  match v with
  | VObj _ | VArr _ _ => true
  | _ => false
  end.

(** [v === false] *)
Definition is_false (v : value) : bool :=
  match v with
  | VBool b => negb b
  | _ => false
  end.

Definition defaultTags : obj :=
  [("name", VObj [("pattern", VStr "(.*)"); ("group", VNum 1)])].

(** The [options] object literal of [_processData]. *)
Definition processData_options (this_tags : value) (property : value) (key_ : string)
  : result normalize_options :=
  p_addKeysByTag ← get_member property "addKeysByTag";
  let addKeysByTagIsObject := truthy p_addKeysByTag && is_object p_addKeysByTag in
  p_key ← get_member property "key";
  split ← _splitKey p_key;
  p_filterKeys ← get_member property "filterKeys";
  p_renameKeys ← get_member property "renameKeys";
  p_convertArrayToMap ← get_member property "convertArrayToMap";
  p_includeFirstEntry ← get_member property "includeFirstEntry";
  p_runFunctions ← get_member property "runFunctions";
  Ok {|
    key := split.2;
    filterByKeys :=
      if truthy p_filterKeys then [p_filterKeys; global_filterKeys] else [global_filterKeys];
    renameKeysByPattern :=
      if truthy p_renameKeys then [p_renameKeys; global_renameKeys] else [global_renameKeys];
    convertArrayToMap := p_convertArrayToMap;
    includeFirstEntry := p_includeFirstEntry;
    formatTimestamps := global_formatTimestamps_keys;
    runCustomFunctions := p_runFunctions;
    addKeysByTag := {|
      tags :=
        if truthy p_addKeysByTag
        then obj_assign defaultTags (own_entries this_tags) else defaultTags;
      definitions := properties_definitions;
      opts := if addKeysByTagIsObject then p_addKeysByTag else global_addKeysByTag
    |};
    propertyKey := key_
  |}.

(** [SystemStats.prototype._processData] *)
Definition _processData (this_tags : value) (property data : value) (key_ : string)
  : result value :=
  options ← processData_options this_tags property key_;
  p_normalize ← get_member property "normalize";
  if is_false p_normalize then Ok data else normalize_data data options.

(** The callback [_loadData] hands to the loader.  When it throws, it throws
    into the loader and the promise is never settled. *)
Definition loadData_callback (data err : value) : settlement value :=
  if truthy err then Rejected (Rejection err)
  else
    match
      (d ← get_member data "data";
       items ← get_member d "items";
       if truthy items then Ok d else set_member d "items" (VArr [] []))
    with
    | Ok d => Resolved d
    | Throw _ => Pending
    end.

(** [SystemStats.prototype._loadData]: how the promise it returns settles.
    An exception in the executor rejects the promise. *)
Definition _loadData (property : value) : settlement value :=
  match
    (p_key ← get_member property "key";
     split ← _splitKey p_key;
     keyArgs ← get_member property "keyArgs";
     Ok (split.1, keyArgs))
  with
  | Throw e => Rejected e
  | Ok (endpoint, keyArgs) =>
      let '(data, err) := loader_response (property_key endpoint) keyArgs in
      loadData_callback data err
  end.

(** What [_processProperty] has done when it returns: it has settled the
    property at once (disabled, or a folder), or the load is in flight. *)
Inductive started :=
| Settled (collectedData : obj)
| Loading (property : value).

(** [SystemStats.prototype._processProperty], up to the call of
    [_loadData].  A [Throw] is an exception thrown to the caller. *)
Definition _processProperty (contextData collectedData : obj) (key_ : string)
    (property : value) : result started :=
  property ← _preprocessProperty contextData property;
  property ← _renderProperty contextData property;
  disabled ← get_member property "disabled";
  if truthy disabled then Ok (Settled collectedData)
  else
    structure ← get_member property "structure";
    folder ← (if truthy structure then get_member structure "folder" else Ok structure);
    if truthy structure && is_true folder
    then Ok (Settled (obj_set key_ (VObj []) collectedData))
    else Ok (Loading property).

(** The line [_processProperty] logs before it rejects. *)
Definition processProperty_error (key_ : string) (property : value) (err : exn) : string :=
  "Error: SystemStats._processProperty: " +:+ key_ +:+ " (" +:+
  property_key (ok_or VUndef (get_member property "key")) +:+ "): " +:+ exn_to_string err.

(** [_processProperty], from the answer of the loader on: the promise it
    returned settles, with [collectedData[key]] written or the error
    logged. *)
Definition processProperty_settle (this_tags : value) (collectedData : obj)
    (key_ : string) (property : value) : settlement obj * list string :=
  match _loadData property with
  | Pending => (Pending, [])
  | Rejected err => (Rejected err, [processProperty_error key_ property err])
  | Resolved data =>
      match _processData this_tags property data key_ with
      | Ok normalized => (Resolved (obj_set key_ normalized collectedData), [])
      | Throw err => (Rejected err, [processProperty_error key_ property err])
      end
  end.

End Properties.

(** ** The collection ([SystemStats.prototype.collect]) *)

Section Collection.
Context `{Collaborators}.

(** [Object.keys(v)] with the values: a [TypeError] on [undefined] and
    [null]. *)
Definition object_entries (v : value) : result obj :=
  match v with
  | VUndef | VNull => Throw (TypeError "Cannot convert undefined or null to object")
  | _ => Ok (own_entries v)
  end.

(** The first [forEach] of the last step of [collect]: order data according
    to the properties file. *)
Definition order_data (collectedData : obj) : obj :=
  fold_left (λ data key_, obj_set key_ (obj_get key_ collectedData) data)
            (obj_keys stats) [].

(** One turn of the second [forEach]: certain stats require a more complex
    structure. *)
Definition restructure_step (data : obj) (key_ : string) : result obj :=
  let stat := if truthy (obj_get key_ stats) then obj_get key_ stats else VObj [] in
  structure ← get_member stat "structure";
  folder ← (if truthy structure then get_member structure "folder" else Ok structure);
  if truthy structure && negb (truthy folder) then
    parentKey ← get_member structure "parentKey";
    let parentKey := property_key parentKey in
    parent ← set_member (obj_get parentKey data) key_ (obj_get key_ data);
    let data :=
      match obj_lookup parentKey data with
      | Some _ => obj_set parentKey parent data
      | None => data
      end in
    Ok (obj_delete key_ data)
  else Ok data.

(** The parent a property is moved under: that of a property whose
    [structure] is set and is not a folder. *)
Definition parent_of (key_ : string) : option string :=
  let stat := if truthy (obj_get key_ stats) then obj_get key_ stats else VObj [] in
  let structure := ok_or VUndef (get_member stat "structure") in
  let folder := ok_or VUndef (get_member structure "folder") in
  if truthy structure && negb (truthy folder)
  then Some (property_key (ok_or VUndef (get_member structure "parentKey")))
  else None.

(** [v[k]] when [k] is an own property of the object or the array [v]. *)
Definition own_member (v : value) (k : string) : option value :=
  match v with
  | VObj fields => obj_lookup k fields
  | VArr _ props => obj_lookup k props
  | _ => None
  end.

Fixpoint restructure (data : obj) (keys : list string) : result obj :=
  match keys with
  | [] => Ok data
  | key_ :: rest =>
      data ← restructure_step data key_;
      restructure data rest
  end.

(** The last step of [collect]: the tree the promise is resolved with. *)
Definition final_tree (collectedData : obj) : result obj :=
  let data := order_data collectedData in
  restructure data (obj_keys data).

(** *** The event loop

    [collect] runs in turns.  The first turn runs [collect] itself up to the
    point where every promise waits for the loader.  Every later turn is
    one answer of the loader: the callback of [_loadData] and all the
    promise reactions that follow from it. *)

(** A [Promise.all] of the class: a context phase or the stats properties. *)
Inductive join_kind :=
| ContextPhase (i : nat)
| StatsProperties.

Inductive join_state :=
| Waiting (outstanding : nat)
| Fulfilled
| Failed.

Record join := {
  join_of : join_kind;
  join_is : join_state
}.

(** A load in flight: the property it is for and the [Promise.all] that
    waits for it ([None] when [_processContext] threw before it reached
    [Promise.all]). *)
Record task := {
  task_join : option nat;
  task_kind : join_kind;
  task_key : string;
  task_property : value
}.

Inductive event :=
| Processing (kind : join_kind) (key_ : string)    (* [_processProperty] is called *)
| Stored (kind : join_kind) (key_ : string)        (* [collectedData[key]] is written *)
| Published (phase : nat)                           (* the phase is assigned to [contextData] *)
| Assembled.                                        (* the last step of [collect] runs *)

Record machine := {
  this_contextData : obj;
  this_collectedData : obj;
  this_tags : value;
  in_flight : list task;
  joins : list join;
  (** the [Promise.all] the chain of [collect] waits for *)
  awaited : option nat;
  (** how the promise returned by [collect] has settled *)
  settled : option (result obj);
  logged : list string;
  trace : list event
}.

Definition set_collected (c : obj) (m : machine) : machine :=
  {| this_contextData := this_contextData m; this_collectedData := c;
     this_tags := this_tags m; in_flight := in_flight m; joins := joins m;
     awaited := awaited m; settled := settled m; logged := logged m;
     trace := trace m |}.

Definition add_tasks (ts : list task) (m : machine) : machine :=
  {| this_contextData := this_contextData m; this_collectedData := this_collectedData m;
     this_tags := this_tags m; in_flight := in_flight m ++ ts; joins := joins m;
     awaited := awaited m; settled := settled m; logged := logged m;
     trace := trace m |}.

Definition set_in_flight (ts : list task) (m : machine) : machine :=
  {| this_contextData := this_contextData m; this_collectedData := this_collectedData m;
     this_tags := this_tags m; in_flight := ts; joins := joins m;
     awaited := awaited m; settled := settled m; logged := logged m;
     trace := trace m |}.

Definition set_joins (js : list join) (m : machine) : machine :=
  {| this_contextData := this_contextData m; this_collectedData := this_collectedData m;
     this_tags := this_tags m; in_flight := in_flight m; joins := js;
     awaited := awaited m; settled := settled m; logged := logged m;
     trace := trace m |}.

Definition set_awaited (a : option nat) (m : machine) : machine :=
  {| this_contextData := this_contextData m; this_collectedData := this_collectedData m;
     this_tags := this_tags m; in_flight := in_flight m; joins := joins m;
     awaited := a; settled := settled m; logged := logged m;
     trace := trace m |}.

Definition add_log (lines : list string) (m : machine) : machine :=
  {| this_contextData := this_contextData m; this_collectedData := this_collectedData m;
     this_tags := this_tags m; in_flight := in_flight m; joins := joins m;
     awaited := awaited m; settled := settled m; logged := logged m ++ lines;
     trace := trace m |}.

Definition add_event (e : event) (m : machine) : machine :=
  {| this_contextData := this_contextData m; this_collectedData := this_collectedData m;
     this_tags := this_tags m; in_flight := in_flight m; joins := joins m;
     awaited := awaited m; settled := settled m; logged := logged m;
     trace := trace m ++ [e] |}.

(** The promise of [collect] settles, once. *)
Definition settle (r : result obj) (m : machine) : machine :=
  match settled m with
  | Some _ => m
  | None =>
      {| this_contextData := this_contextData m; this_collectedData := this_collectedData m;
         this_tags := this_tags m; in_flight := in_flight m; joins := joins m;
         awaited := None; settled := Some r; logged := logged m;
         trace := trace m |}
  end.

(** [.catch] of [collect]: log and reject. *)
Definition collect_catch (err : exn) (m : machine) : machine :=
  settle (Throw err) (add_log ["Error: SystemStats.collect: " +:+ exn_to_string err] m).

(** [Object.keys(...).map(key => this._processProperty(key, ...))]: the
    properties are processed in order; an exception ends the [map].  The
    loads begun are returned with the machine. *)
Fixpoint start_entries (kind : join_kind) (entries : obj) (loads : list (string * value))
    (m : machine) : machine * list (string * value) * option exn :=
  match entries with
  | [] => (m, loads, None)
  | (key_, property) :: rest =>
      let m := add_event (Processing kind key_) m in
      match _processProperty (this_contextData m) (this_collectedData m) key_ property with
      | Throw e => (m, loads, Some e)
      | Ok (Settled collectedData) =>
          start_entries kind rest loads (set_collected collectedData m)
      | Ok (Loading property) =>
          start_entries kind rest (loads ++ [(key_, property)]) m
      end
  end.

Definition new_tasks (j : option nat) (kind : join_kind) (loads : list (string * value))
  : list task :=
  (λ kp, {| task_join := j; task_kind := kind; task_key := kp.1; task_property := kp.2 |})
    <$> loads.

(** [Promise.all(Object.keys(...).map(...))]: the index of the new
    [Promise.all], or the exception of the [map]. *)
Definition start_join (kind : join_kind) (entries : obj) (m : machine)
  : machine * result nat :=
  let '(m, loads, err) := start_entries kind entries [] m in
  match err with
  | Some e => (add_tasks (new_tasks None kind loads) m, Throw e)
  | None =>
      let j := length (joins m) in
      (set_joins (joins m ++ [{| join_of := kind; join_is := Waiting (length loads) |}])
         (add_tasks (new_tasks (Some j) kind loads) m),
       Ok j)
  end.

(** The reaction of [_processContext]:
    [Object.assign(this.contextData, this.collectedData); this.collectedData = {}] *)
Definition publish (phase : nat) (m : machine) : machine :=
  add_event (Published phase)
    {| this_contextData := obj_assign (this_contextData m) (this_collectedData m);
       this_collectedData := [];
       this_tags := this_tags m; in_flight := in_flight m; joins := joins m;
       awaited := awaited m; settled := settled m; logged := logged m;
       trace := trace m |}.

(** The last [.then] of [collect]. *)
Definition assemble (m : machine) : machine :=
  let m := add_event Assembled m in
  match final_tree (this_collectedData m) with
  | Ok data => settle (Ok data) m
  | Throw e => collect_catch e m
  end.

Definition set_join_state (j : nat) (st : join_state) (m : machine) : machine :=
  set_joins (alter (λ jn, {| join_of := join_of jn; join_is := st |}) j (joins m)) m.

(** [.then(() => this._computePropertiesData(stats))]; with no load to wait
    for, the last step follows at once. *)
Definition start_stats (m : machine) : machine :=
  match start_join StatsProperties stats m with
  | (m, Throw e) => collect_catch e m
  | (m, Ok j) =>
      match join_is <$> joins m !! j with
      | Some (Waiting 0) => assemble (set_join_state j Fulfilled m)
      | _ => set_awaited (Some j) m
      end
  end.

(** A [Promise.all] is fulfilled: its reaction runs, and the chain of
    [collect] goes on if it waited for it. *)
Definition fulfil (j : nat) (m : machine) : machine :=
  match join_of <$> joins m !! j with
  | None => m
  | Some kind =>
      let waited := bool_decide (awaited m = Some j) in
      let m := set_join_state j Fulfilled m in
      match kind with
      | ContextPhase i =>
          let m := publish i m in
          if waited then start_stats m else m
      | StatsProperties => if waited then assemble m else m
      end
  end.

Definition member_resolved (j : nat) (m : machine) : machine :=
  match join_is <$> joins m !! j with
  | Some (Waiting (S n)) =>
      let m := set_join_state j (Waiting n) m in
      match n with
      | O => fulfil j m
      | S _ => m
      end
  | _ => m
  end.

(** The first rejection rejects the [Promise.all]; only the chain of
    [collect] has a handler for it. *)
Definition member_rejected (err : exn) (j : nat) (m : machine) : machine :=
  match join_is <$> joins m !! j with
  | Some (Waiting _) =>
      let waited := bool_decide (awaited m = Some j) in
      let m := set_join_state j Failed m in
      if waited then collect_catch err m else m
  | _ => m
  end.

(** The [Promise.all]s that wait for no load are fulfilled at the end of
    the turn that created them, in the order of their creation. *)
Definition drain (m : machine) : machine :=
  fold_left
    (λ m j, match join_is <$> joins m !! j with
            | Some (Waiting 0) => fulfil j m
            | _ => m
            end)
    (seq 0 (length (joins m))) m.

(** The [for] loop of [_computeContextData]:
    [promise.then(this._processContext(contextData[i]))] calls
    [_processContext] at once and hands [then] a promise where it takes a
    function. *)
Fixpoint start_phases (i : nat) (phases : list value) (m : machine) : machine * result unit :=
  match phases with
  | [] => (m, Ok ())
  | phase :: rest =>
      match object_entries phase with
      | Throw e => (m, Throw e)
      | Ok entries =>
          match start_join (ContextPhase i) entries m with
          | (m, Throw e) => (m, Throw e)
          | (m, Ok _) => start_phases (S i) rest m
          end
      end
  end.

(** [SystemStats.prototype._computeContextData], the synchronous part: the
    [Promise.all] whose promise it returns, if there is one. *)
Definition _computeContextData (contextData : value) (m : machine)
  : machine * result (option nat) :=
  match contextData with
  | VArr [] _ => (m, Ok None)
  | VArr (phase :: rest) _ =>
      match object_entries phase with
      | Throw e => (m, Throw e)
      | Ok entries =>
          match start_join (ContextPhase 0) entries m with
          | (m, Throw e) => (m, Throw e)
          | (m, Ok j) =>
              match start_phases 1 rest m with
              | (m, Throw e) => (m, Throw e)
              | (m, Ok _) => (m, Ok (Some j))
              end
          end
      end
  | _ =>
      if truthy contextData then
        match start_join (ContextPhase 0) (own_entries contextData) m with
        | (m, Throw e) => (m, Throw e)
        | (m, Ok j) => (m, Ok (Some j))
        end
      else (m, Ok None)
  end.

(** A new [SystemStats()]. *)
Definition new_SystemStats : machine :=
  {| this_contextData := []; this_collectedData := []; this_tags := VObj [];
     in_flight := []; joins := []; awaited := None; settled := None;
     logged := []; trace := [] |}.

(** The first turn of [collect(host, options)], where [tags] is
    [options.tags]. *)
Definition collect_start (tags : value) : machine :=
  let m := new_SystemStats in
  let m :=
    {| this_contextData := this_contextData m; this_collectedData := this_collectedData m;
       this_tags := if truthy tags then tags else this_tags m;
       in_flight := in_flight m; joins := joins m; awaited := awaited m;
       settled := settled m; logged := logged m; trace := trace m |} in
  match loader_auth with
  | Throw e => collect_catch e m
  | Ok _ =>
      match _computeContextData context m with
      | (m, Throw e) => collect_catch e (drain m)
      | (m, Ok None) => start_stats m
      | (m, Ok (Some j)) => drain (set_awaited (Some j) m)
      end
  end.

(** A later turn: the loader answers the [i]th load in flight. *)
Definition deliver (i : nat) (m : machine) : machine :=
  match in_flight m !! i with
  | None => m
  | Some t =>
      let m := set_in_flight (delete i (in_flight m)) m in
      match processProperty_settle (this_tags m) (this_collectedData m)
              (task_key t) (task_property t) with
      | (Pending, _) => m
      | (Rejected err, lines) =>
          let m := add_log lines m in
          match task_join t with
          | Some j => member_rejected err j m
          | None => m
          end
      | (Resolved collectedData, _) =>
          let m := add_event (Stored (task_kind t) (task_key t)) (set_collected collectedData m) in
          match task_join t with
          | Some j => member_resolved j m
          | None => m
          end
      end
  end.

(** How the promise of [collect] can change from one state to a later one:
    not at all, or from pending to rejected, or from pending to resolved
    with the tree the last step builds from the collected data. *)
Definition settled_step (m m' : machine) : Prop :=
  settled m' = settled m
  ∨ (settled m = None ∧ ∃ e, settled m' = Some (Throw e))
  ∨ (settled m = None
     ∧ ∃ collectedData output,
         final_tree collectedData = Ok output ∧ settled m' = Some (Ok output)).




(** The loader answers in the order [schedule]. *)
Definition run (schedule : list nat) (m : machine) : machine :=
  fold_left (λ m i, deliver i m) schedule m.

(** [collect(host, options)] after the answers of [schedule]: the promise it
    returned has settled as [settled] says. *)
Definition collect (tags : value) (schedule : list nat) : machine :=
  run schedule (collect_start tags).

End Collection.

(** *** The stats properties when every load succeeds *)

Section Gathering.
Context `{Collaborators}.

(** The load of [t] succeeds: the loader answers without an error and the
    data are normalized. *)
Definition load_succeeds (tags_ : value) (t : task) : Prop :=
  ∃ data_ v, _loadData (task_property t) = Resolved data_
             ∧ _processData tags_ (task_property t) data_ (task_key t) = Ok v.

(** What the reaction of [_processProperty] stores for the load [t]. *)
Definition stored_value (tags_ : value) (t : task) : value :=
  match _loadData (task_property t) with
  | Resolved data_ => ok_or VUndef (_processData tags_ (task_property t) data_ (task_key t))
  | _ => VUndef
  end.

(** [collectedData] holds the value of every load of [loads] that is no
    longer in [pending], and under every other key what [initial] holds. *)
Definition gathered (tags_ : value) (loads pending : list task) (initial collectedData : obj)
  : Prop :=
  (∀ t, t ∈ loads → t ∉ pending →
        obj_lookup (task_key t) collectedData = Some (stored_value tags_ t))
  ∧ (∀ k, (∀ t, t ∈ loads → task_key t = k → t ∈ pending) →
          obj_lookup k collectedData = obj_lookup k initial).

(** [collect] waits for the [Promise.all] [j] of the stats properties, and
    the loads in flight are those it waits for. *)
Definition gathering (tags_ : value) (j : nat) (loads : list task) (initial : obj)
    (m : machine) : Prop :=
  settled m = None
  ∧ awaited m = Some j
  ∧ joins m !! j
    = Some {| join_of := StatsProperties; join_is := Waiting (length (in_flight m)) |}
  ∧ in_flight m ≠ []
  ∧ this_tags m = tags_
  ∧ Forall (λ t, task_join t = Some j ∧ t ∈ loads) (in_flight m)
  ∧ NoDup (task_key <$> in_flight m)
  ∧ gathered tags_ loads (in_flight m) initial (this_collectedData m).

(** Every load has been answered and [collect] has settled with what the
    last step makes of the collected data. *)
Definition finished (tags_ : value) (loads : list task) (initial : obj) (m : machine)
  : Prop :=
  in_flight m = []
  ∧ ∃ collectedData,
      gathered tags_ loads [] initial collectedData
      ∧ settled m = Some (final_tree collectedData).

End Gathering.

(** *** The stats properties wait for the context *)

(** No stats property has been processed, and what [collect] waits for, if
    anything, is the first phase of the context. *)
Definition before_stats (m : machine) : Prop :=
  (∀ k, Processing StatsProperties k ∉ trace m)
  ∧ ∀ j, awaited m = Some j → join_of <$> joins m !! j = Some (ContextPhase 0).

(** In the trace every stats property is processed after the first phase of
    the context was published. *)
Definition stats_follow_context (tr : list event) : Prop :=
  ∀ i k, tr !! i = Some (Processing StatsProperties k) →
    ∃ i0, (i0 < i)%nat ∧ tr !! i0 = Some (Published 0).

Definition sequenced (m : machine) : Prop :=
  before_stats m ∨ (Published 0 ∈ trace m ∧ stats_follow_context (trace m)).

(** *** A context of one phase *)

Section OnePhase.
Context `{Collaborators}.

(** [collect] waits for the [Promise.all] of the only phase of the context,
    and nothing has been published. *)
Definition context_gathering (tags_ : value) (loads : list task) (initial : obj)
    (m : machine) : Prop :=
  settled m = None
  ∧ awaited m = Some 0
  ∧ joins m = [{| join_of := ContextPhase 0; join_is := Waiting (length (in_flight m)) |}]
  ∧ in_flight m ≠ []
  ∧ this_tags m = tags_
  ∧ this_contextData m = []
  ∧ (Published 0 ∉ trace m)
  ∧ Forall (λ t, task_join t = Some 0 ∧ t ∈ loads) (in_flight m)
  ∧ NoDup (task_key <$> in_flight m)
  ∧ NoDup (obj_keys (this_collectedData m))
  ∧ gathered tags_ loads (in_flight m) initial (this_collectedData m).

(** The phase has been published: [contextData] holds the value of every
    load of the phase, and no [Promise.all] of the context is left to be
    fulfilled. *)
Definition context_published (tags_ : value) (loads : list task) (m : machine) : Prop :=
  (∀ t, t ∈ loads →
        obj_lookup (task_key t) (this_contextData m) = Some (stored_value tags_ t))
  ∧ ∀ j i, join_of <$> joins m !! j = Some (ContextPhase i) →
           join_is <$> joins m !! j = Some Fulfilled.

(** Nothing can be published: there is no [Promise.all]. *)
Definition context_abandoned (m : machine) : Prop :=
  joins m = [] ∧ (Published 0 ∉ trace m).

End OnePhase.

(** * The sink data filter ([DataFilter])

    [apply] copies its argument and mutates the copy, so here the values
    live in a heap: an object or an array is a cell, and a variable holds a
    primitive value or the location of a cell.  A location is an index into
    the heap; a new cell goes at its end. *)

Module DataFilter.

Inductive hval :=
| HUndef
| HNull
| HBool (b : bool)
| HNum (n : Z)
| HStr (s : string)
| HRef (l : nat).

#[global] Instance hval_eq_dec : EqDecision hval.
Proof. solve_decision. Defined.

Inductive cell :=
| CObj (fields : list (string * hval))
| CArr (items : list hval).

Abbreviation heap := (list cell).

(** [Object.keys(c)] with the values. *)
Definition cell_entries (c : cell) : list (string * hval) :=
  match c with
  | CObj fields => fields
  | CArr items => imap (λ i x, (pretty i, x)) items
  end.

(** A match of [getDeepMatches]: [{ data, key }]. *)
Record deep_match := {
  data : nat;
  key : string
}.

(** The filter: [this._consumerConfig], a private copy that is only read,
    and the location of [this.blacklist]. *)
Record t := {
  _consumerConfig : value;
  blacklist : nat
}.

(** [DataFilter.prototype._applyGlobalFilters]: the properties of
    [this.blacklist] when it returns. *)
Definition _applyGlobalFilters (consumerConfig : value) (blacklist : list (string * hval))
  : result (list (string * hval)) :=
  type ← get_member consumerConfig "type";
  if negb (is_string "Splunk" type)
  then Ok (blacklist ++ [("tmstats", HBool true)])
  else
    config ← get_member consumerConfig "config";
    format ← get_member config "format";
    if negb (is_string "legacy" format)
    then Ok (blacklist ++ [("tmstats", HBool true)])
    else Ok blacklist.

(** [new DataFilter(consumerConfig)] *)
Definition new (h : heap) (consumerConfig : value) : result (heap * t) :=
  let config := deepCopy consumerConfig in
  blacklist ← _applyGlobalFilters config [];
  Ok (h ++ [CObj blacklist], {| _consumerConfig := config; blacklist := length h |}).

Section Copy.
Variable copy : heap → hval → option (heap * hval).

Fixpoint copy_fields (h : heap) (fields : list (string * hval))
  : option (heap * list (string * hval)) :=
  match fields with
  | [] => Some (h, [])
  | (k, v) :: rest =>
      '(h, v') ← copy h v;
      '(h, rest') ← copy_fields h rest;
      Some (h, (k, v') :: rest')
  end.

Fixpoint copy_items (h : heap) (items : list hval) : option (heap * list hval) :=
  match items with
  | [] => Some (h, [])
  | v :: rest =>
      '(h, v') ← copy h v;
      '(h, rest') ← copy_items h rest;
      Some (h, v' :: rest')
  end.
End Copy.

(** Modelled from the spec: [util.deepCopy] of [util.js] on the heap: a deep
    copy.  Every cell reachable from [v] is rebuilt as a new cell.  [None]
    when [fuel] does not reach the depth of [v]. *)
Fixpoint deepCopy (fuel : nat) (h : heap) (v : hval) : option (heap * hval) :=
  match v with
  | HRef l =>
      match fuel with
      | O => None
      | S fuel =>
          c ← h !! l;
          match c with
          | CObj fields =>
              '(h, fields') ← copy_fields (deepCopy fuel) h fields;
              Some (h ++ [CObj fields'], HRef (length h))
          | CArr items =>
              '(h, items') ← copy_items (deepCopy fuel) h items;
              Some (h ++ [CArr items'], HRef (length h))
          end
      end
  | _ => Some (h, v)
  end.

Section Scan.
Variable scan : hval → option (list deep_match).
Variable names : list string.
Variable l : nat.

Fixpoint scan_entries (entries : list (string * hval)) : option (list deep_match) :=
  match entries with
  | [] => Some []
  | (k, v) :: rest =>
      ms ← (if decide (k ∈ names) then Some [{| data := l; key := k |}] else scan v);
      ms' ← scan_entries rest;
      Some (ms ++ ms')
  end.
End Scan.

(** Modelled from the spec: [dataUtil.getDeepMatches] of [dataUtil.js]:
    it scans nested mappings and sequences at every depth for keys matching
    the blacklist and collects all matches; it mutates nothing.  [names] are
    the keys of the blacklist.  [None] when [fuel] does not reach the depth
    of [v]. *)
Fixpoint getDeepMatches (fuel : nat) (h : heap) (v : hval) (names : list string)
  : option (list deep_match) :=
  match v with
  | HRef l =>
      match fuel with
      | O => None
      | S fuel =>
          c ← h !! l;
          scan_entries (λ v, getDeepMatches fuel h v names) names l (cell_entries c)
      end
  | _ => Some []
  end.

(** [delete match.data[match.key]]: a property goes, an element of an array
    leaves a hole, which reads as [undefined]. *)
Definition delete_match (h : heap) (m : deep_match) : heap :=
  alter (λ c, match c with
              | CObj fields => CObj (filter (λ kv, kv.1 ≠ key m) fields)
              | CArr items =>
                  CArr (imap (λ i x, if decide (pretty i = key m) then HUndef else x) items)
              end) (data m) h.

(** The loop over an array from its end: [splice] every element that is
    [undefined]. *)
Definition reindex_match (h : heap) (m : deep_match) : heap :=
  alter (λ c, match c with
              | CObj fields => CObj fields
              | CArr items => CArr (filter (λ x, x ≠ HUndef) items)
              end) (data m) h.

(** The keys of the object at [l]. *)
Definition keys_at (h : heap) (l : nat) : list string :=
  match h !! l with
  | Some c => (cell_entries c).*1
  | None => []
  end.

(** [DataFilter.prototype._applyBlacklist] *)
Definition _applyBlacklist (fuel : nat) (this : t) (h : heap) (data_ : hval)
  : option heap :=
  ms ← getDeepMatches fuel h data_ (keys_at h (blacklist this));
  Some (fold_left reindex_match ms (fold_left delete_match ms h)).

(** [v.data] *)
Definition get_data (h : heap) (v : hval) : result hval :=
  match v with
  | HUndef | HNull => Throw (TypeError "Cannot read property 'data' of undefined")
  | HRef l =>
      match h !! l with
      | Some (CObj fields) => Ok (default HUndef (obj_lookup "data" fields))
      | _ => Ok HUndef
      end
  | _ => Ok HUndef
  end.

(** [DataFilter.prototype.apply]: the heap when it returns and the value it
    returns.  [None] when [fuel] does not reach the depth of [dataCtx]. *)
Definition apply (fuel : nat) (this : t) (h : heap) (dataCtx : hval)
  : option (result (heap * hval)) :=
  '(h, dataCtxCopy) ← deepCopy fuel h dataCtx;
  match get_data h dataCtxCopy with
  | Throw e => Some (Throw e)
  | Ok data_ =>
      h ← _applyBlacklist fuel this h data_;
      Some (Ok (h, dataCtxCopy))
  end.

(** *** What a value in the heap stands for *)

(** [represents n h t v]: from [v], the heap [h] holds the tree [t], in
    cells at the locations [n] and above. *)
Fixpoint represents (n : nat) (h : heap) (t : value) (v : hval) {struct t} : Prop :=
  match t with
  | VUndef => v = HUndef
  | VNull => v = HNull
  | VBool b => v = HBool b
  | VNum z => v = HNum z
  | VStr s => v = HStr s
  | VProtoMember _ => False
  | VArr items props =>
      props = [] ∧
      ∃ l cs, v = HRef l ∧ (n ≤ l)%nat ∧ h !! l = Some (CArr cs) ∧
        (fix all (items : list value) (cs : list hval) : Prop :=
           match items, cs with
           | [], [] => True
           | t :: items, c :: cs => represents n h t c ∧ all items cs
           | _, _ => False
           end) items cs
  | VObj fields =>
      ∃ l cs, v = HRef l ∧ (n ≤ l)%nat ∧ h !! l = Some (CObj cs) ∧
        (fix all (fields : obj) (cs : list (string * hval)) : Prop :=
           match fields, cs with
           | [], [] => True
           | (k, t) :: fields, (k', c) :: cs => k = k' ∧ represents n h t c ∧ all fields cs
           | _, _ => False
           end) fields cs
  end.

(** The number of cells on the longest path of a tree. *)
Fixpoint depth (t : value) : nat :=
  match t with
  | VArr items _ => S (foldr (λ t d, depth t `max` d) 0 items)
  | VObj fields =>
      S ((fix all (fields : obj) : nat :=
            match fields with
            | [] => 0
            | (_, t) :: fields => depth t `max` all fields
            end) fields)
  | _ => 0
  end.

(** [copied_fields h fields cs h']: the values [cs] stand for the trees
    [fields], each in a block of cells of its own, the blocks following one
    another from the end of [h] to the end of [h']. *)
Fixpoint copied_fields (h : heap) (fields : obj) (cs : list (string * hval)) (h' : heap)
  : Prop :=
  match fields, cs with
  | [], [] => h' = h
  | (k, t) :: fields, (k', c) :: cs =>
      k = k' ∧ ∃ block, represents (length h) (h ++ block) t c
                        ∧ copied_fields (h ++ block) fields cs h'
  | _, _ => False
  end.

Fixpoint copied_items (h : heap) (items : list value) (cs : list hval) (h' : heap) : Prop :=
  match items, cs with
  | [], [] => h' = h
  | t :: items, c :: cs =>
      ∃ block, represents (length h) (h ++ block) t c
               ∧ copied_items (h ++ block) items cs h'
  | _, _ => False
  end.

(** What [deepCopy] does with a tree: with enough fuel it returns the tree
    again, in new cells at the end of the heap. *)
Definition copies (t : value) : Prop :=
  ∀ fuel n h v, represents n h t v → (depth t ≤ fuel)%nat →
    ∃ block v', deepCopy fuel h v = Some (h ++ block, v')
                ∧ represents (length h) (h ++ block) t v'.

(** The cells reached from a value along keys that are not in [names]:
    those [getDeepMatches] looks into. *)
Inductive visited (h : heap) (names : list string) : hval → nat → Prop :=
| visited_here (l : nat) (c : cell) :
    h !! l = Some c → visited h names (HRef l) l
| visited_under (l : nat) (c : cell) (k : string) (v : hval) (l' : nat) :
    h !! l = Some c → (k, v) ∈ cell_entries c → k ∉ names →
    visited h names v l' → visited h names (HRef l) l'.

(** The matches to be found from [v]: the keys of the visited cells that are
    in [names]. *)
Definition matches_of (h : heap) (names : list string) (v : hval) (ms : list deep_match)
  : Prop :=
  ∀ m, m ∈ ms ↔
       visited h names v (data m)
       ∧ ∃ c, h !! data m = Some c ∧ key m ∈ (cell_entries c).*1 ∧ key m ∈ names.

(** What [getDeepMatches] does with a tree: with enough fuel it returns
    the matches to be found. *)
Definition scans (names : list string) (t : value) : Prop :=
  ∀ fuel n h v, represents n h t v → (depth t ≤ fuel)%nat →
    ∃ ms, getDeepMatches fuel h v names = Some ms ∧ matches_of h names v ms.

(** The keys of the matches at the cell [l]. *)
Definition keys_matched (ms : list deep_match) (l : nat) : list string :=
  key <$> filter (λ m, data m = l) ms.

(** A cell after [delete] of the keys [ks]. *)
Definition delete_keys (ks : list string) (c : cell) : cell :=
  match c with
  | CObj fields => CObj (filter (λ kv, kv.1 ∉ ks) fields)
  | CArr items => CArr (imap (λ i x, if decide (pretty i ∈ ks) then HUndef else x) items)
  end.

(** A cell after the loop that splices the [undefined] elements out. *)
Definition reindex (c : cell) : cell :=
  match c with
  | CObj fields => CObj fields
  | CArr items => CArr (filter (λ x, x ≠ HUndef) items)
  end.

(** What [_applyBlacklist] makes of a cell it visits. *)
Definition prune_cell (names : list string) (c : cell) : cell :=
  if bool_decide (Exists (λ k, k ∈ names) (cell_entries c).*1)
  then reindex (delete_keys names c)
  else c.

Definition is_undefined (t : value) : bool :=
  match t with
  | VUndef => true
  | _ => false
  end.

(** The tree a filtered copy stands for: at every depth, an object loses the
    properties named in [names], and an array with an index named in
    [names] loses that element and every element that is [undefined]. *)
Fixpoint prune (names : list string) (t : value) {struct t} : value :=
  match t with
  | VObj fields =>
      VObj ((fix all (fields : obj) : obj :=
               match fields with
               | [] => []
               | (k, t) :: fields =>
                   if decide (k ∈ names) then all fields
                   else (k, prune names t) :: all fields
               end) fields)
  | VArr items props =>
      let items' :=
        (fix all (i : nat) (items : list value) : list value :=
           match items with
           | [] => []
           | t :: items =>
               (if decide (pretty i ∈ names) then VUndef else prune names t)
                 :: all (S i) items
           end) 0 items in
      if bool_decide (Exists (λ k, k ∈ names) (indexed items).*1)
      then VArr (filter (λ t, is_undefined t = false) items') props
      else VArr items' props
  | _ => t
  end.

(** What pruning the cells does to a tree: when [h3] holds the pruned cell
    for every cell of [h] visited from a value, the value stands for the
    pruned tree in [h3]. *)
Definition prunes (names : list string) (n : nat) (h h3 : heap) (t : value) : Prop :=
  ∀ v, represents n h t v →
    (∀ l c, visited h names v l → h !! l = Some c →
            h3 !! l = Some (prune_cell names c)) →
    represents n h3 (prune names t) v.

(** The tree [apply] returns for the data context [t]: [t.data] is pruned. *)
Definition filtered (names : list string) (t : value) : value :=
  match t with
  | VObj fields =>
      match obj_lookup "data" fields with
      | Some d => VObj (obj_set "data" (prune names d) fields)
      | None => t
      end
  | _ => t
  end.

End DataFilter.

(** * The disk usage summary

    The module that follows [systemStats.js] in the source exports one
    function: from a request that holds normalized data it makes a promise
    of one event for every entry of [data.diskStorage]. *)

(** The object literal [template]; [data] is read member by member. *)
Definition disk_usage_template (data_ : value) : result obj :=
  time ← get_member data_ "timestamp";
  host ← get_member data_ "hostname";
  index ← get_member data_ "rbac_system_index";
  aggr_period ← get_member data_ "aggregationPeriod";
  device_base_mac ← get_member data_ "baseMac";
  devicegroup ← get_member data_ "deviceGroup";
  facility ← get_member data_ "facility";
  Ok [("time", time); ("host", host); ("index", index);
      ("source", VStr "bigip.tmsh.disk_usage");
      ("sourcetype", VStr "f5:bigip:status:iapp:json");
      ("event", VObj [("aggr_period", aggr_period);
                      ("device_base_mac", device_base_mac);
                      ("devicegroup", devicegroup);
                      ("facility", facility)])].

(** The callback of [Object.keys(diskStorage).map]: [newData] for the entry
    [diskStorage[key]].  [newData.event] is a new object, so [template.event]
    is only read. *)
Definition disk_usage_event (template : obj) (entry : value) : obj :=
  let newData := obj_assign [] template in
  let event := obj_assign [] (own_entries entry) in
  let event := obj_assign event (own_entries (obj_get "event" template)) in
  obj_set "event" (VObj event) newData.

(** How the promise the function returns settles.  An exception in the
    executor rejects it; the executor that returns without a call of
    [resolve] leaves it pending for ever. *)
Definition disk_usage_summary (request : value) : settlement value :=
  match
    (data_ ← get_member request "data";
     diskStorage ← get_member data_ "diskStorage";
     match diskStorage with
     | VUndef => Ok None
     | _ =>
         template ← disk_usage_template data_;
         entries ← object_entries diskStorage;
         Ok (Some (VArr ((λ kv, VObj (disk_usage_event template kv.2)) <$> entries) []))
     end)
  with
  | Throw e => Rejected e
  | Ok None => Pending
  | Ok (Some events) => Resolved events
  end.

(** * A configuration to run the definitions on *)

Definition sample_ToString (v : value) : string :=
  match v with
  | VUndef => "undefined"
  | VNull => "null"
  | VBool true => "true"
  | VBool false => "false"
  | VNum n => pretty n
  | VStr s => s
  | _ => "[object Object]"
  end.

Definition sample_exn_to_string (e : exn) : string :=
  match e with
  | Error msg => "Error: " +:+ msg
  | TypeError msg => "TypeError: " +:+ msg
  | Rejection reason => sample_ToString reason
  end.

(** The loader of the sample: the endpoint [down] fails, every other
    endpoint answers with its own name. *)
Definition sample_response (endpoint : string) (keyArgs : value) : value * value :=
  if decide (endpoint = "down") then (VUndef, VStr "unreachable")
  else (VObj [("data", VObj [("endpoint", VStr endpoint)])], VUndef).

Definition sample (context_ : value) (stats_ : obj) : Collaborators := {|
  compareVersionStrings := λ _ _ _, Ok true;
  ToString := sample_ToString;
  exn_to_string := sample_exn_to_string;
  mustache_render := λ template _, Ok template;
  normalize_data := λ data_ _, Ok data_;
  STATS_KEY_SEP := "::";
  loader_auth := Ok ();
  loader_response := sample_response;
  stats := stats_;
  context := context_;
  properties_definitions := VObj [];
  global_filterKeys := VObj [];
  global_renameKeys := VObj [];
  global_formatTimestamps_keys := VArr [] [];
  global_addKeysByTag := VObj []
|}.

(** A stats document with a folder, a property nested under it, and a
    property nested under that one. *)
Definition sample_nested : obj :=
  [("interfaces", VObj [("key", VStr "net::interfaces");
                        ("structure", VObj [("parentKey", VStr "network")])]);
   ("network", VObj [("key", VStr "net");
                     ("structure", VObj [("parentKey", VStr "system")])]);
   ("system", VObj [("structure", VObj [("folder", VBool true)])])].

(** A stats document with a folder, a property under it, a disabled
    property and a property whose endpoint is down. *)
Definition sample_stats : obj :=
  [("system", VObj [("structure", VObj [("folder", VBool true)])]);
   ("hostname", VObj [("key", VStr "deviceInfo::hostname");
                      ("structure", VObj [("parentKey", VStr "system")])]);
   ("asmState", VObj [("key", VStr "asm"); ("disabled", VBool true)])].

Definition sample_failing : obj :=
  [("pools", VObj [("key", VStr "down")])].

(** A context in two phases: the second reads what the first loads. *)
Definition sample_phases : value :=
  VArr [VObj [("deviceVersion", VObj [("key", VStr "deviceInfo")])];
        VObj [("provisioning",
               VObj [("if", VObj [("deviceVersionGreaterOrEqual", VStr "13.0")]);
                     ("then", VObj [("key", VStr "provision")])])]] [].

(** A heap with the data context [{ data: { tmstats: {...}, system: {...} },
    type: 'systemInfo' }] at location 3. *)
Definition sample_heap : DataFilter.heap :=
  [ DataFilter.CObj [("cpu", DataFilter.HNum 7)];
    DataFilter.CObj [("hostname", DataFilter.HStr "bigip1")];
    DataFilter.CObj [("tmstats", DataFilter.HRef 0); ("system", DataFilter.HRef 1)];
    DataFilter.CObj [("data", DataFilter.HRef 2); ("type", DataFilter.HStr "systemInfo")] ].

Definition sample_dataCtx : obj :=
  [("data", VObj [("tmstats", VObj [("cpu", VNum 7)]);
                  ("system", VObj [("hostname", VStr "bigip1")])]);
   ("type", VStr "systemInfo")].

(** The sample with a loader whose authentication fails. *)
Definition sample_unauthorized (stats_ : obj) : Collaborators := {|
  compareVersionStrings := λ _ _ _, Ok true;
  ToString := sample_ToString;
  exn_to_string := sample_exn_to_string;
  mustache_render := λ template _, Ok template;
  normalize_data := λ data_ _, Ok data_;
  STATS_KEY_SEP := "::";
  loader_auth := Throw (Rejection (VStr "401 Unauthorized"));
  loader_response := sample_response;
  stats := stats_;
  context := VObj [];
  properties_definitions := VObj [];
  global_filterKeys := VObj [];
  global_renameKeys := VObj [];
  global_formatTimestamps_keys := VArr [] [];
  global_addKeysByTag := VObj []
|}.

(** A request for the disk usage summary, with two file systems. *)
Definition sample_request : value :=
  VObj [("data",
         VObj [("hostname", VStr "bigip1"); ("facility", VStr "myFacility");
               ("diskStorage",
                VObj [("/", VObj [("Capacity", VStr "55%"); ("facility", VStr "own")]);
                      ("/var", VObj [("Capacity", VStr "8%")])])])].

(** * Properties *)

(** ** Sequencing *)

Lemma bind_Ok {A B} (r : result A) (k : A → result B) (b : B) :
  r ≫= k = Ok b ↔ ∃ a, r = Ok a ∧ k a = Ok b.
Proof.
  destruct r as [a|e]; simpl; split.
  - eauto.
  - intros (a' & [= <-] & Hk). exact Hk.
  - discriminate.
  - intros (a' & [=] & _).
Qed.

Lemma bind_Throw {A B} (r : result A) (k : A → result B) (e : exn) :
  r ≫= k = Throw e ↔ r = Throw e ∨ ∃ a, r = Ok a ∧ k a = Throw e.
Proof.
  destruct r as [a|e']; simpl; split.
  - eauto.
  - intros [[=]|(a' & [= <-] & Hk)]. exact Hk.
  - intros [= <-]. by left.
  - intros [[= ->]|(a' & [=] & _)]. done.
Qed.

Lemma bind_Ok_l {A B} (a : A) (k : A → result B) : Ok a ≫= k = k a.
Proof. reflexivity. Qed.

Section ConditionalFacts.
Context `{Collaborators}.

Lemma registered_func (key_ : string) :
  registered key_ →
  CONDITIONAL_FUNCS key_ = Some FDeviceVersionGreaterOrEqual
  ∨ CONDITIONAL_FUNCS key_ = Some FIsModuleProvisioned.
Proof. intros [-> | ->]; [left|right]; reflexivity. Qed.

Lemma registered_returns_boolean (key_ : string) (contextData : obj) (arg v : value) :
  registered key_ → apply_predicate key_ contextData arg = Ok v → ∃ b, v = VBool b.
Proof.
  intros Hreg. unfold apply_predicate.
  destruct (registered_func _ Hreg) as [-> | ->]; simpl.
  - unfold deviceVersionGreaterOrEqual.
    destruct (obj_get "deviceVersion" contextData); try discriminate;
      intros (r & _ & [= <-])%bind_Ok; eauto.
  - unfold isModuleProvisioned.
    destruct (obj_get "provisioning" contextData); try discriminate;
      intros (r & _ & [= <-])%bind_Ok; eauto.
Qed.

Lemma resolve_step_registered (contextData : obj) (ret : value) (invoked : list string)
    (key_ : string) (arg : value) :
  registered key_ →
  resolve_step contextData (ret, invoked) (key_, arg) =
    if truthy ret
    then r ← apply_predicate key_ contextData arg; Ok (r, invoked ++ [key_])
    else Ok (ret, invoked).
Proof.
  intros Hreg. unfold resolve_step, apply_predicate.
  destruct (registered_func _ Hreg) as [-> | ->]; reflexivity.
Qed.

Lemma resolve_entries_cons (contextData : obj) (st : value * list string)
    (entry : string * value) (rest : obj) :
  resolve_entries contextData st (entry :: rest)
  = (st' ← resolve_step contextData st entry; resolve_entries contextData st' rest).
Proof. reflexivity. Qed.

Lemma obj_keys_cons (k : string) (v : value) (rest : obj) :
  obj_keys ((k, v) :: rest) = k :: obj_keys rest.
Proof. reflexivity. Qed.

(** Once [ret] is false, the remaining registered keys change nothing. *)
Lemma resolve_entries_false (contextData : obj) (invoked : list string) (entries : obj) :
  Forall registered (obj_keys entries) →
  resolve_entries contextData (VBool false, invoked) entries = Ok (VBool false, invoked).
Proof.
  induction entries as [|[k a] rest IH]; [done|].
  rewrite obj_keys_cons, resolve_entries_cons. intros [Hk Hrest]%Forall_cons.
  rewrite resolve_step_registered by done. simpl. auto.
Qed.

Lemma resolve_entries_all (contextData : obj) (invoked : list string) (entries : obj) :
  Forall (holds contextData) entries →
  Forall registered (obj_keys entries) →
  resolve_entries contextData (VBool true, invoked) entries
  = Ok (VBool true, invoked ++ obj_keys entries).
Proof.
  revert invoked. induction entries as [|[k a] rest IH]; intros invoked Hall Hreg.
  - simpl. by rewrite app_nil_r.
  - rewrite obj_keys_cons in *. rewrite resolve_entries_cons.
    apply Forall_cons in Hall as [Hk Hall]. apply Forall_cons in Hreg as [Hrk Hreg].
    rewrite resolve_step_registered by done. simpl.
    unfold holds in Hk. simpl in Hk. rewrite Hk. simpl.
    rewrite IH by done. by rewrite <- app_assoc.
Qed.

Lemma resolve_entries_true_inv (contextData : obj) (invoked invoked' : list string)
    (entries : obj) :
  Forall registered (obj_keys entries) →
  resolve_entries contextData (VBool true, invoked) entries = Ok (VBool true, invoked') →
  Forall (holds contextData) entries.
Proof.
  revert invoked. induction entries as [|[k a] rest IH]; intros invoked Hreg Hres.
  - constructor.
  - rewrite obj_keys_cons in Hreg. rewrite resolve_entries_cons in Hres.
    apply Forall_cons in Hreg as [Hrk Hreg].
    rewrite resolve_step_registered in Hres by done. simpl in Hres.
    destruct (apply_predicate k contextData a) as [v|e] eqn:Hp; simpl in Hres; [|done].
    destruct (registered_returns_boolean _ _ _ _ Hrk Hp) as [[|] ->].
    + constructor; [exact Hp | by eapply IH].
    + rewrite resolve_entries_false in Hres by done. discriminate.
Qed.

Lemma resolve_entries_app (contextData : obj) (st : value * list string) (xs ys : obj) :
  resolve_entries contextData st (xs ++ ys)
  = (st' ← resolve_entries contextData st xs; resolve_entries contextData st' ys).
Proof.
  revert st. induction xs as [|x xs IH]; intros st; [done|].
  rewrite <- app_comm_cons, !resolve_entries_cons.
  destruct (resolve_step contextData st x); simpl; auto.
Qed.

(** C10: for a conditional block whose keys all name registered predicates,
    [_resolveConditional] returns [true] exactly when every predicate of the
    block returns [true] on the context; and when the predicates before some
    key return [true] and the predicate of that key returns [false], the
    result is [false] and the predicates invoked are those up to that key:
    the predicates of the remaining keys are not invoked, whatever they
    would do. *)
Theorem resolveConditional_conjunction (contextData : obj) (conditionalBlock : value) :
  Forall registered (obj_keys (own_entries conditionalBlock)) →
  (_resolveConditional contextData conditionalBlock = Ok (VBool true)
   ↔ Forall (holds contextData) (own_entries conditionalBlock))
  ∧ (∀ (before : obj) (key_ : string) (arg : value) (after : obj),
       own_entries conditionalBlock = before ++ (key_, arg) :: after →
       Forall (holds contextData) before →
       apply_predicate key_ contextData arg = Ok (VBool false) →
       _resolveConditional_traced contextData conditionalBlock
       = Ok (VBool false, obj_keys before ++ [key_])).
Proof.
  intros Hreg. unfold _resolveConditional, _resolveConditional_traced. split; [split|].
  - intros ([ret invoked] & Hres & [= ->])%bind_Ok.
    by eapply resolve_entries_true_inv.
  - intros Hall. by rewrite resolve_entries_all.
  - intros before key_ arg after Hblock Hbefore Hkey.
    rewrite Hblock in *. unfold obj_keys in Hreg. rewrite fmap_app, fmap_cons in Hreg.
    apply Forall_app in Hreg as [Hrb Hra]. apply Forall_cons in Hra as [Hrk Hra].
    rewrite resolve_entries_app, resolve_entries_all, bind_Ok_l by done.
    rewrite resolve_entries_cons, resolve_step_registered by done.
    cbn [truthy]. rewrite Hkey, !bind_Ok_l. by rewrite resolve_entries_false.
Qed.

(** C3: [toString] is no registered predicate, and a conditional block with
    the key [toString] is evaluated without an error, to a truthy value. *)
Theorem resolveConditional_inherited_name (contextData : obj) (arg : value) :
  ¬ registered "toString"
  ∧ _resolveConditional contextData (VObj [("toString", arg)])
    = Ok (VStr "[object Undefined]").
Proof. split; [by intros [|]|reflexivity]. Qed.

(** A name that is neither registered nor inherited raises the error that
    names it, once the keys before it have been evaluated. *)
Lemma resolveConditional_unknown_key (contextData : obj) (before after : obj)
    (key_ : string) (arg : value) (st : value * list string) :
  CONDITIONAL_FUNCS key_ = None →
  resolve_entries contextData (VBool true, []) before = Ok st →
  _resolveConditional contextData (VObj (before ++ (key_, arg) :: after))
  = Throw (Error ("Unknown property in conditional block " +:+ key_)).
Proof.
  intros Hnone Hbefore. unfold _resolveConditional, _resolveConditional_traced. simpl.
  rewrite resolve_entries_app, Hbefore, bind_Ok_l.
  rewrite resolve_entries_cons. unfold resolve_step. destruct st. by rewrite Hnone.
Qed.

End ConditionalFacts.

Lemma resolveConditional_conjunction_witness :
  let H := sample (VObj []) [] in
  let contextData : obj := [("provisioning", VObj [("ltm", VObj [("level", VStr "nominal")])])] in
  _resolveConditional_traced contextData
    (VObj [("isModuleProvisioned", VStr "ltm"); ("isModuleProvisioned", VStr "asm");
           ("deviceVersionGreaterOrEqual", VStr "13.0")])
  = Ok (VBool false, ["isModuleProvisioned"; "isModuleProvisioned"]).
Proof.
  intros H contextData.
  refine (proj2 (resolveConditional_conjunction contextData (VObj _) _)
            [("isModuleProvisioned", VStr "ltm")] "isModuleProvisioned" (VStr "asm")
            [("deviceVersionGreaterOrEqual", VStr "13.0")] eq_refl _ eq_refl).
  - repeat (apply Forall_cons; split); try apply Forall_nil_2;
      [right | right | left]; reflexivity.
  - repeat (apply Forall_cons; split); try apply Forall_nil_2. reflexivity.
Defined.

(** ** Induction on values *)

Section ValueInduction.
Variable P : value → Prop.
Hypothesis Hundef : P VUndef.
Hypothesis Hnull : P VNull.
Hypothesis Hbool : ∀ b, P (VBool b).
Hypothesis Hnum : ∀ n, P (VNum n).
Hypothesis Hstr : ∀ s, P (VStr s).
Hypothesis Hproto : ∀ name, P (VProtoMember name).
Hypothesis Harr : ∀ items props,
  Forall P items → Forall (λ kv, P kv.2) props → P (VArr items props).
Hypothesis Hobj : ∀ fields, Forall (λ kv, P kv.2) fields → P (VObj fields).

Fixpoint value_nested_ind (v : value) : P v :=
  match v with
  | VUndef => Hundef
  | VNull => Hnull
  | VBool b => Hbool b
  | VNum n => Hnum n
  | VStr s => Hstr s
  | VProtoMember name => Hproto name
  | VArr items props =>
      Harr items props
        ((fix all (l : list value) : Forall P l :=
            match l with
            | [] => Forall_nil_2 P
            | x :: l => Forall_cons_2 P x l (value_nested_ind x) (all l)
            end) items)
        ((fix all (l : obj) : Forall (λ kv, P kv.2) l :=
            match l with
            | [] => Forall_nil_2 _
            | kv :: l => Forall_cons_2 (λ kv, P kv.2) kv l (value_nested_ind kv.2) (all l)
            end) props)
  | VObj fields =>
      Hobj fields
        ((fix all (l : obj) : Forall (λ kv, P kv.2) l :=
            match l with
            | [] => Forall_nil_2 _
            | kv :: l => Forall_cons_2 (λ kv, P kv.2) kv l (value_nested_ind kv.2) (all l)
            end) fields)
  end.
End ValueInduction.

(** ** Objects *)

Lemma obj_keys_set (k : string) (v : value) (o : obj) (k' : string) :
  k' ∈ obj_keys (obj_set k v o) ↔ k' = k ∨ k' ∈ obj_keys o.
Proof.
  unfold obj_keys. induction o as [|[k0 v0] o IH]; simpl.
  - rewrite list_elem_of_singleton, elem_of_nil. tauto.
  - destruct (decide (k0 = k)) as [->|Hne]; simpl; rewrite !elem_of_cons.
    + tauto.
    + rewrite IH. tauto.
Qed.

Lemma obj_lookup_elem_of {A} (k : string) (o : list (string * A)) (v : A) :
  obj_lookup k o = Some v → (k, v) ∈ o.
Proof.
  induction o as [|[k0 v0] o IH]; simpl; [done|].
  destruct (decide (k0 = k)) as [->|Hne].
  - intros [= ->]. left.
  - intros Hl. right. auto.
Qed.

Lemma obj_lookup_None {A} (k : string) (o : list (string * A)) :
  obj_lookup k o = None ↔ k ∉ o.*1.
Proof.
  induction o as [|[k0 v0] o IH]; simpl.
  - split; [intros _; apply not_elem_of_nil | done].
  - rewrite not_elem_of_cons. destruct (decide (k0 = k)) as [->|Hne].
    + split; [done|]. by intros [? _].
    + rewrite IH. split; [by split|]. by intros [_ ?].
Qed.

Lemma deepCopy_value (v : value) : deepCopy v = v.
Proof. reflexivity. Qed.

Section PreprocessFacts.
Context `{Collaborators}.

Lemma copy_unconditional_keys (property : value) (newObj : obj) :
  unconditional newObj → unconditional (copy_unconditional property newObj).
Proof.
  unfold copy_unconditional. generalize (own_entries property). intros entries.
  revert newObj. induction entries as [|[k v] entries IH]; intros newObj Hacc; [done|].
  simpl. apply IH. destruct (is_conditional_key k) eqn:Hk; [done|].
  unfold unconditional. apply Forall_forall. intros k' [->|Hin]%obj_keys_set; [done|].
  unfold unconditional in Hacc. rewrite Forall_forall in Hacc. auto.
Qed.

(** The loop, one turn unfolded, as the source has it. *)
Lemma resolve_loop_object (contextData : obj) (newObj : obj) (fields : obj) :
  resolve_loop contextData newObj (VObj fields)
  = let newObj' := copy_unconditional (VObj fields) newObj in
    if truthy (obj_get "if" fields) then
      r ← _resolveConditional contextData (obj_get "if" fields);
      resolve_loop contextData newObj'
        (obj_get (if truthy r then "then" else "else") fields)
    else Ok newObj'.
Proof.
  cbn [resolve_loop truthy]. cbv zeta.
  destruct (truthy (obj_get "if" fields)); [|done].
  destruct (_resolveConditional contextData (obj_get "if" fields)) as [r|e]; [|done].
  rewrite !bind_Ok_l.
  set (branch := if truthy r then "then" else "else").
  assert (Hbranch : branch ∉ object_prototype_names).
  { subst branch. destruct (truthy r); by eapply bool_decide_unpack; vm_compute. }
  generalize (copy_unconditional (VObj fields) newObj). intros newObj'.
  unfold obj_get. induction fields as [|[k v] fields IH]; simpl.
  - rewrite decide_False by done. done.
  - destruct (decide (k = branch)); [done|]. apply IH.
Qed.

Lemma resolve_loop_falsy (contextData : obj) (newObj : obj) (property : value) :
  truthy property = false → resolve_loop contextData newObj property = Ok newObj.
Proof. destruct property; simpl; try done; intros ->; done. Qed.

Lemma resolve_loop_not_object (contextData : obj) (newObj : obj) (property : value) :
  (∀ fields, property ≠ VObj fields) →
  resolve_loop contextData newObj property
  = Ok (if truthy property then copy_unconditional property newObj else newObj).
Proof. destruct property; simpl; try done; [by destruct b|by destruct (n =? 0)%Z|by destruct (bool_decide _)|]. intros Hf. by destruct (Hf fields). Qed.

(** The loop ends: with the error of a conditional block, or with an object
    that has no [if], [then] or [else]. *)
Lemma resolve_loop_total (contextData : obj) (property : value) :
  ∀ newObj, unconditional newObj →
    match resolve_loop contextData newObj property with
    | Ok newObj' => unconditional newObj'
    | Throw e => ∃ block, _resolveConditional contextData block = Throw e
    end.
Proof.
  induction property as [| | | | | |items props _ _|fields IH] using value_nested_ind;
    intros newObj Hacc;
    try (rewrite resolve_loop_not_object by done;
         destruct (truthy _); auto using copy_unconditional_keys).
  rewrite resolve_loop_object. cbv zeta.
  destruct (truthy (obj_get "if" fields)); [|by apply copy_unconditional_keys].
  destruct (_resolveConditional contextData (obj_get "if" fields)) as [r|e] eqn:Hr;
    [rewrite bind_Ok_l|by exists (obj_get "if" fields)].
  generalize (if truthy r then "then" else "else"). intros branch.
  pose proof (copy_unconditional_keys (VObj fields) newObj Hacc) as Hacc'.
  unfold obj_get. destruct (obj_lookup branch fields) as [v|] eqn:Hl.
  - apply obj_lookup_elem_of in Hl. rewrite Forall_forall in IH.
    by apply (IH _ Hl).
  - destruct (decide _); by rewrite resolve_loop_not_object.
Qed.

(** The loop computes the resolution of the specification, or ends with the
    error of a conditional block of the property. *)
Lemma resolve_loop_flattens (contextData : obj) (property : value) :
  ∀ newObj, unconditional newObj →
    match resolve_loop contextData newObj property with
    | Ok newObj' => flattens contextData newObj property newObj' ∧ unconditional newObj'
    | Throw e => ∃ block, block_of property block
                          ∧ _resolveConditional contextData block = Throw e
    end.
Proof.
  induction property as [| |b|z|s|name|items props _ _|fields IH] using value_nested_ind;
    intros newObj Hacc;
    try (rewrite resolve_loop_not_object by done;
         destruct (truthy _) eqn:Htruthy;
         (split; [by constructor|auto using copy_unconditional_keys])).
  rewrite resolve_loop_object. cbv zeta.
  destruct (truthy (obj_get "if" fields)) eqn:Hif.
  2: { split; [|by apply copy_unconditional_keys].
       apply flattens_plain; [done|]. by intros fields' [= <-]. }
  destruct (_resolveConditional contextData (obj_get "if" fields)) as [r|e] eqn:Hr.
  2: { exists (obj_get "if" fields). split; [by constructor|done]. }
  rewrite bind_Ok_l.
  pose proof (copy_unconditional_keys (VObj fields) newObj Hacc) as Hacc'.
  assert (Hstep : ∀ branch,
            branch ∉ object_prototype_names →
            match resolve_loop contextData (copy_unconditional (VObj fields) newObj)
                    (obj_get branch fields) with
            | Ok newObj' =>
                flattens contextData (copy_unconditional (VObj fields) newObj)
                  (obj_get branch fields) newObj'
                ∧ unconditional newObj'
            | Throw e => ∃ block, block_of (obj_get branch fields) block
                                  ∧ _resolveConditional contextData block = Throw e
            end).
  { intros branch Hbranch. unfold obj_get.
    destruct (obj_lookup branch fields) as [v|] eqn:Hl.
    - apply obj_lookup_elem_of in Hl. rewrite Forall_forall in IH.
      by apply (IH _ Hl).
    - rewrite decide_False by done. rewrite resolve_loop_falsy by done.
      split; [by constructor|done]. }
  destruct (truthy r) eqn:Htruthy.
  - specialize (Hstep "then"). 
    destruct (resolve_loop _ _ (obj_get "then" fields)) as [newObj'|e].
    + destruct Hstep as [Hflat Hun]; [by eapply bool_decide_unpack; vm_compute|].
      split; [|done]. eapply flattens_branch; [done|exact Hr|]. by rewrite Htruthy.
    + destruct Hstep as (block & Hblock & He); [by eapply bool_decide_unpack; vm_compute|].
      exists block. split; [by apply block_then|done].
  - specialize (Hstep "else").
    destruct (resolve_loop _ _ (obj_get "else" fields)) as [newObj'|e].
    + destruct Hstep as [Hflat Hun]; [by eapply bool_decide_unpack; vm_compute|].
      split; [|done]. eapply flattens_branch; [done|exact Hr|]. by rewrite Htruthy.
    + destruct Hstep as (block & Hblock & He); [by eapply bool_decide_unpack; vm_compute|].
      exists block. split; [by apply block_else|done].
Qed.

(** C4: resolving a conditional property ends.  It ends with the error
    raised by one of the conditional blocks of the property, or it returns
    the flattened property, an object that has no [if], [then] or [else]; so
    a property whose blocks all evaluate is resolved.  When the branch the
    block of the property selects is absent (or falsy), the result holds
    exactly the fields of the property other than [if], [then] and [else];
    and at any level of the loop such a branch ends it with exactly the
    fields accumulated so far. *)
Theorem preprocessProperty_conditional (contextData fields : obj) :
  truthy (obj_get "if" fields) = true →
  ((∃ e block, _preprocessProperty contextData (VObj fields) = Throw e
               ∧ block_of (VObj fields) block
               ∧ _resolveConditional contextData block = Throw e)
   ∨ (∃ newObj, _preprocessProperty contextData (VObj fields) = Ok (VObj newObj)
                ∧ flattens contextData [] (VObj fields) newObj
                ∧ unconditional newObj))
  ∧ ((∀ block, block_of (VObj fields) block →
               ∃ r, _resolveConditional contextData block = Ok r) →
     ∃ newObj, _preprocessProperty contextData (VObj fields) = Ok (VObj newObj)
               ∧ flattens contextData [] (VObj fields) newObj
               ∧ unconditional newObj)
  ∧ (∀ r, _resolveConditional contextData (obj_get "if" fields) = Ok r →
          truthy (obj_get (if truthy r then "then" else "else") fields) = false →
          _preprocessProperty contextData (VObj fields)
          = Ok (VObj (copy_unconditional (VObj fields) [])))
  ∧ (∀ (accumulated level : obj) (r : value),
       truthy (obj_get "if" level) = true →
       _resolveConditional contextData (obj_get "if" level) = Ok r →
       truthy (obj_get (if truthy r then "then" else "else") level) = false →
       resolve_loop contextData accumulated (VObj level)
       = Ok (copy_unconditional (VObj level) accumulated)).
Proof.
  intros Hif.
  assert (Hloop : ∀ (accumulated level : obj) (r : value),
            truthy (obj_get "if" level) = true →
            _resolveConditional contextData (obj_get "if" level) = Ok r →
            truthy (obj_get (if truthy r then "then" else "else") level) = false →
            resolve_loop contextData accumulated (VObj level)
            = Ok (copy_unconditional (VObj level) accumulated)).
  { intros accumulated level r Htruthy Hr Hfalsy.
    rewrite resolve_loop_object. cbv zeta.
    rewrite Htruthy, Hr, bind_Ok_l. by apply resolve_loop_falsy. }
  assert (Hpre : _preprocessProperty contextData (VObj fields)
                 = (newObj ← resolve_loop contextData [] (VObj fields); Ok (VObj newObj))).
  { unfold _preprocessProperty. cbn [get_member]. by rewrite bind_Ok_l, Hif. }
  pose proof (resolve_loop_flattens contextData (VObj fields) [] (Forall_nil_2 _)) as Hflat.
  assert (Hends : (∃ e block, _preprocessProperty contextData (VObj fields) = Throw e
                     ∧ block_of (VObj fields) block
                     ∧ _resolveConditional contextData block = Throw e)
                  ∨ (∃ newObj, _preprocessProperty contextData (VObj fields) = Ok (VObj newObj)
                       ∧ flattens contextData [] (VObj fields) newObj
                       ∧ unconditional newObj)).
  { rewrite Hpre. destruct (resolve_loop contextData [] (VObj fields)) as [newObj|e].
    - right. exists newObj. by rewrite bind_Ok_l.
    - left. destruct Hflat as (block & Hblock & He). by exists e, block. }
  split; [exact Hends|]. split; [|split; [|exact Hloop]].
  - intros Hall. destruct Hends as [(e & block & _ & Hblock & He)|Hok]; [|done].
    destruct (Hall block Hblock) as [r Hr]. congruence.
  - intros r Hr Hfalsy. by rewrite Hpre, (Hloop [] fields r Hif Hr Hfalsy), bind_Ok_l.
Qed.

End PreprocessFacts.

Lemma preprocessProperty_conditional_witness :
  let H := sample (VObj []) [] in
  _preprocessProperty [("deviceVersion", VStr "14.1")]
    (VObj [("if", VObj [("deviceVersionGreaterOrEqual", VStr "13.0")]);
           ("keyArgs", VNum 1); ("else", VObj [("key", VStr "b")])])
  = Ok (VObj [("keyArgs", VNum 1)]).
Proof.
  intros H.
  refine (eq_trans
            (proj1 (proj2 (proj2
               (@preprocessProperty_conditional H [("deviceVersion", VStr "14.1")]
                  [("if", VObj [("deviceVersionGreaterOrEqual", VStr "13.0")]);
                   ("keyArgs", VNum 1); ("else", VObj [("key", VStr "b")])] _)))
               (VBool true) _ _) _).
  - vm_compute. reflexivity.
  - vm_compute. reflexivity.
  - vm_compute. reflexivity.
  - vm_compute. reflexivity.
Defined.

(** C4, as stated, fails: a conditional block that reads a field the context
    lacks raises, and no property is returned. *)
Lemma preprocessProperty_may_throw :
  let H := sample (VObj []) [] in
  ¬ ∃ property,
      _preprocessProperty []
        (VObj [("if", VObj [("deviceVersionGreaterOrEqual", VStr "13.0")]);
               ("then", VObj [("key", VStr "sysinfo")])])
      = Ok property.
Proof. intros H [property Hp]. vm_compute in Hp. discriminate. Qed.

Lemma obj_lookup_obj_set (k k' : string) (v : value) (o : obj) :
  obj_lookup k' (obj_set k v o) = if decide (k = k') then Some v else obj_lookup k' o.
Proof.
  induction o as [|[k0 v0] o IH]; simpl.
  - done.
  - destruct (decide (k0 = k)) as [->|Hne]; simpl.
    + by destruct (decide (k = k')).
    + rewrite IH. destruct (decide (k0 = k')) as [->|]; [|done].
      by rewrite decide_False by done.
Qed.

(** [Object.assign]: the source wins. *)
Lemma obj_lookup_assign (k : string) (target source : obj) :
  NoDup (obj_keys source) →
  obj_lookup k (obj_assign target source)
  = match obj_lookup k source with
    | Some v => Some v
    | None => obj_lookup k target
    end.
Proof.
  unfold obj_assign. revert target.
  induction source as [|[k0 v0] source IH]; intros target Hnd; [done|].
  unfold obj_keys in Hnd. rewrite fmap_cons in Hnd. apply NoDup_cons in Hnd as [Hnotin Hnd].
  cbn [fold_left fst snd obj_lookup] in *. rewrite IH by done.
  rewrite obj_lookup_obj_set.
  destruct (decide (k0 = k)) as [->|Hne]; [|done].
  apply obj_lookup_None in Hnotin. by rewrite Hnotin.
Qed.

Section TagFacts.
Context `{Collaborators}.

(** C8: the tag set handed to normalization.  For a property whose
    [addKeysByTag] is truthy it is the default [name] tag merged with the
    caller's tags, the caller's winning; for any other property it is the
    default [name] tag alone.  The options of the tag injection are the
    property's [addKeysByTag] when that is an object and the global ones
    otherwise.  Unless the property sets [normalize] to [false], these are
    the options [normalize.data] is called with. *)
Theorem processData_tag_set (this_tags property data_ : value) (key_ : string)
    (options : normalize_options) (p_tags p_normalize : value) :
  NoDup (obj_keys (own_entries this_tags)) →
  processData_options this_tags property key_ = Ok options →
  get_member property "addKeysByTag" = Ok p_tags →
  get_member property "normalize" = Ok p_normalize →
  (if truthy p_tags
   then ∀ name, obj_lookup name (tags (addKeysByTag options))
                = match obj_lookup name (own_entries this_tags) with
                  | Some tag => Some tag
                  | None => obj_lookup name defaultTags
                  end
   else tags (addKeysByTag options) = defaultTags)
  ∧ opts (addKeysByTag options)
    = (if truthy p_tags && is_object p_tags then p_tags else global_addKeysByTag)
  ∧ (is_false p_normalize = false →
     _processData this_tags property data_ key_ = normalize_data data_ options).
Proof.
  intros Hnd Hopts Htags Hnorm.
  assert (Hdata : is_false p_normalize = false →
            _processData this_tags property data_ key_ = normalize_data data_ options).
  { intros Hf. unfold _processData. by rewrite Hopts, bind_Ok_l, Hnorm, bind_Ok_l, Hf. }
  unfold processData_options in Hopts. rewrite Htags, bind_Ok_l in Hopts.
  repeat (apply bind_Ok in Hopts as (? & _ & Hopts)).
  injection Hopts as <-. cbn [addKeysByTag tags opts].
  split; [|by split].
  destruct (truthy p_tags); [|done].
  intros name. by apply obj_lookup_assign.
Qed.

End TagFacts.

Lemma processData_tag_set_witness :
  let H := sample (VObj []) [] in
  ∃ options,
    processData_options (VObj [("site", VStr "lab")])
      (VObj [("key", VStr "pools"); ("addKeysByTag", VBool true)]) "pools" = Ok options
    ∧ obj_lookup "site" (tags (addKeysByTag options)) = Some (VStr "lab")
    ∧ obj_lookup "name" (tags (addKeysByTag options)) = obj_lookup "name" defaultTags.
Proof.
  intros H. eexists. split; [reflexivity|].
  pose proof (processData_tag_set (VObj [("site", VStr "lab")])
                (VObj [("key", VStr "pools"); ("addKeysByTag", VBool true)]) VNull "pools"
                _ (VBool true) VUndef
                ltac:(repeat constructor; by eapply bool_decide_unpack; vm_compute)
                eq_refl eq_refl eq_refl) as (Htags & _ & _).
  split; [exact (Htags "site")|exact (Htags "name")].
Defined.

(** C8, as stated, fails: a property without [addKeysByTag] is normalized
    with the default tag alone, whatever tags the caller supplied. *)
Lemma processData_tags_not_merged :
  let H := sample (VObj []) [] in
  ∃ options,
    processData_options (VObj [("site", VStr "lab")])
      (VObj [("key", VStr "pools")]) "pools" = Ok options
    ∧ obj_lookup "site" (tags (addKeysByTag options)) = None.
Proof. intros H. eexists. split; reflexivity. Qed.

(** ** More on objects *)

Lemma obj_set_absent (k : string) (v : value) (o : obj) :
  k ∉ obj_keys o → obj_set k v o = o ++ [(k, v)].
Proof.
  unfold obj_keys. induction o as [|[k0 v0] o IH]; simpl; [done|].
  intros [Hne Hnotin]%not_elem_of_cons.
  rewrite decide_False by done. by rewrite IH.
Qed.

Lemma obj_keys_set_present (k : string) (v : value) (o : obj) :
  k ∈ obj_keys o → obj_keys (obj_set k v o) = obj_keys o.
Proof.
  unfold obj_keys. induction o as [|[k0 v0] o IH]; simpl.
  - by intros ?%elem_of_nil.
  - destruct (decide (k0 = k)) as [->|Hne]; [done|].
    intros [?|Hin]%elem_of_cons; [congruence|]. rewrite !fmap_cons. f_equal. by apply IH.
Qed.

Lemma obj_keys_delete (k : string) (o : obj) :
  obj_keys (obj_delete k o) = filter (λ k', k' ≠ k) (obj_keys o).
Proof.
  unfold obj_keys. induction o as [|[k0 v0] o IH]; [done|].
  cbn [obj_delete]. rewrite fmap_cons. cbn [fst].
  destruct (decide (k0 = k)) as [->|Hne].
  - rewrite filter_cons_False by auto. done.
  - rewrite filter_cons_True by done. rewrite fmap_cons. cbn [fst]. by rewrite IH.
Qed.

Lemma obj_lookup_delete (k k' : string) (o : obj) :
  obj_lookup k' (obj_delete k o) = if decide (k = k') then None else obj_lookup k' o.
Proof.
  induction o as [|[k0 v0] o IH]; simpl.
  - by destruct (decide (k = k')).
  - destruct (decide (k0 = k)) as [->|Hne]; simpl.
    + rewrite IH. destruct (decide (k = k')); [done|]. done.
    + rewrite IH. destruct (decide (k0 = k')) as [->|]; [|done].
      by rewrite decide_False by done.
Qed.

Lemma obj_lookup_is_Some {A} (k : string) (o : list (string * A)) :
  is_Some (obj_lookup k o) ↔ k ∈ o.*1.
Proof.
  rewrite <- not_eq_None_Some, obj_lookup_None.
  split; [apply dec_stable | auto].
Qed.

Lemma obj_lookup_fmap_keys (f : string → value) (ks : list string) (k : string) :
  obj_lookup k ((λ k, (k, f k)) <$> ks) = if decide (k ∈ ks) then Some (f k) else None.
Proof.
  induction ks as [|k0 ks IH]; [done|].
  rewrite fmap_cons. cbn [obj_lookup].
  destruct (decide (k0 = k)) as [->|Hne].
  - rewrite decide_True by left. done.
  - rewrite IH. destruct (decide (k ∈ ks)) as [Hin|Hnotin].
    + rewrite decide_True by (by right). done.
    + rewrite decide_False; [done|]. by intros [?|?]%elem_of_cons.
Qed.

Lemma filter_iff_elem {A} (P1 P2 : A → Prop)
    `{!∀ x, Decision (P1 x), !∀ x, Decision (P2 x)} (l : list A) :
  (∀ x, x ∈ l → (P1 x ↔ P2 x)) → filter P1 l = filter P2 l.
Proof.
  induction l as [|a l IH]; intros Hiff; [done|].
  rewrite !filter_cons.
  rewrite IH by (intros x Hx; apply Hiff; by right).
  apply decide_ext, Hiff. by left.
Qed.

Lemma filter_all {A} (P : A → Prop) `{!∀ x, Decision (P x)} (l : list A) :
  (∀ x, x ∈ l → P x) → filter P l = l.
Proof.
  induction l as [|a l IH]; intros Hall; [done|].
  rewrite filter_cons_True by (apply Hall; by left).
  f_equal. apply IH. intros x Hx. apply Hall. by right.
Qed.

Lemma get_member_truthy (v : value) (k : string) :
  truthy v = true → get_member v k = Ok (ok_or VUndef (get_member v k)).
Proof.
  destruct v; simpl; try done.
  - by destruct (decide _).
  - by destruct (decide _).
Qed.

Section ReshapeFacts.
Context `{Collaborators}.

Lemma order_data_keys (collectedData : obj) :
  NoDup (obj_keys stats) →
  order_data collectedData = (λ k, (k, obj_get k collectedData)) <$> obj_keys stats.
Proof.
  unfold order_data. generalize (obj_keys stats). intros ks Hnd.
  change ((λ k, (k, obj_get k collectedData)) <$> ks)
    with ([] ++ ((λ k, (k, obj_get k collectedData)) <$> ks)).
  assert (Hdisj : ∀ k, k ∈ ks → k ∉ obj_keys []) by (intros; apply not_elem_of_nil).
  revert Hdisj. generalize (@nil (string * value)). 
  induction ks as [|k ks IH]; intros acc Hdisj; simpl; [by rewrite app_nil_r|].
  apply NoDup_cons in Hnd as [Hnotin Hnd].
  rewrite obj_set_absent by (apply Hdisj; left).
  rewrite IH; [by rewrite <- app_assoc|done|].
  intros k' Hin. unfold obj_keys. rewrite fmap_app, not_elem_of_app. split.
  - apply Hdisj. by right.
  - simpl. rewrite list_elem_of_singleton. intros ->. done.
Qed.

(** One turn of the second loop, in terms of [parent_of]. *)
Lemma restructure_step_parent (data_ : obj) (key_ : string) :
  restructure_step data_ key_
  = match parent_of key_ with
    | None => Ok data_
    | Some parentKey =>
        parent ← set_member (obj_get parentKey data_) key_ (obj_get key_ data_);
        Ok (obj_delete key_
              match obj_lookup parentKey data_ with
              | Some _ => obj_set parentKey parent data_
              | None => data_
              end)
    end.
Proof.
  unfold restructure_step, parent_of.
  set (stat := if truthy (obj_get key_ stats) then obj_get key_ stats else VObj []).
  assert (Hstat : truthy stat = true).
  { subst stat. by destruct (truthy (obj_get key_ stats)) eqn:Ht. }
  destruct (get_member stat "structure") as [structure|] eqn:Hstructure;
    [|by rewrite get_member_truthy in Hstructure].
  rewrite bind_Ok_l. cbn [ok_or].
  destruct (truthy structure) eqn:Hs; [|done].
  rewrite (get_member_truthy structure "folder") by done. rewrite bind_Ok_l.
  cbn [andb ok_or]. destruct (negb _); [|done].
  rewrite (get_member_truthy structure "parentKey") by done. by rewrite bind_Ok_l.
Qed.

Lemma restructure_cons (data_ : obj) (key_ : string) (keys : list string) :
  restructure data_ (key_ :: keys)
  = (data_ ← restructure_step data_ key_; restructure data_ keys).
Proof. reflexivity. Qed.

(** What one relocation does to the top level and to the other entries. *)
Lemma relocate_keys (data_ : obj) (key_ parentKey : string) (parent : value) :
  obj_keys (obj_delete key_
              match obj_lookup parentKey data_ with
              | Some _ => obj_set parentKey parent data_
              | None => data_
              end)
  = filter (λ k, k ≠ key_) (obj_keys data_).
Proof.
  rewrite obj_keys_delete. f_equal.
  destruct (obj_lookup parentKey data_) eqn:Hl; [|done].
  apply obj_keys_set_present. apply obj_lookup_is_Some. by rewrite Hl.
Qed.

Lemma relocate_lookup (data_ : obj) (key_ parentKey k : string) (parent : value) :
  k ≠ key_ →
  obj_lookup k (obj_delete key_
                  match obj_lookup parentKey data_ with
                  | Some _ => obj_set parentKey parent data_
                  | None => data_
                  end)
  = if decide (parentKey = k)
    then match obj_lookup k data_ with Some _ => Some parent | None => None end
    else obj_lookup k data_.
Proof.
  intros Hne. rewrite obj_lookup_delete, decide_False by done.
  destruct (decide (parentKey = k)) as [->|Hp].
  - destruct (obj_lookup k data_) eqn:Hl; [|done].
    by rewrite obj_lookup_obj_set, decide_True.
  - destruct (obj_lookup parentKey data_); [|done].
    by rewrite obj_lookup_obj_set, decide_False.
Qed.

Lemma set_member_own (v parent : value) (k c : string) (x : value) :
  set_member v k x = Ok parent → c ≠ k → own_member parent c = own_member v c.
Proof.
  destruct v; simpl; try done; intros [= <-] Hne; simpl; try done;
    by rewrite obj_lookup_obj_set, decide_False.
Qed.

Lemma set_member_is_object (v parent : value) (k : string) (x : value) :
  set_member v k x = Ok parent → is_object parent = is_object v.
Proof. destruct v; simpl; try done; by intros [= <-]. Qed.

Lemma set_member_new (v parent : value) (k : string) (x : value) :
  set_member v k x = Ok parent → is_object v = true → own_member parent k = Some x.
Proof.
  destruct v; simpl; try done; intros [= <-] _; simpl;
    by rewrite obj_lookup_obj_set, decide_True.
Qed.

(** The top level after the second loop. *)
Lemma restructure_keys (keys : list string) :
  ∀ data_ out, restructure data_ keys = Ok out →
    obj_keys out
    = filter (λ k, ¬ (k ∈ keys ∧ is_Some (parent_of k))) (obj_keys data_).
Proof.
  induction keys as [|key_ keys IH]; intros data_ out.
  - intros [= <-]. symmetry. apply filter_all. intros k _ [[]%elem_of_nil _].
  - rewrite restructure_cons, restructure_step_parent.
    destruct (parent_of key_) as [parentKey|] eqn:Hp.
    + intros (data1 & (parent & Hset & [= <-])%bind_Ok & Hrest)%bind_Ok.
      rewrite (IH _ _ Hrest), relocate_keys, list_filter_filter.
      apply list_filter_iff. intros k. rewrite elem_of_cons. split.
      * intros [Hn Hne] [[->|Hin] Hsome]; [done|]. by apply Hn.
      * intros Hn. split; [intros [Hin Hsome]; apply Hn; by split; [right|]|].
        intros ->. apply Hn. split; [by left|by rewrite Hp].
    + rewrite bind_Ok_l. intros Hrest. rewrite (IH _ _ Hrest).
      apply list_filter_iff. intros k. rewrite elem_of_cons. split.
      * intros Hn [[->|Hin] Hsome]; [by rewrite Hp in Hsome; destruct Hsome|].
        by apply Hn.
      * intros Hn [Hin Hsome]. apply Hn. by split; [right|].
Qed.

(** An entry that has been nested stays where it is, as long as its parent
    stays at the top level. *)
Lemma restructure_preserves (keys : list string) (parentKey child : string) (nested : value) :
  parent_of parentKey = None → child ∉ keys →
  ∀ data_ out parent,
    restructure data_ keys = Ok out →
    obj_lookup parentKey data_ = Some parent →
    own_member parent child = Some nested →
    ∃ parent', obj_lookup parentKey out = Some parent'
               ∧ own_member parent' child = Some nested.
Proof.
  intros Htop. induction keys as [|key_ keys IH]; intros Hnotin data_ out parent.
  - intros [= <-]. eauto.
  - apply not_elem_of_cons in Hnotin as [Hne Hnotin].
    rewrite restructure_cons, restructure_step_parent.
    destruct (parent_of key_) as [parentKey'|] eqn:Hp; [|rewrite bind_Ok_l; by eauto].
    intros (data1 & (parent1 & Hset & [= <-])%bind_Ok & Hrest)%bind_Ok Hl Hown.
    assert (Hk : parentKey ≠ key_) by (intros ->; congruence).
    destruct (decide (parentKey' = parentKey)) as [->|Hpp].
    + unfold obj_get in Hset. rewrite Hl in Hset.
      pose proof (set_member_own _ _ _ child _ Hset Hne) as Hown'.
      eapply (IH Hnotin _ _ parent1 Hrest).
      * by rewrite relocate_lookup, decide_True, Hl.
      * by rewrite Hown'.
    + eapply (IH Hnotin _ _ parent Hrest); [|done].
      by rewrite relocate_lookup, decide_False.
Qed.

(** A property with a parent that stays at the top level and holds an
    object ends up under that parent. *)
Lemma restructure_places (key_ parentKey : string) :
  parent_of key_ = Some parentKey → parent_of parentKey = None →
  ∀ keys data_ out parent,
    NoDup keys → key_ ∈ keys →
    restructure data_ keys = Ok out →
    obj_lookup parentKey data_ = Some parent → is_object parent = true →
    ∃ parent' nested,
      obj_lookup parentKey out = Some parent'
      ∧ own_member parent' key_ = Some nested
      ∧ ((∀ c, c ∈ keys → parent_of c ≠ Some key_) → nested = obj_get key_ data_).
Proof.
  intros Hparent Htop. induction keys as [|k keys IH]; intros data_ out parent Hnd Hin.
  { by apply elem_of_nil in Hin. }
  apply NoDup_cons in Hnd as [Hnotin Hnd].
  rewrite restructure_cons, restructure_step_parent.
  assert (Hk : parentKey ≠ key_) by (intros ->; congruence).
  destruct (decide (k = key_)) as [->|Hne].
  - rewrite Hparent.
    intros (data1 & (parent1 & Hset & [= <-])%bind_Ok & Hrest)%bind_Ok Hl Hobj.
    unfold obj_get in Hset at 1. rewrite Hl in Hset.
    pose proof (set_member_new _ _ _ _ Hset Hobj) as Hnew.
    destruct (restructure_preserves keys parentKey key_ (obj_get key_ data_)
                Htop Hnotin _ _ parent1 Hrest)
      as (parent' & Hl' & Hown'); [by rewrite relocate_lookup, decide_True, Hl|done|].
    exists parent', (obj_get key_ data_). by repeat split.
  - apply elem_of_cons in Hin as [->|Hin]; [done|].
    destruct (parent_of k) as [parentKey'|] eqn:Hp.
    + intros (data1 & (parent1 & Hset & [= <-])%bind_Ok & Hrest)%bind_Ok Hl Hobj.
      assert (Hpk : parentKey ≠ k) by (intros ->; congruence).
      assert (∃ parent2, obj_lookup parentKey
                (obj_delete k match obj_lookup parentKey' data_ with
                              | Some _ => obj_set parentKey' parent1 data_
                              | None => data_
                              end) = Some parent2 ∧ is_object parent2 = true)
        as (parent2 & Hl2 & Hobj2).
      { rewrite relocate_lookup by done.
        destruct (decide (parentKey' = parentKey)) as [->|]; [|by eauto].
        rewrite Hl. exists parent1. split; [done|].
        unfold obj_get in Hset. rewrite Hl in Hset.
        by rewrite (set_member_is_object _ _ _ _ Hset). }
      destruct (IH _ _ parent2 Hnd Hin Hrest Hl2 Hobj2) as (parent' & nested & Hl' & Hown' & Hleaf).
      exists parent', nested. repeat split; [done|done|].
      intros Hnone. rewrite Hleaf by (intros c Hc; apply Hnone; by right).
      unfold obj_get. rewrite relocate_lookup by done.
      rewrite decide_False; [done|]. intros ->. by apply (Hnone k); [left|].
    + rewrite bind_Ok_l. intros Hrest Hl Hobj.
      destruct (IH _ _ parent Hnd Hin Hrest Hl Hobj) as (parent' & nested & Hl' & Hown' & Hleaf).
      exists parent', nested. repeat split; [done|done|].
      intros Hnone. apply Hleaf. intros c Hc. apply Hnone. by right.
Qed.

End ReshapeFacts.

Lemma obj_keys_fmap (f : string → value) (ks : list string) :
  obj_keys ((λ k, (k, f k)) <$> ks) = ks.
Proof.
  unfold obj_keys. rewrite <- list_fmap_compose.
  induction ks as [|k ks IH]; [done|]. rewrite fmap_cons. simpl. by rewrite IH.
Qed.

Section FinalTree.
Context `{Collaborators}.

(** The tree the last step of [collect] builds from the collected data. *)
Lemma final_tree_shape (collectedData output : obj) :
  NoDup (obj_keys stats) →
  final_tree collectedData = Ok output →
  obj_keys output = filter (λ k, parent_of k = None) (obj_keys stats)
  ∧ ∀ key_ parentKey,
      key_ ∈ obj_keys stats → parent_of key_ = Some parentKey →
      obj_lookup key_ output = None
      ∧ (parentKey ∈ obj_keys stats → parent_of parentKey = None →
         is_object (obj_get parentKey collectedData) = true →
         ∃ parent nested,
           obj_lookup parentKey output = Some parent
           ∧ own_member parent key_ = Some nested
           ∧ ((∀ c, c ∈ obj_keys stats → parent_of c ≠ Some key_) →
              nested = obj_get key_ collectedData)).
Proof.
  intros Hnd. unfold final_tree. rewrite order_data_keys, obj_keys_fmap by done.
  intros Hres.
  assert (Hkeys : obj_keys output = filter (λ k, parent_of k = None) (obj_keys stats)).
  { rewrite (restructure_keys _ _ _ Hres), obj_keys_fmap.
    apply filter_iff_elem. intros k Hk. split.
    - intros Hn. destruct (parent_of k) eqn:Hp; [|done]. destruct Hn. by split.
    - intros -> [_ []]. done. }
  split; [done|]. intros key_ parentKey Hin Hparent. split.
  - apply obj_lookup_None. fold (obj_keys output). rewrite Hkeys, list_elem_of_filter.
    intros [Hnone _]. congruence.
  - intros Hpin Htop Hobj.
    destruct (restructure_places key_ parentKey Hparent Htop _ _ _
                (obj_get parentKey collectedData) Hnd Hin Hres)
      as (parent & nested & Hl & Hown & Hleaf).
    + by rewrite obj_lookup_fmap_keys, decide_True.
    + done.
    + exists parent, nested. repeat split; [done|done|].
      intros Hnone. rewrite (Hleaf Hnone). unfold obj_get at 1.
      by rewrite obj_lookup_fmap_keys, decide_True.
Qed.

Lemma set_member_not_object (v parent : value) (k : string) (x : value) :
  set_member v k x = Ok parent → is_object v = false → parent = v.
Proof. destruct v; simpl; try done; by intros [= <-]. Qed.

(** An entry without a parent whose data is no object stays as it is: it
    is listed at the top level with that data. *)
Lemma final_tree_not_object (collectedData output : obj) (key_ : string) :
  NoDup (obj_keys stats) →
  final_tree collectedData = Ok output →
  key_ ∈ obj_keys stats → parent_of key_ = None →
  is_object (obj_get key_ collectedData) = false →
  obj_lookup key_ output = Some (obj_get key_ collectedData).
Proof.
  intros Hnd. unfold final_tree. rewrite order_data_keys, obj_keys_fmap by done.
  intros Hres Hin Htop Hobj.
  assert (Hstay : ∀ keys data_ out,
             restructure data_ keys = Ok out →
             obj_lookup key_ data_ = Some (obj_get key_ collectedData) →
             obj_lookup key_ out = Some (obj_get key_ collectedData)).
  { induction keys as [|k keys IH]; intros data_ out; [by intros [= <-]|].
    rewrite restructure_cons, restructure_step_parent.
    destruct (parent_of k) as [parentKey|] eqn:Hp; [|rewrite bind_Ok_l; by apply IH].
    intros (data1 & (parent & Hset & [= <-])%bind_Ok & Hrest)%bind_Ok Hl.
    apply (IH _ _ Hrest).
    assert (key_ ≠ k) by (intros ->; congruence).
    rewrite relocate_lookup by done.
    destruct (decide (parentKey = key_)) as [->|]; [|done].
    rewrite Hl. f_equal. unfold obj_get in Hset at 1. rewrite Hl in Hset.
    by apply (set_member_not_object _ _ _ _ Hset). }
  apply (Hstay _ _ _ Hres). by rewrite obj_lookup_fmap_keys, decide_True.
Qed.

(** A top-level parent that holds an object in the tree held one in the
    collected data. *)
Lemma final_tree_parent_object (collectedData output : obj) (parentKey : string) :
  NoDup (obj_keys stats) →
  final_tree collectedData = Ok output →
  parentKey ∈ obj_keys stats → parent_of parentKey = None →
  is_object (obj_get parentKey output) = true →
  is_object (obj_get parentKey collectedData) = true.
Proof.
  intros Hnd Hfinal Hpin Hptop Hobj.
  destruct (is_object (obj_get parentKey collectedData)) eqn:Hc; [done|].
  pose proof (final_tree_not_object _ _ _ Hnd Hfinal Hpin Hptop Hc) as Hl.
  unfold obj_get in Hobj at 1. rewrite Hl in Hobj. congruence.
Qed.

End FinalTree.

Section MachineFacts.
Context `{Collaborators}.

Lemma settled_step_refl (m : machine) : settled_step m m.
Proof. by left. Qed.

Lemma settled_step_trans (m1 m2 m3 : machine) :
  settled_step m1 m2 → settled_step m2 m3 → settled_step m1 m3.
Proof.
  unfold settled_step.
  intros [H12|[[Hn (e & He)]|[Hn (c & out & Hf & Ho)]]] [H23|[[Hn' ?]|[Hn' ?]]];
    try congruence.
  - left. congruence.
  - right. left. split; [congruence|done].
  - right. right. split; [congruence|done].
  - right. left. split; [done|]. exists e. congruence.
  - right. right. split; [done|]. exists c, out. split; [done|congruence].
Qed.

Lemma settled_step_same (m m' : machine) : settled m' = settled m → settled_step m m'.
Proof. by left. Qed.

Lemma settle_step (r : result obj) (m : machine) :
  (∀ output, r = Ok output → ∃ collectedData, final_tree collectedData = Ok output) →
  settled_step m (settle r m).
Proof.
  intros Hr. unfold settle. destruct (settled m) eqn:Hs; [by left|].
  right. destruct r as [output|e].
  - right. split; [done|]. destruct (Hr output eq_refl) as [c Hc]. by exists c, output.
  - left. split; [done|]. by exists e.
Qed.

Lemma collect_catch_step (err : exn) (m : machine) : settled_step m (collect_catch err m).
Proof.
  unfold collect_catch.
  apply (settled_step_trans _ (add_log ["Error: SystemStats.collect: " +:+ exn_to_string err] m));
    [by left|]. by apply settle_step.
Qed.

Lemma assemble_step (m : machine) : settled_step m (assemble m).
Proof.
  unfold assemble. cbv zeta.
  apply (settled_step_trans _ (add_event Assembled m)); [by left|].
  destruct (final_tree _) as [data_|e] eqn:Hf.
  - apply settle_step. intros output [= <-]. eauto.
  - apply collect_catch_step.
Qed.

Lemma start_entries_settled (kind : join_kind) (entries : obj) :
  ∀ loads m, settled (start_entries kind entries loads m).1.1 = settled m.
Proof.
  induction entries as [|[k p] entries IH]; intros loads m; [done|].
  cbn [start_entries].
  destruct (_processProperty _ _ _ _) as [[c|p']|e]; [rewrite IH..|]; done.
Qed.

Lemma start_join_settled (kind : join_kind) (entries : obj) (m : machine) :
  settled (start_join kind entries m).1 = settled m.
Proof.
  unfold start_join.
  pose proof (start_entries_settled kind entries [] m) as Hs.
  destruct (start_entries kind entries [] m) as [[m' loads] [e|]]; exact Hs.
Qed.

Lemma start_stats_step (m : machine) : settled_step m (start_stats m).
Proof.
  unfold start_stats.
  pose proof (start_join_settled StatsProperties stats m) as Hs.
  destruct (start_join StatsProperties stats m) as [m' [j|e]]; simpl in Hs.
  - destruct (join_is <$> joins m' !! j) as [[[|n]| |]|];
      try (left; exact Hs).
    apply (settled_step_trans _ (set_join_state j Fulfilled m')); [by left|].
    apply assemble_step.
  - apply (settled_step_trans _ m'); [by left|]. apply collect_catch_step.
Qed.

Lemma fulfil_step (j : nat) (m : machine) : settled_step m (fulfil j m).
Proof.
  unfold fulfil. destruct (join_of <$> joins m !! j) as [[i|]|]; [..|by left]; cbv zeta.
  - destruct (bool_decide _); [|by left].
    apply (settled_step_trans _ (publish i (set_join_state j Fulfilled m))); [by left|].
    apply start_stats_step.
  - destruct (bool_decide _); [|by left].
    apply (settled_step_trans _ (set_join_state j Fulfilled m)); [by left|].
    apply assemble_step.
Qed.

Lemma member_resolved_step (j : nat) (m : machine) : settled_step m (member_resolved j m).
Proof.
  unfold member_resolved.
  destruct (join_is <$> joins m !! j) as [[[|[|n]]| |]|]; try by left.
  apply (settled_step_trans _ (set_join_state j (Waiting 0) m)); [by left|].
  apply fulfil_step.
Qed.

Lemma member_rejected_step (err : exn) (j : nat) (m : machine) :
  settled_step m (member_rejected err j m).
Proof.
  unfold member_rejected.
  destruct (join_is <$> joins m !! j) as [[n| |]|]; try by left.
  cbv zeta. destruct (bool_decide _); [|by left].
  apply (settled_step_trans _ (set_join_state j Failed m)); [by left|].
  apply collect_catch_step.
Qed.

Lemma deliver_step (i : nat) (m : machine) : settled_step m (deliver i m).
Proof.
  unfold deliver. destruct (in_flight m !! i) as [t|]; [|by left]. cbv zeta.
  destruct (processProperty_settle _ _ _ _) as [[c|err|] lines].
  - destruct (task_join t) as [j|]; [|by left].
    eapply settled_step_trans; [|apply member_resolved_step]. by left.
  - destruct (task_join t) as [j|]; [|by left].
    eapply settled_step_trans; [|apply member_rejected_step]. by left.
  - by left.
Qed.

Lemma run_step (schedule : list nat) (m : machine) : settled_step m (run schedule m).
Proof.
  revert m. induction schedule as [|i schedule IH]; intros m; [by left|].
  apply (settled_step_trans _ (deliver i m)); [apply deliver_step|apply IH].
Qed.

Lemma drain_step (m : machine) : settled_step m (drain m).
Proof.
  unfold drain. generalize (seq 0 (length (joins m))). intros js.
  revert m. induction js as [|j js IH]; intros m; [by left|].
  cbn [fold_left]. eapply settled_step_trans; [|apply IH].
  destruct (join_is <$> joins m !! j) as [[[|n]| |]|]; try by left.
  apply fulfil_step.
Qed.

Lemma start_phases_settled (phases : list value) :
  ∀ i m, settled (start_phases i phases m).1 = settled m.
Proof.
  induction phases as [|phase phases IH]; intros i m; [done|].
  cbn [start_phases]. destruct (object_entries phase) as [entries|e]; [|done].
  pose proof (start_join_settled (ContextPhase i) entries m) as Hs.
  destruct (start_join (ContextPhase i) entries m) as [m' [j|e]]; [|exact Hs].
  rewrite IH. exact Hs.
Qed.

Lemma computeContextData_settled (contextData : value) (m : machine) :
  settled (_computeContextData contextData m).1 = settled m.
Proof.
  assert (Hsingle : settled
            (match start_join (ContextPhase 0) (own_entries contextData) m with
             | (m, Throw e) => (m, Throw e)
             | (m, Ok j) => (m, Ok (Some j))
             end).1 = settled m).
  { pose proof (start_join_settled (ContextPhase 0) (own_entries contextData) m) as Hs.
    by destruct (start_join _ _ m) as [m' [j|e]]. }
  unfold _computeContextData.
  destruct contextData as [| | | | | |[|phase rest] props|fields];
    try done; try (by destruct (truthy _)).
  destruct (object_entries phase) as [entries|e]; [|done].
  pose proof (start_join_settled (ContextPhase 0) entries m) as Hs.
  destruct (start_join (ContextPhase 0) entries m) as [m' [j|e]]; [|exact Hs].
  pose proof (start_phases_settled rest 1 m') as Hs'.
  destruct (start_phases 1 rest m') as [m'' [[]|e]]; simpl in *; congruence.
Qed.

Lemma collect_start_step (tags_ : value) : settled (collect_start tags_) = None
  ∨ (∃ e, settled (collect_start tags_) = Some (Throw e))
  ∨ ∃ collectedData output,
      final_tree collectedData = Ok output ∧ settled (collect_start tags_) = Some (Ok output).
Proof.
  unfold collect_start. cbv zeta.
  set (m0 := {| this_contextData := _ |}).
  assert (Hfrom : ∀ m, settled_step m0 m →
            settled m = None ∨ (∃ e, settled m = Some (Throw e))
            ∨ ∃ collectedData output,
                final_tree collectedData = Ok output ∧ settled m = Some (Ok output)).
  { intros m [Hs|[[_ He]|[_ Ho]]]; [left; by rewrite Hs|by right; left|by right; right]. }
  apply Hfrom.
  destruct loader_auth as [[]|e]; [|apply collect_catch_step].
  pose proof (computeContextData_settled context m0) as Hs.
  destruct (_computeContextData context m0) as [m [[j|]|e]]; simpl in Hs.
  - eapply settled_step_trans; [|apply drain_step]. by left.
  - eapply settled_step_trans; [|apply start_stats_step]. by left.
  - eapply settled_step_trans; [|apply collect_catch_step].
    eapply settled_step_trans; [|apply drain_step]. by left.
Qed.

(** Whatever [collect] resolves with is the tree of its last step. *)
Lemma collect_resolves_with_final_tree (tags_ : value) (schedule : list nat) (output : obj) :
  settled (collect tags_ schedule) = Some (Ok output) →
  ∃ collectedData, final_tree collectedData = Ok output.
Proof.
  unfold collect. intros Hs.
  destruct (run_step schedule (collect_start tags_)) as [Hsame|[[_ [e He]]|[_ Ho]]].
  - rewrite Hsame in Hs.
    destruct (collect_start_step tags_) as [Hn|[[e He]|(c & out & Hf & Ho)]];
      [congruence|congruence|]. exists c. congruence.
  - congruence.
  - destruct Ho as (c & out & Hf & Ho). exists c. congruence.
Qed.

(** Once the promise of [collect] has settled, it stays as it is. *)
Lemma settled_stays (schedule : list nat) (m : machine) (r : result obj) :
  settled m = Some r → settled (run schedule m) = Some r.
Proof.
  intros Hs. destruct (run_step schedule m) as [Hsame|[[Hn _]|[Hn _]]]; congruence.
Qed.

End MachineFacts.

Section CollectFacts.
Context `{Collaborators}.

(** C5: the tree [collect] resolves with lists the properties that are not
    moved under a parent, in the order of the stats document; a property
    that declares a non-folder parent is not at the top level; and when its
    parent is itself a top-level entry holding an object, the property is
    nested under it, with the data collected for it when nothing was nested
    under the property itself. *)
Theorem collect_output_order (tags_ : value) (schedule : list nat) (output : obj) :
  NoDup (obj_keys stats) →
  settled (collect tags_ schedule) = Some (Ok output) →
  ∃ collectedData,
    final_tree collectedData = Ok output
    ∧ obj_keys output = filter (λ k, parent_of k = None) (obj_keys stats)
    ∧ ∀ key_ parentKey,
        key_ ∈ obj_keys stats → parent_of key_ = Some parentKey →
        obj_lookup key_ output = None
        ∧ (parentKey ∈ obj_keys stats → parent_of parentKey = None →
           is_object (obj_get parentKey output) = true →
           ∃ parent nested,
             obj_lookup parentKey output = Some parent
             ∧ own_member parent key_ = Some nested
             ∧ ((∀ c, c ∈ obj_keys stats → parent_of c ≠ Some key_) →
                nested = obj_get key_ collectedData)).
Proof.
  intros Hnd [collectedData Hfinal]%collect_resolves_with_final_tree.
  exists collectedData. split; [done|].
  destruct (final_tree_shape _ _ Hnd Hfinal) as [Hkeys Hnested].
  split; [done|]. intros key_ parentKey Hin Hparent.
  destruct (Hnested key_ parentKey Hin Hparent) as [Htop Hunder].
  split; [done|]. intros Hpin Hptop Hobj. apply Hunder; [done|done|].
  by apply (final_tree_parent_object _ output).
Qed.

(** C2: when the load or the normalization of a property fails, and the
    [Promise.all] of the property is the one [collect] waits for, [collect]
    rejects with the very error of the load or of the normalization; the
    name and the key of the property go to the log, not into the error; and
    the promise stays rejected whatever the loader answers later, so no tree
    is returned. *)
Theorem deliver_failure (m : machine) (i : nat) (t : task) (j n : nat)
    (err : exn) (lines : list string) :
  in_flight m !! i = Some t →
  task_join t = Some j →
  awaited m = Some j →
  join_is <$> joins m !! j = Some (Waiting n) →
  settled m = None →
  processProperty_settle (this_tags m) (this_collectedData m) (task_key t) (task_property t)
  = (Rejected err, lines) →
  (_loadData (task_property t) = Rejected err
   ∨ ∃ data_, _loadData (task_property t) = Resolved data_
              ∧ _processData (this_tags m) (task_property t) data_ (task_key t) = Throw err)
  ∧ settled (deliver i m) = Some (Throw err)
  ∧ logged (deliver i m)
    = logged m ++ [processProperty_error (task_key t) (task_property t) err;
                   "Error: SystemStats.collect: " +:+ exn_to_string err]
  ∧ ∀ schedule, settled (run schedule (deliver i m)) = Some (Throw err).
Proof.
  intros Hi Hj Haw Hjoin Hs Hfail.
  assert (Hlines : lines = [processProperty_error (task_key t) (task_property t) err]
            ∧ (_loadData (task_property t) = Rejected err
               ∨ ∃ data_, _loadData (task_property t) = Resolved data_
                          ∧ _processData (this_tags m) (task_property t) data_ (task_key t)
                            = Throw err)).
  { unfold processProperty_settle in Hfail.
    destruct (_loadData (task_property t)) as [data_|e|]; [|by injection Hfail as <- <-; auto|done].
    destruct (_processData _ _ _ _) as [v|e] eqn:Hp; [done|].
    injection Hfail as <- <-. split; [done|]. right. by exists data_. }
  destruct Hlines as [-> Horigin]. split; [done|].
  assert (Hd : settled (deliver i m) = Some (Throw err)
               ∧ logged (deliver i m)
                 = logged m ++ [processProperty_error (task_key t) (task_property t) err;
                                "Error: SystemStats.collect: " +:+ exn_to_string err]).
  { unfold deliver. rewrite Hi. cbv zeta. cbn [this_tags this_collectedData set_in_flight].
    rewrite Hfail, Hj. unfold member_rejected.
    cbn [joins add_log set_in_flight awaited]. rewrite Hjoin, Haw.
    rewrite bool_decide_true by done. unfold collect_catch, settle.
    simpl. rewrite Hs. simpl. by rewrite <- app_assoc. }
  destruct Hd as [Hsettled Hlogged]. repeat split; [done|done|].
  intros schedule. by apply settled_stays.
Qed.

End CollectFacts.

Lemma collect_output_order_witness :
  let H := sample (VObj []) sample_stats in
  let output : obj :=
    [("system", VObj [("hostname", VObj [("endpoint", VStr "deviceInfo");
                                         ("items", VArr [] [])])]);
     ("asmState", VUndef)] in
  ∃ collectedData,
    final_tree collectedData = Ok output
    ∧ obj_keys output = filter (λ k, parent_of k = None) (obj_keys stats)
    ∧ ∀ key_ parentKey,
        key_ ∈ obj_keys stats → parent_of key_ = Some parentKey →
        obj_lookup key_ output = None
        ∧ (parentKey ∈ obj_keys stats → parent_of parentKey = None →
           is_object (obj_get parentKey output) = true →
           ∃ parent nested,
             obj_lookup parentKey output = Some parent
             ∧ own_member parent key_ = Some nested
             ∧ ((∀ c, c ∈ obj_keys stats → parent_of c ≠ Some key_) →
                nested = obj_get key_ collectedData)).
Proof.
  intros H output.
  apply (@collect_output_order H VUndef [0] output).
  - by eapply bool_decide_unpack; vm_compute.
  - vm_compute. reflexivity.
Defined.

(** C5, as stated, fails: [interfaces] declares the parent [network], and the
    tree has nothing under [network] at the top level, because [network] has
    been moved under its own parent. *)
Lemma collect_output_chain :
  let H := sample (VObj []) sample_nested in
  ∃ output,
    settled (collect VUndef [0; 0]) = Some (Ok output)
    ∧ parent_of "interfaces" = Some "network"
    ∧ obj_get "network" output = VUndef.
Proof. intros H. eexists. repeat split; reflexivity. Qed.

Lemma deliver_failure_witness :
  let H := sample (VObj []) sample_failing in
  settled (collect VUndef [0]) = Some (Throw (Rejection (VStr "unreachable")))
  ∧ logged (collect VUndef [0])
    = ["Error: SystemStats._processProperty: pools (down): unreachable";
       "Error: SystemStats.collect: unreachable"].
Proof.
  intros H.
  destruct (@deliver_failure H (collect_start VUndef) 0
              {| task_join := Some 1; task_kind := StatsProperties; task_key := "pools";
                 task_property := VObj [("key", VStr "down")] |}
              1 1 (Rejection (VStr "unreachable"))
              ["Error: SystemStats._processProperty: pools (down): unreachable"])
    as (_ & Hsettled & Hlogged & _); [vm_compute; reflexivity..|].
  split; [exact Hsettled|exact Hlogged].
Defined.

(** C2, as stated, fails: [collect] rejects with the value the loader handed
    over, which carries neither the name [pools] nor the key [down]. *)
Lemma collect_rejects_unwrapped :
  let H := sample (VObj []) sample_failing in
  loader_response "down" VUndef = (VUndef, VStr "unreachable")
  ∧ settled (collect VUndef [0]) = Some (Throw (Rejection (VStr "unreachable"))).
Proof. intros H. split; reflexivity. Qed.

(** C1: with the context in two phases, the first turn of [collect] has
    already processed the entry of the second phase, while the load of the
    first phase is still in flight and nothing has been published: the
    conditional of the second phase reads an empty context, and [collect]
    rejects. *)
Theorem computeContextData_eager :
  let H := sample sample_phases [] in
  let m := collect_start VUndef in
  trace m = [Processing (ContextPhase 0) "deviceVersion";
             Processing (ContextPhase 1) "provisioning"]
  ∧ task_key <$> in_flight m = ["deviceVersion"]
  ∧ this_contextData m = []
  ∧ settled m
    = Some (Throw (Error "deviceVersionGreaterOrEqual: context has no property 'deviceVersion'")).
Proof. intros H m. repeat split; reflexivity. Qed.


Section StatsPhase.
Context `{Collaborators}.
Variable key_ : string.

Lemma join_of_set_join_state (j j' : nat) (st : join_state) (m : machine) :
  join_of <$> joins (set_join_state j st m) !! j' = join_of <$> joins m !! j'.
Proof.
  unfold set_join_state. cbn [joins set_joins].
  destruct (decide (j = j')) as [->|Hne].
  - rewrite list_lookup_alter_eq. by destruct (joins m !! j').
  - by rewrite list_lookup_alter_ne.
Qed.










End StatsPhase.

Section DisabledFacts.
Context `{Collaborators}.



Lemma processProperty_settled (contextData collectedData collectedData' : obj)
    (key_ : string) (property : value) :
  _processProperty contextData collectedData key_ property = Ok (Settled collectedData') →
  collectedData' = collectedData ∨ collectedData' = obj_set key_ (VObj []) collectedData.
Proof.
  unfold _processProperty.
  intros (p1 & _ & (p2 & _ & (d & _ & Hrest)%bind_Ok)%bind_Ok)%bind_Ok.
  destruct (truthy d); [injection Hrest as <-; by left|].
  apply bind_Ok in Hrest as (st & _ & (f & _ & Hrest)%bind_Ok).
  destruct (truthy st && is_true f); [injection Hrest as <-; by right|done].
Qed.

Variable key_ : string.




End DisabledFacts.

Section DisabledProperty.
Context `{Collaborators}.


End DisabledProperty.



(** * The sink data filter *)

Section HeapTrees.
Import DataFilter.

(** ** Trees in the heap *)

(** The fields of an object, one by one. *)
Lemma represents_fields_Forall2 (n : nat) (h : heap) (fields : obj)
    (cs : list (string * hval)) :
  (fix all (fields : obj) (cs : list (string * hval)) : Prop :=
     match fields, cs with
     | [], [] => True
     | (k, t) :: fields, (k', c) :: cs => k = k' ∧ represents n h t c ∧ all fields cs
     | _, _ => False
     end) fields cs
  ↔ Forall2 (λ f c, f.1 = c.1 ∧ represents n h f.2 c.2) fields cs.
Proof.
  revert cs. induction fields as [|[k t] fields IH]; intros [|[k' c] cs]; simpl.
  - split; auto.
  - split; [done|]. by intros ?%Forall2_nil_cons_inv.
  - split; [done|]. by intros ?%Forall2_cons_nil_inv.
  - rewrite IH, Forall2_cons. simpl. tauto.
Qed.

Lemma represents_items_Forall2 (n : nat) (h : heap) (items : list value) (cs : list hval) :
  (fix all (items : list value) (cs : list hval) : Prop :=
     match items, cs with
     | [], [] => True
     | t :: items, c :: cs => represents n h t c ∧ all items cs
     | _, _ => False
     end) items cs
  ↔ Forall2 (represents n h) items cs.
Proof.
  revert cs. induction items as [|t items IH]; intros [|c cs]; simpl.
  - split; auto.
  - split; [done|]. by intros ?%Forall2_nil_cons_inv.
  - split; [done|]. by intros ?%Forall2_cons_nil_inv.
  - rewrite IH, Forall2_cons. tauto.
Qed.

Lemma represents_obj (n : nat) (h : heap) (fields : obj) (v : hval) :
  represents n h (VObj fields) v
  ↔ ∃ l cs, v = HRef l ∧ (n ≤ l)%nat ∧ h !! l = Some (CObj cs)
            ∧ Forall2 (λ f c, f.1 = c.1 ∧ represents n h f.2 c.2) fields cs.
Proof.
  cbn [represents]. split; intros (l & cs & ? & ? & ? & Hall); exists l, cs;
    repeat split; try done; by apply represents_fields_Forall2.
Qed.

Lemma represents_arr (n : nat) (h : heap) (items : list value) (props : obj) (v : hval) :
  represents n h (VArr items props) v
  ↔ props = [] ∧ ∃ l cs, v = HRef l ∧ (n ≤ l)%nat ∧ h !! l = Some (CArr cs)
                         ∧ Forall2 (represents n h) items cs.
Proof.
  cbn [represents]. split; intros (? & l & cs & ? & ? & ? & Hall); (split; [done|]);
    exists l, cs; repeat split; try done; by apply represents_items_Forall2.
Qed.

(** A tree stays where it is when the heap grows and when the cells below
    it are counted in. *)
Lemma represents_mono (t : value) :
  ∀ n n' h ext v, (n' ≤ n)%nat → represents n h t v → represents n' (h ++ ext) t v.
Proof.
  induction t as [| |b|z|s|name|items props IHitems _|fields IH] using value_nested_ind;
    intros n n' h ext v Hn; try done.
  - rewrite !represents_arr. intros (-> & l & cs & -> & Hl & Hcell & Hall).
    split; [done|]. exists l, cs. repeat split; [lia|by apply lookup_app_l_Some|].
    clear Hcell. induction Hall as [|t c items cs Ht Hall IHall]; [constructor|].
    apply Forall_cons in IHitems as [IHt IHitems].
    constructor; [by eapply IHt|by apply IHall].
  - rewrite !represents_obj. intros (l & cs & -> & Hl & Hcell & Hall).
    exists l, cs. repeat split; [lia|by apply lookup_app_l_Some|].
    clear Hcell. induction Hall as [|[k t] [k' c] fields cs [Hk Ht] Hall IHall]; [constructor|].
    apply Forall_cons in IH as [IHt IH].
    constructor; [split; [done|by eapply IHt]|by apply IHall].
Qed.

(** A tree depends on the cells from [n] on only. *)
Lemma represents_agree (t : value) :
  ∀ n h h' v,
    (∀ l, (n ≤ l)%nat → (l < length h)%nat → h' !! l = h !! l) →
    represents n h t v → represents n h' t v.
Proof.
  induction t as [| |b|z|s|name|items props IHitems _|fields IH] using value_nested_ind;
    intros n h h' v Hagree; try done.
  - rewrite !represents_arr. intros (-> & l & cs & -> & Hl & Hcell & Hall).
    split; [done|]. exists l, cs. repeat split; [done| |].
    { rewrite Hagree; [done|done|]. by eapply lookup_lt_Some. }
    clear Hcell. induction Hall as [|t c items cs Ht Hall IHall]; [constructor|].
    apply Forall_cons in IHitems as [IHt IHitems].
    constructor; [by eapply IHt|by apply IHall].
  - rewrite !represents_obj. intros (l & cs & -> & Hl & Hcell & Hall).
    exists l, cs. repeat split; [done| |].
    { rewrite Hagree; [done|done|]. by eapply lookup_lt_Some. }
    clear Hcell. induction Hall as [|[k t] [k' c] fields cs [Hk Ht] Hall IHall]; [constructor|].
    apply Forall_cons in IH as [IHt IH].
    constructor; [split; [done|by eapply IHt]|by apply IHall].
Qed.

End HeapTrees.

Section DeepCopyFacts.
Import DataFilter.

Lemma depth_obj (fields : obj) (fuel : nat) :
  (depth (VObj fields) ≤ S fuel)%nat → Forall (λ kv, (depth kv.2 ≤ fuel)%nat) fields.
Proof.
  cbn [depth]. intros Hd%le_S_n. induction fields as [|[k t] fields IH]; [constructor|].
  constructor; [simpl; lia|apply IH; lia].
Qed.

Lemma depth_arr (items : list value) (props : obj) (fuel : nat) :
  (depth (VArr items props) ≤ S fuel)%nat → Forall (λ t, (depth t ≤ fuel)%nat) items.
Proof.
  cbn [depth]. intros Hd%le_S_n. induction items as [|t items IH]; [constructor|].
  simpl in Hd. constructor; [lia|apply IH; lia].
Qed.

Lemma depth_pos_obj (fields : obj) (fuel : nat) :
  (depth (VObj fields) ≤ fuel)%nat → ∃ fuel', fuel = S fuel'.
Proof. cbn [depth]. destruct fuel; [lia|eauto]. Qed.

Lemma depth_pos_arr (items : list value) (props : obj) (fuel : nat) :
  (depth (VArr items props) ≤ fuel)%nat → ∃ fuel', fuel = S fuel'.
Proof. cbn [depth]. destruct fuel; [lia|eauto]. Qed.

(** The blocks of the copies of the fields follow [h]. *)
Lemma copied_fields_Forall2 (fields : obj) :
  ∀ h cs h', copied_fields h fields cs h' →
    (∃ block, h' = h ++ block)
    ∧ Forall2 (λ f c, f.1 = c.1 ∧ represents (length h) h' f.2 c.2) fields cs.
Proof.
  induction fields as [|[k t] fields IH]; intros h [|[k' c] cs] h'; simpl; try done.
  - intros ->. split; [exists []; by rewrite app_nil_r|constructor].
  - intros (-> & block & Ht & Hrest).
    destruct (IH _ _ _ Hrest) as [[block' ->] Hall]. split.
    + exists (block ++ block'). by rewrite app_assoc.
    + constructor; [split; [done|]; simpl; by apply (represents_mono t (length h))|].
      eapply Forall2_impl; [exact Hall|]. intros f c' [? Hf]. split; [done|].
      rewrite <- (app_nil_r (_ ++ block')).
      apply (represents_mono _ (length (h ++ block))); [|done].
      rewrite length_app. lia.
Qed.

Lemma copied_items_Forall2 (items : list value) :
  ∀ h cs h', copied_items h items cs h' →
    (∃ block, h' = h ++ block) ∧ Forall2 (represents (length h) h') items cs.
Proof.
  induction items as [|t items IH]; intros h [|c cs] h'; simpl; try done.
  - intros ->. split; [exists []; by rewrite app_nil_r|constructor].
  - intros (block & Ht & Hrest).
    destruct (IH _ _ _ Hrest) as [[block' ->] Hall]. split.
    + exists (block ++ block'). by rewrite app_assoc.
    + constructor; [by apply (represents_mono t (length h))|].
      eapply Forall2_impl; [exact Hall|]. intros f c' Hf.
      rewrite <- (app_nil_r (_ ++ block')).
      apply (represents_mono _ (length (h ++ block))); [|done].
      rewrite length_app. lia.
Qed.

Lemma copy_fields_copied (fuel n : nat) (h0 : heap) (fields : obj)
    (cs : list (string * hval)) :
  Forall (λ kv, copies kv.2) fields →
  Forall (λ kv, (depth kv.2 ≤ fuel)%nat) fields →
  Forall2 (λ f c, f.1 = c.1 ∧ represents n h0 f.2 c.2) fields cs →
  ∀ ext, ∃ h' cs',
    copy_fields (deepCopy fuel) (h0 ++ ext) cs = Some (h', cs')
    ∧ copied_fields (h0 ++ ext) fields cs' h'.
Proof.
  intros Hcopies Hdepth Hall.
  induction Hall as [|[k t] [k' c] fields cs [Hk Ht] Hall IH]; intros ext.
  - exists (h0 ++ ext), []. by split.
  - apply Forall_cons in Hcopies as [Hcopy Hcopies].
    apply Forall_cons in Hdepth as [Hd Hdepth]. simpl in Hk, Ht, Hcopy, Hd. subst k'.
    destruct (Hcopy fuel n (h0 ++ ext) c) as (block & c' & Hc & Hrep);
      [by apply (represents_mono t n)|done|].
    destruct (IH Hcopies Hdepth (ext ++ block)) as (h' & cs' & Hcs & Hrest).
    rewrite app_assoc in Hcs, Hrest.
    exists h', ((k, c') :: cs'). cbn [copy_fields]. rewrite Hc. cbn [mbind option_bind].
    rewrite Hcs. cbn [mbind option_bind]. split; [done|].
    cbn [copied_fields]. split; [done|]. by exists block.
Qed.

Lemma copy_items_copied (fuel n : nat) (h0 : heap) (items : list value) (cs : list hval) :
  Forall copies items →
  Forall (λ t, (depth t ≤ fuel)%nat) items →
  Forall2 (represents n h0) items cs →
  ∀ ext, ∃ h' cs',
    copy_items (deepCopy fuel) (h0 ++ ext) cs = Some (h', cs')
    ∧ copied_items (h0 ++ ext) items cs' h'.
Proof.
  intros Hcopies Hdepth Hall.
  induction Hall as [|t c items cs Ht Hall IH]; intros ext.
  - exists (h0 ++ ext), []. by split.
  - apply Forall_cons in Hcopies as [Hcopy Hcopies].
    apply Forall_cons in Hdepth as [Hd Hdepth].
    destruct (Hcopy fuel n (h0 ++ ext) c) as (block & c' & Hc & Hrep);
      [by apply (represents_mono t n)|done|].
    destruct (IH Hcopies Hdepth (ext ++ block)) as (h' & cs' & Hcs & Hrest).
    rewrite app_assoc in Hcs, Hrest.
    exists h', (c' :: cs'). cbn [copy_items]. rewrite Hc. cbn [mbind option_bind].
    rewrite Hcs. cbn [mbind option_bind]. split; [done|].
    cbn [copied_items]. by exists block.
Qed.

(** The copy of an object: the copies of its fields, block after block,
    and then the object itself. *)
Lemma deepCopy_object (fuel n : nat) (h : heap) (fields : obj) (v : hval) :
  Forall (λ kv, copies kv.2) fields →
  represents n h (VObj fields) v → (depth (VObj fields) ≤ fuel)%nat →
  ∃ h' cs', deepCopy fuel h v = Some (h' ++ [CObj cs'], HRef (length h'))
            ∧ copied_fields h fields cs' h'.
Proof.
  intros Hcopies (l & cs & -> & Hl & Hcell & Hall)%represents_obj Hdepth.
  destruct (depth_pos_obj _ _ Hdepth) as [fuel' ->].
  destruct (copy_fields_copied fuel' n h fields cs Hcopies (depth_obj _ _ Hdepth) Hall [])
    as (h' & cs' & Hcs & Hcopied).
  rewrite app_nil_r in Hcs, Hcopied.
  exists h', cs'. split; [|done].
  cbn [deepCopy]. rewrite Hcell. cbn [mbind option_bind]. by rewrite Hcs.
Qed.

Lemma deepCopy_array (fuel n : nat) (h : heap) (items : list value) (v : hval) :
  Forall copies items →
  represents n h (VArr items []) v → (depth (VArr items []) ≤ fuel)%nat →
  ∃ h' cs', deepCopy fuel h v = Some (h' ++ [CArr cs'], HRef (length h'))
            ∧ copied_items h items cs' h'.
Proof.
  intros Hcopies (_ & l & cs & -> & Hl & Hcell & Hall)%represents_arr Hdepth.
  destruct (depth_pos_arr _ _ _ Hdepth) as [fuel' ->].
  destruct (copy_items_copied fuel' n h items cs Hcopies (depth_arr _ _ _ Hdepth) Hall [])
    as (h' & cs' & Hcs & Hcopied).
  rewrite app_nil_r in Hcs, Hcopied.
  exists h', cs'. split; [|done].
  cbn [deepCopy]. rewrite Hcell. cbn [mbind option_bind]. by rewrite Hcs.
Qed.

(** [deepCopy] copies every tree. *)
Lemma deepCopy_copies (t : value) : copies t.
Proof.
  induction t as [| |b|z|s|name|items props IHitems _|fields IH] using value_nested_ind;
    try (intros fuel n h v Hv _; cbn [represents] in Hv; subst v;
         eexists [], _; rewrite app_nil_r; split; [by destruct fuel|done]).
  - intros fuel n h v Hv. cbn [represents] in Hv. done.
  - intros fuel n h v Hv Hdepth.
    assert (props = []) as -> by (by apply represents_arr in Hv as [-> _]).
    destruct (deepCopy_array fuel n h items v IHitems Hv Hdepth)
      as (h' & cs' & Hcopy & Hcopied).
    destruct (copied_items_Forall2 _ _ _ _ Hcopied) as [[block ->] Hall].
    exists (block ++ [CArr cs']), (HRef (length (h ++ block))).
    rewrite app_assoc. split; [done|]. apply represents_arr. split; [done|].
    exists (length (h ++ block)), cs'.
    repeat split; [rewrite length_app; lia|by apply list_lookup_middle|].
    eapply Forall2_impl; [exact Hall|]. intros t c Ht.
    by apply (represents_mono t (length h)).
  - intros fuel n h v Hv Hdepth.
    destruct (deepCopy_object fuel n h fields v IH Hv Hdepth)
      as (h' & cs' & Hcopy & Hcopied).
    destruct (copied_fields_Forall2 _ _ _ _ Hcopied) as [[block ->] Hall].
    exists (block ++ [CObj cs']), (HRef (length (h ++ block))).
    rewrite app_assoc. split; [done|]. apply represents_obj.
    exists (length (h ++ block)), cs'.
    repeat split; [rewrite length_app; lia|by apply list_lookup_middle|].
    eapply Forall2_impl; [exact Hall|]. intros f c [? Ht]. split; [done|].
    by apply (represents_mono _ (length h)).
Qed.

End DeepCopyFacts.

Section DeleteFacts.
Import DataFilter.

Lemma delete_keys_nil (c : cell) : delete_keys [] c = c.
Proof.
  destruct c as [fields|items]; cbn [delete_keys]; f_equal.
  - apply filter_all. intros kv _. apply not_elem_of_nil.
  - apply list_eq. intros i. rewrite list_lookup_imap.
    destruct (items !! i); [|done]. cbn [fmap option_fmap option_map].
    by rewrite decide_False by apply not_elem_of_nil.
Qed.

Lemma delete_keys_app (ks1 ks2 : list string) (c : cell) :
  delete_keys ks2 (delete_keys ks1 c) = delete_keys (ks1 ++ ks2) c.
Proof.
  destruct c as [fields|items]; cbn [delete_keys]; f_equal.
  - rewrite list_filter_filter. apply list_filter_iff. intros kv.
    rewrite not_elem_of_app. tauto.
  - apply list_eq. intros i. rewrite !list_lookup_imap.
    destruct (items !! i) as [x|]; [|done]. cbn [fmap option_fmap option_map].
    repeat case_decide; try done; rewrite elem_of_app in *; tauto.
Qed.

(** Only membership in the list of keys matters. *)
Lemma delete_keys_ext (ks1 ks2 : list string) (c : cell) :
  (∀ k, k ∈ (cell_entries c).*1 → (k ∈ ks1 ↔ k ∈ ks2)) →
  delete_keys ks1 c = delete_keys ks2 c.
Proof.
  destruct c as [fields|items]; cbn [delete_keys cell_entries]; intros Hext; f_equal.
  - apply filter_iff_elem. intros kv Hkv.
    rewrite (Hext kv.1); [done|]. by apply list_elem_of_fmap_2.
  - apply list_eq. intros i. rewrite !list_lookup_imap.
    destruct (items !! i) as [x|] eqn:Hi; [|done]. cbn [fmap option_fmap option_map].
    f_equal. apply decide_ext, Hext.
    apply (list_elem_of_fmap_2' fst _ (pretty i, x)); [|done].
    apply list_elem_of_lookup. exists i. by rewrite list_lookup_imap, Hi.
Qed.

Lemma delete_keys_none (ks : list string) (c : cell) :
  ¬ Exists (λ k, k ∈ ks) (cell_entries c).*1 → delete_keys ks c = c.
Proof.
  intros Hnone. rewrite <- (delete_keys_nil c) at 2. apply delete_keys_ext.
  intros k Hk. split; [|by intros ?%elem_of_nil].
  intros Hin. destruct Hnone. apply Exists_exists. eauto.
Qed.

Lemma reindex_idemp (c : cell) : reindex (reindex c) = reindex c.
Proof.
  destruct c as [fields|items]; cbn [reindex]; [done|]. f_equal.
  rewrite list_filter_filter. apply list_filter_iff. tauto.
Qed.

Lemma delete_match_lookup (h : heap) (m : deep_match) (l : nat) :
  delete_match h m !! l
  = (if decide (data m = l) then delete_keys [key m] else id) <$> h !! l.
Proof.
  unfold delete_match. destruct (decide (data m = l)) as [<-|Hne].
  - rewrite list_lookup_alter_eq. destruct (h !! data m) as [[fields|items]|]; [| |done];
      cbn [fmap option_fmap option_map delete_keys]; do 2 f_equal.
    + apply list_filter_iff. intros kv. by rewrite list_elem_of_singleton.
    + apply list_eq. intros i. rewrite !list_lookup_imap.
      destruct (items !! i); [|done]. cbn [fmap option_fmap option_map]. f_equal.
      apply decide_ext. by rewrite list_elem_of_singleton.
  - rewrite list_lookup_alter_ne by done. by destruct (h !! l).
Qed.

Lemma keys_matched_cons (m : deep_match) (ms : list deep_match) (l : nat) :
  keys_matched (m :: ms) l
  = (if decide (data m = l) then [key m] else []) ++ keys_matched ms l.
Proof.
  unfold keys_matched. rewrite filter_cons. by destruct (decide (data m = l)).
Qed.

(** The heap after all the [delete]s, cell by cell. *)
Lemma fold_delete_lookup (ms : list deep_match) :
  ∀ h l, fold_left delete_match ms h !! l = delete_keys (keys_matched ms l) <$> h !! l.
Proof.
  induction ms as [|m ms IH]; intros h l.
  - cbn [fold_left]. destruct (h !! l) as [c|]; [|done]. simpl.
    by rewrite delete_keys_nil.
  - cbn [fold_left]. rewrite IH, delete_match_lookup, keys_matched_cons.
    destruct (h !! l) as [c|]; [|done]. simpl. f_equal.
    destruct (decide (data m = l)).
    + by rewrite delete_keys_app.
    + done.
Qed.

Lemma reindex_match_lookup (h : heap) (m : deep_match) (l : nat) :
  reindex_match h m !! l = (if decide (data m = l) then reindex else id) <$> h !! l.
Proof.
  unfold reindex_match. destruct (decide (data m = l)) as [<-|Hne].
  - rewrite list_lookup_alter_eq. by destruct (h !! data m) as [[fields|items]|].
  - rewrite list_lookup_alter_ne by done. by destruct (h !! l).
Qed.

(** The heap after the second loop, cell by cell. *)
Lemma fold_reindex_lookup (ms : list deep_match) :
  ∀ h l, fold_left reindex_match ms h !! l
         = (if decide (l ∈ data <$> ms) then reindex else id) <$> h !! l.
Proof.
  induction ms as [|m ms IH]; intros h l.
  - cbn [fold_left]. rewrite decide_False by (rewrite fmap_nil; apply not_elem_of_nil).
    by destruct (h !! l).
  - cbn [fold_left]. rewrite IH, reindex_match_lookup, fmap_cons.
    destruct (h !! l) as [c|]; [|done]. simpl. f_equal.
    destruct (decide (data m = l)) as [->|Hne].
    + rewrite (decide_True (P := l ∈ l :: _)) by left.
      destruct (decide _); [apply reindex_idemp|done].
    + apply (f_equal (λ f : cell → cell, f c)).
      destruct (decide (l ∈ data <$> ms)) as [Hin|Hnotin].
      * by rewrite decide_True by (by right).
      * rewrite decide_False; [done|]. intros [?|?]%elem_of_cons; congruence.
Qed.

(** [_applyBlacklist], cell by cell. *)
Lemma applyBlacklist_lookup (ms : list deep_match) (h : heap) (l : nat) :
  fold_left reindex_match ms (fold_left delete_match ms h) !! l
  = (λ c, (if decide (l ∈ data <$> ms) then reindex else id)
            (delete_keys (keys_matched ms l) c)) <$> h !! l.
Proof.
  rewrite fold_reindex_lookup, fold_delete_lookup. by destruct (h !! l).
Qed.

End DeleteFacts.

Section ScanFacts.
Import DataFilter.
Variable names : list string.

Lemma visited_primitive (h : heap) (v : hval) (l : nat) :
  (∀ l', v ≠ HRef l') → ¬ visited h names v l.
Proof. intros Hv Hvis. destruct Hvis; by eapply Hv. Qed.

Lemma getDeepMatches_primitive (fuel : nat) (h : heap) (v : hval) :
  (∀ l', v ≠ HRef l') →
  getDeepMatches fuel h v names = Some [] ∧ matches_of h names v [].
Proof.
  intros Hv. split.
  - destruct v; try (by destruct fuel). by destruct (Hv l).
  - intros m. split; [by intros ?%elem_of_nil|].
    intros [Hvis _]. by apply visited_primitive in Hvis.
Qed.

(** The loop over the entries of one cell. *)
Lemma scan_entries_matches (fuel : nat) (h : heap) (l : nat) (es : list (string * hval)) :
  Forall (λ kv, ∃ ms, getDeepMatches fuel h kv.2 names = Some ms
                      ∧ matches_of h names kv.2 ms) es →
  ∃ ms, scan_entries (λ v, getDeepMatches fuel h v names) names l es = Some ms
        ∧ ∀ m, m ∈ ms ↔
            ∃ k v, (k, v) ∈ es
                   ∧ ((k ∈ names ∧ m = {| data := l; key := k |})
                      ∨ ((k ∉ names) ∧ m ∈ (default [] (getDeepMatches fuel h v names)))).
Proof.
  induction es as [|[k v] es IH]; intros Hall.
  - exists []. split; [done|]. intros m. split; [by intros ?%elem_of_nil|].
    by intros (k & v & ?%elem_of_nil & _).
  - apply Forall_cons in Hall as [(msv & Hv & Hmsv) Hall].
    destruct (IH Hall) as (ms & Hms & Hspec). simpl in Hv.
    cbn [scan_entries]. rewrite Hms.
    destruct (decide (k ∈ names)) as [Hin|Hnotin]; cbn [mbind option_bind].
    + eexists. split; [done|]. intros m. rewrite elem_of_app, list_elem_of_singleton, Hspec.
      split.
      * intros [->|(k' & v' & Hin' & Hcase)].
        -- exists k, v. split; [left|by left].
        -- exists k', v'. split; [by right|done].
      * intros (k' & v' & [[= -> ->]|Hin']%elem_of_cons & Hcase).
        -- destruct Hcase as [[_ ->]|[? _]]; [by left|done].
        -- right. by exists k', v'.
    + rewrite Hv. cbn [mbind option_bind]. eexists. split; [done|]. intros m.
      rewrite elem_of_app, Hspec. split.
      * intros [Hm|(k' & v' & Hin' & Hcase)].
        -- exists k, v. split; [left|]. right. by rewrite Hv.
        -- exists k', v'. split; [by right|done].
      * intros (k' & v' & [[= -> ->]|Hin']%elem_of_cons & Hcase).
        -- destruct Hcase as [[? _]|[_ Hm]]; [done|]. left. by rewrite Hv in Hm.
        -- right. by exists k', v'.
Qed.

(** The matches found from a cell, given those found from its entries. *)
Lemma getDeepMatches_cell (fuel : nat) (h : heap) (l : nat) (c : cell) :
  h !! l = Some c →
  Forall (λ kv, ∃ ms, getDeepMatches fuel h kv.2 names = Some ms
                      ∧ matches_of h names kv.2 ms) (cell_entries c) →
  ∃ ms, getDeepMatches (S fuel) h (HRef l) names = Some ms
        ∧ matches_of h names (HRef l) ms.
Proof.
  intros Hcell Hall.
  destruct (scan_entries_matches fuel h l (cell_entries c) Hall) as (ms & Hms & Hspec).
  exists ms. split.
  { cbn [getDeepMatches]. rewrite Hcell. exact Hms. }
  rewrite Forall_forall in Hall.
  intros m. rewrite Hspec. split.
  - intros (k & v & Hin & [[Hk ->]|[Hk Hm]]).
    + cbn [data key]. split; [by eapply visited_here|].
      exists c. repeat split; [done| |done].
      by apply (list_elem_of_fmap_2' fst _ (k, v)).
    + destruct (Hall _ Hin) as (msv & Hv & Hmsv). simpl in Hv, Hmsv.
      rewrite Hv in Hm. apply Hmsv in Hm as [Hvis Hc].
      split; [by eapply visited_under|done].
  - intros [Hvis (c' & Hc' & Hkey & Hnames)].
    inversion Hvis as [l0 c0 Hc0|l0 c0 k v l' Hc0 Hin Hk Hvis']; subst.
    + rewrite Hc' in Hcell. injection Hcell as ->.
      apply list_elem_of_fmap in Hkey as ([k v] & Hk & Hin). simpl in Hk.
      exists k, v. split; [done|]. left. split; [by rewrite <- Hk|].
      destruct m as [dm km]. simpl in *. by subst.
    + rewrite Hc0 in Hcell. injection Hcell as ->.
      exists k, v. split; [done|]. right. split; [done|].
      destruct (Hall _ Hin) as (msv & Hv & Hmsv). simpl in Hv, Hmsv.
      rewrite Hv. apply Hmsv. split; [done|]. by exists c'.
Qed.

(** [getDeepMatches] scans every tree. *)
Lemma getDeepMatches_scans (t : value) : scans names t.
Proof.
  induction t as [| |b|z|s|name|items props IHitems _|fields IH] using value_nested_ind;
    try (intros fuel n h v Hv _; cbn [represents] in Hv; subst v;
         exists []; by apply getDeepMatches_primitive).
  - intros fuel n h v Hv. cbn [represents] in Hv. done.
  - intros fuel n h v (_ & l & cs & -> & Hl & Hcell & Hall)%represents_arr Hdepth.
    destruct (depth_pos_arr _ _ _ Hdepth) as [fuel' ->].
    apply (getDeepMatches_cell fuel' h l (CArr cs) Hcell).
    pose proof (depth_arr _ _ _ Hdepth) as Hd. cbn [cell_entries].
    apply Forall_forall. intros [k c] Hin.
    apply list_elem_of_lookup in Hin as [i Hi]. rewrite list_lookup_imap in Hi.
    destruct (cs !! i) as [c'|] eqn:Hc; [|done]. injection Hi as _ ->.
    destruct (Forall2_lookup_r _ _ _ _ _ Hall Hc) as (t & Ht & Hrep).
    rewrite Forall_forall in IHitems, Hd. apply list_elem_of_lookup_2 in Ht.
    apply (IHitems t Ht fuel' n h c); [done|by apply Hd].
  - intros fuel n h v (l & cs & -> & Hl & Hcell & Hall)%represents_obj Hdepth.
    destruct (depth_pos_obj _ _ Hdepth) as [fuel' ->].
    apply (getDeepMatches_cell fuel' h l (CObj cs) Hcell).
    pose proof (depth_obj _ _ Hdepth) as Hd. cbn [cell_entries].
    apply Forall_forall. intros [k c] Hin.
    apply list_elem_of_lookup in Hin as [i Hi].
    destruct (Forall2_lookup_r _ _ _ _ _ Hall Hi) as ([k' t] & Ht & _ & Hrep).
    rewrite Forall_forall in IH, Hd. apply list_elem_of_lookup_2 in Ht.
    apply (IH _ Ht fuel' n h c); [done|by apply (Hd _ Ht)].
Qed.

End ScanFacts.

Section PruneFacts.
Import DataFilter.
Variable names : list string.

Lemma prune_cell_obj (cs : list (string * hval)) :
  prune_cell names (CObj cs) = CObj (filter (λ kv, kv.1 ∉ names) cs).
Proof.
  unfold prune_cell. case_bool_decide as Hex; [done|].
  cbn [cell_entries] in Hex. f_equal. symmetry. apply filter_all.
  intros kv Hin Hk. apply Hex, Exists_exists. exists kv.1. split; [|done].
  by apply list_elem_of_fmap_2.
Qed.

(** The index names of a list depend on its length only. *)
Lemma index_names_length {A B} (l1 : list A) (l2 : list B) :
  length l1 = length l2 →
  (imap (λ i x, (pretty i, x)) l1).*1 = (imap (λ i x, (pretty i, x)) l2).*1.
Proof.
  intros Hlen. apply list_eq. intros i.
  rewrite !list_lookup_fmap, !list_lookup_imap.
  destruct (l1 !! i) as [x|] eqn:H1, (l2 !! i) as [y|] eqn:H2; try done.
  - apply lookup_lt_Some in H1. apply lookup_ge_None in H2. lia.
  - apply lookup_lt_Some in H2. apply lookup_ge_None in H1. lia.
Qed.

Lemma represents_undefined (n : nat) (h : heap) (t : value) (c : hval) :
  represents n h t c → (is_undefined t = false ↔ c ≠ HUndef).
Proof.
  destruct t; cbn [represents is_undefined]; try (intros ->; split; done).
  - done.
  - intros (_ & l & cs & -> & _). split; done.
  - intros (l & cs & -> & _). split; done.
Qed.

Lemma Forall2_filter {A B} (R : A → B → Prop) (P : A → Prop) (Q : B → Prop)
    `{!∀ x, Decision (P x), !∀ y, Decision (Q y)} (l1 : list A) (l2 : list B) :
  (∀ x y, R x y → (P x ↔ Q y)) →
  Forall2 R l1 l2 → Forall2 R (filter P l1) (filter Q l2).
Proof.
  intros HPQ Hall. induction Hall as [|x y l1 l2 Hxy Hall IH]; [constructor|].
  rewrite !filter_cons. destruct (decide (P x)) as [HP|HP].
  - rewrite decide_True by (by apply (HPQ x y)). by constructor.
  - rewrite decide_False by (by rewrite <- (HPQ x y)). done.
Qed.

(** The equations of [prune]. *)
Lemma prune_obj (fields : obj) :
  prune names (VObj fields)
  = VObj ((λ kv, (kv.1, prune names kv.2)) <$> filter (λ kv, kv.1 ∉ names) fields).
Proof.
  cbn [prune]. f_equal. induction fields as [|[k t] fields IH]; [done|].
  rewrite filter_cons. cbn [fst]. destruct (decide (k ∈ names)) as [Hin|Hnotin].
  - by rewrite decide_False by (intros Hn; by apply Hn).
  - rewrite decide_True by done. rewrite fmap_cons. cbn [fst snd]. by rewrite IH.
Qed.

Lemma prune_arr (items : list value) (props : obj) :
  prune names (VArr items props)
  = if bool_decide (Exists (λ k, k ∈ names) (indexed items).*1)
    then VArr (filter (λ t, is_undefined t = false)
                 (imap (λ i t, if decide (pretty i ∈ names) then VUndef else prune names t)
                    items)) props
    else VArr (imap (λ i t, if decide (pretty i ∈ names) then VUndef else prune names t)
                 items) props.
Proof.
  cbn [prune].
  assert (Hall : ∀ j items,
            (fix all (i : nat) (items : list value) : list value :=
               match items with
               | [] => []
               | t :: items =>
                   (if decide (pretty i ∈ names) then VUndef else prune names t)
                     :: all (S i) items
               end) j items
            = imap (λ i t, if decide (pretty (j + i) ∈ names) then VUndef else prune names t)
                items).
  { clear items. intros j items. revert j.
    induction items as [|t items IH]; intros j; [done|].
    rewrite imap_cons, IH. rewrite Nat.add_0_r. f_equal.
    apply imap_ext. intros i x _. simpl. by rewrite Nat.add_succ_r. }
  by rewrite Hall.
Qed.

Section Pruned.
Variables (n : nat) (h h3 : heap).

Lemma pruned_fields (cs : list (string * hval)) (l : nat) :
  h !! l = Some (CObj cs) →
  (∀ l' c, visited h names (HRef l) l' → h !! l' = Some c →
           h3 !! l' = Some (prune_cell names c)) →
  ∀ fields cs', Forall (λ kv, prunes names n h h3 kv.2) fields →
    Forall2 (λ f c, f.1 = c.1 ∧ represents n h f.2 c.2) fields cs' →
    (∀ kv, kv ∈ cs' → kv ∈ cs) →
    Forall2 (λ f c, f.1 = c.1 ∧ represents n h3 f.2 c.2)
      ((λ kv, (kv.1, prune names kv.2)) <$> filter (λ kv, kv.1 ∉ names) fields)
      (filter (λ kv, kv.1 ∉ names) cs').
Proof.
  intros Hcell Hvis fields cs' IH Hall.
  induction Hall as [|[k t] [k' c] fields cs' [Hk Ht] Hall IHall]; intros Hsub;
    [constructor|].
  apply Forall_cons in IH as [IHt IH]. simpl in Hk, Ht, IHt. subst k'.
  rewrite !filter_cons. cbn [fst].
  assert (Hrest : ∀ kv, kv ∈ cs' → kv ∈ cs) by (intros kv ?; apply Hsub; by right).
  destruct (decide (k ∉ names)) as [Hnotin|Hin]; [|by apply IHall].
  rewrite fmap_cons. constructor; [|by apply IHall].
  split; [done|]. cbn [snd]. apply IHt; [done|].
  intros l' c' Hvis'. apply Hvis.
  eapply visited_under; [done| |done|done]. apply Hsub. left.
Qed.

Lemma pruned_items (cs : list hval) (l : nat) (items : list value) :
  h !! l = Some (CArr cs) →
  (∀ l' c, visited h names (HRef l) l' → h !! l' = Some c →
           h3 !! l' = Some (prune_cell names c)) →
  Forall (prunes names n h h3) items →
  Forall2 (represents n h) items cs →
  Forall2 (represents n h3)
    (imap (λ i t, if decide (pretty i ∈ names) then VUndef else prune names t) items)
    (imap (λ i x, if decide (pretty i ∈ names) then HUndef else x) cs).
Proof.
  intros Hcell Hvis IH Hall.
  apply Forall2_same_length_lookup. split.
  { rewrite !length_imap. by eapply Forall2_length. }
  intros i t' c'. rewrite !list_lookup_imap.
  destruct (items !! i) as [t|] eqn:Ht; [|done].
  destruct (cs !! i) as [c|] eqn:Hc; [|done].
  cbn [fmap option_fmap option_map]. intros [= <-] [= <-].
  destruct (decide (pretty i ∈ names)) as [Hin|Hnotin]; [done|].
  rewrite Forall_forall in IH. apply (IH t); [by eapply list_elem_of_lookup_2| |].
  - by eapply (Forall2_lookup_lr _ _ _ _ _ _ Hall).
  - intros l' c0 Hvis'. apply Hvis.
    eapply (visited_under _ _ _ _ (pretty i) c); [done| |done|done].
    cbn [cell_entries]. apply list_elem_of_lookup. exists i.
    by rewrite list_lookup_imap, Hc.
Qed.

(** The tree of a pruned value, in a heap that holds the pruned cells. *)
Lemma prune_represents (t : value) : prunes names n h h3 t.
Proof.
  induction t as [| |b|z|s|name|items props IHitems _|fields IH] using value_nested_ind;
    try (by intros v Hv _).
  - intros v (-> & l & cs & -> & Hl & Hcell & Hall)%represents_arr Hvis.
    pose proof (pruned_items cs l items Hcell Hvis IHitems Hall) as Hitems.
    assert (Hroot : h3 !! l = Some (prune_cell names (CArr cs)))
      by (apply Hvis; [by eapply visited_here|done]).
    assert (Hkeys : (indexed items).*1 = (cell_entries (CArr cs)).*1).
    { apply index_names_length. by eapply Forall2_length. }
    rewrite prune_arr, Hkeys. unfold prune_cell in Hroot.
    case_bool_decide as Hex.
    + apply represents_arr. split; [done|]. eexists l, _.
      repeat split; [done|exact Hroot|].
      apply Forall2_filter; [|done]. intros t c Hrep.
      by apply (represents_undefined n h3).
    + apply represents_arr. split; [done|]. exists l, cs.
      repeat split; [done|done|].
      assert (Hid : imap (λ i x, if decide (pretty i ∈ names) then HUndef else x) cs = cs);
        [|by rewrite Hid in Hitems].
      apply list_eq. intros i. rewrite list_lookup_imap.
      destruct (cs !! i) as [c|] eqn:Hc; [|done]. cbn [fmap option_fmap option_map].
      rewrite decide_False; [done|]. intros Hin. apply Hex, Exists_exists.
      exists (pretty i). split; [|done].
      apply (list_elem_of_fmap_2' fst _ (pretty i, c)); [|done].
      cbn [cell_entries]. apply list_elem_of_lookup. exists i.
      by rewrite list_lookup_imap, Hc.
  - intros v (l & cs & -> & Hl & Hcell & Hall)%represents_obj Hvis.
    rewrite prune_obj. apply represents_obj.
    exists l, (filter (λ kv, kv.1 ∉ names) cs). repeat split; [done| |].
    + rewrite <- prune_cell_obj. apply Hvis; [by eapply visited_here|done].
    + by apply (pruned_fields cs l Hcell Hvis).
Qed.

End Pruned.

End PruneFacts.

Section BlacklistFacts.
Import DataFilter.
Variable names : list string.

(** The cells visited from a tree are the cells of the tree. *)
Lemma visited_range (t : value) :
  ∀ n hb ext v l,
    represents n hb t v → visited (hb ++ ext) names v l → (n ≤ l < length hb)%nat.
Proof.
  induction t as [| |b|z|s|name|items props IHitems _|fields IH] using value_nested_ind;
    intros n hb ext v l Hrep Hvis;
    try (cbn [represents] in Hrep; by destruct Hvis).
  - apply represents_arr in Hrep as (_ & l0 & cs & -> & Hl & Hcell & Hall).
    inversion Hvis as [l1 c1 Hc1|l1 c1 k v' l' Hc1 Hin Hk Hvis']; subst.
    + split; [done|]. by eapply lookup_lt_Some.
    + rewrite (lookup_app_l_Some _ _ _ _ Hcell) in Hc1. injection Hc1 as <-.
      cbn [cell_entries] in Hin. apply list_elem_of_lookup in Hin as [i Hi].
      rewrite list_lookup_imap in Hi. destruct (cs !! i) as [c|] eqn:Hc; [|done].
      injection Hi as _ <-.
      destruct (Forall2_lookup_r _ _ _ _ _ Hall Hc) as (t & Ht & Hrep).
      rewrite Forall_forall in IHitems.
      by eapply (IHitems t); [eapply list_elem_of_lookup_2|..].
  - apply represents_obj in Hrep as (l0 & cs & -> & Hl & Hcell & Hall).
    inversion Hvis as [l1 c1 Hc1|l1 c1 k v' l' Hc1 Hin Hk Hvis']; subst.
    + split; [done|]. by eapply lookup_lt_Some.
    + rewrite (lookup_app_l_Some _ _ _ _ Hcell) in Hc1. injection Hc1 as <-.
      cbn [cell_entries] in Hin. apply list_elem_of_lookup in Hin as [i Hi].
      destruct (Forall2_lookup_r _ _ _ _ _ Hall Hi) as ([k' t] & Ht & _ & Hrep).
      rewrite Forall_forall in IH.
      by eapply (IH (k', t)); [eapply list_elem_of_lookup_2|..].
Qed.

Lemma keys_matched_elem (ms : list deep_match) (l : nat) (k : string) :
  k ∈ keys_matched ms l ↔ {| data := l; key := k |} ∈ ms.
Proof.
  unfold keys_matched. rewrite list_elem_of_fmap. split.
  - intros ([dm km] & -> & [Hd Hin]%list_elem_of_filter). simpl in *. by subst.
  - intros Hin. exists {| data := l; key := k |}. split; [done|].
    by apply list_elem_of_filter.
Qed.

Lemma data_matched_elem (ms : list deep_match) (l : nat) :
  l ∈ data <$> ms ↔ ∃ k, {| data := l; key := k |} ∈ ms.
Proof.
  rewrite list_elem_of_fmap. split.
  - intros ([dm km] & -> & Hin). by exists km.
  - intros [k Hin]. by exists {| data := l; key := k |}.
Qed.

(** [_applyBlacklist] prunes the cells it visits and leaves the others. *)
Lemma applyBlacklist_cells (h : heap) (v : hval) (ms : list deep_match) :
  matches_of h names v ms →
  (∀ l c, visited h names v l → h !! l = Some c →
          fold_left reindex_match ms (fold_left delete_match ms h) !! l
          = Some (prune_cell names c))
  ∧ (∀ l, ¬ visited h names v l →
          fold_left reindex_match ms (fold_left delete_match ms h) !! l = h !! l).
Proof.
  intros Hms. split.
  - intros l c Hvis Hcell. rewrite applyBlacklist_lookup, Hcell.
    cbn [fmap option_fmap option_map]. f_equal.
    assert (Hkeys : ∀ k, k ∈ (cell_entries c).*1 → (k ∈ keys_matched ms l ↔ k ∈ names)).
    { intros k Hk. rewrite keys_matched_elem, (Hms {| data := l; key := k |}).
      cbn [data key]. split; [by intros (_ & c' & _ & _ & ?)|].
      intros Hin. split; [done|]. by exists c. }
    rewrite (delete_keys_ext _ _ _ Hkeys). unfold prune_cell.
    case_bool_decide as Hex.
    + rewrite decide_True; [done|]. apply Exists_exists in Hex as (k & Hk & Hin).
      apply data_matched_elem. exists k. apply Hms. cbn [data key].
      split; [done|]. by exists c.
    + rewrite decide_False.
      * by apply delete_keys_none.
      * intros [k Hin]%data_matched_elem. apply Hms in Hin as (_ & c' & Hc' & Hk & Hn).
        cbn [data key] in *. rewrite Hcell in Hc'. injection Hc' as <-.
        apply Hex, Exists_exists. by exists k.
  - intros l Hnot. rewrite applyBlacklist_lookup.
    destruct (h !! l) as [c|]; [|done]. cbn [fmap option_fmap option_map]. f_equal.
    assert (Hnone : ∀ k, {| data := l; key := k |} ∉ ms).
    { intros k Hin. apply Hms in Hin as [Hvis _]. by apply Hnot. }
    rewrite decide_False by (intros [k Hin]%data_matched_elem; by eapply Hnone).
    rewrite <- (delete_keys_nil c) at 2. apply delete_keys_ext.
    intros k _. rewrite keys_matched_elem. split; [by intros ?%Hnone|by intros ?%elem_of_nil].
Qed.

End BlacklistFacts.

Section ApplyFacts.
Import DataFilter.

Lemma represents_lower (n n' : nat) (h : heap) (t : value) (v : hval) :
  (n' ≤ n)%nat → represents n h t v → represents n' h t v.
Proof.
  intros Hn Hrep. rewrite <- (app_nil_r h). by apply (represents_mono t n).
Qed.

(** The copy of the fields of a data context, seen from its [data] field:
    the field has a block of its own, from [a] to the end of [hb], and the
    other fields stand for what they stood for in any heap that differs from
    [h'] inside this block only. *)
Lemma copied_fields_data (fields : obj) :
  ∀ h cs h', copied_fields h fields cs h' →
    match obj_lookup "data" cs with
    | None => obj_lookup "data" fields = None
    | Some d =>
        ∃ d_tree a hb,
          obj_lookup "data" fields = Some d_tree
          ∧ (length h ≤ a)%nat ∧ (∃ ext, h' = hb ++ ext)
          ∧ represents a hb d_tree d
          ∧ ∀ h3 d_tree',
              (∀ l, (l < a ∨ length hb ≤ l)%nat → (l < length h')%nat →
                    h3 !! l = h' !! l) →
              represents a h3 d_tree' d →
              Forall2 (λ f c, f.1 = c.1 ∧ represents (length h) h3 f.2 c.2)
                (obj_set "data" d_tree' fields) cs
    end.
Proof.
  induction fields as [|[k t] fields IH]; intros h [|[k' c] cs] h'; simpl; try done.
  intros (<- & block & Ht & Hrest).
  destruct (copied_fields_Forall2 _ _ _ _ Hrest) as [[ext ->] Hall].
  destruct (decide (k = "data")) as [->|Hne].
  - exists t, (length h), (h ++ block). repeat split; [done|by exists ext|done|].
    intros h3 d_tree' Hagree Hd. constructor; [done|].
    eapply Forall2_impl; [exact Hall|]. intros f c' [Hk Hf]. split; [done|].
    apply (represents_lower (length (h ++ block))); [rewrite length_app; lia|].
    eapply represents_agree; [|exact Hf]. intros l Hl Hlt. apply Hagree; [by right|done].
  - specialize (IH _ _ _ Hrest).
    destruct (obj_lookup "data" cs) as [d|]; [|done].
    destruct IH as (d_tree & a & hb & Hl & Ha & Hext & Hd & Hothers).
    rewrite length_app in Ha.
    exists d_tree, a, hb. repeat split; [done|lia|done|done|].
    intros h3 d_tree' Hagree Hd'. constructor.
    + split; [done|]. cbn [fst snd]. eapply represents_agree; [|exact Ht].
      intros l Hl1 Hl2. rewrite Hagree.
      * by rewrite lookup_app_l.
      * left. rewrite length_app in Hl2. lia.
      * rewrite !length_app in *. lia.
    + eapply Forall2_impl; [exact (Hothers h3 d_tree' Hagree Hd')|].
      intros f c' [Hk Hf]. split; [done|].
      apply (represents_lower (length (h ++ block))); [rewrite length_app; lia|done].
Qed.

Lemma depth_member (fields : obj) (k : string) (t : value) (fuel : nat) :
  (depth (VObj fields) ≤ fuel)%nat → obj_lookup k fields = Some t → (depth t ≤ fuel)%nat.
Proof.
  intros Hd Hl. destruct (depth_pos_obj _ _ Hd) as [fuel' ->].
  pose proof (depth_obj _ _ Hd) as Hall. rewrite Forall_forall in Hall.
  apply obj_lookup_elem_of in Hl. specialize (Hall _ Hl). simpl in Hall. lia.
Qed.

Lemma keys_at_agree (h h' : heap) (l : nat) :
  h' !! l = h !! l → keys_at h' l = keys_at h l.
Proof. unfold keys_at. by intros ->. Qed.

End ApplyFacts.

Section ApplyTheorems.
Import DataFilter.

Lemma fold_blacklist_length (ms : list deep_match) (h : heap) :
  length (fold_left reindex_match ms (fold_left delete_match ms h)) = length h.
Proof.
  assert (Hd : ∀ ms h, length (fold_left delete_match ms h) = length h).
  { clear. induction ms as [|m ms IH]; intros h; [done|].
    cbn [fold_left]. rewrite IH. unfold delete_match. apply length_alter. }
  assert (Hr : ∀ ms h, length (fold_left reindex_match ms h) = length h).
  { clear. induction ms as [|m ms IH]; intros h; [done|].
    cbn [fold_left]. rewrite IH. unfold reindex_match. apply length_alter. }
  by rewrite Hr, Hd.
Qed.

(** One call of [apply] on a data context that is an object. *)
Lemma apply_once (fuel : nat) (this : t) (h : heap) (dataCtx : hval) (fields : obj) :
  represents 0 h (VObj fields) dataCtx →
  (depth (VObj fields) ≤ fuel)%nat →
  (blacklist this < length h)%nat →
  ∃ h' copy,
    apply fuel this h dataCtx = Some (Ok (h', copy))
    ∧ (∀ l, (l < length h)%nat → h' !! l = h !! l)
    ∧ (length h ≤ length h')%nat
    ∧ represents (length h) h' (filtered (keys_at h (blacklist this)) (VObj fields)) copy.
Proof.
  intros Hrep Hdepth Hbl.
  assert (Hcopies : Forall (λ kv, copies kv.2) fields)
    by (apply Forall_forall; intros kv _; apply deepCopy_copies).
  destruct (deepCopy_object fuel 0 h fields dataCtx Hcopies Hrep Hdepth)
    as (hc & cs & Hcopy & Hcopied).
  destruct (copied_fields_Forall2 _ _ _ _ Hcopied) as [[block ->] Hall].
  set (hc := h ++ block) in *. set (h1 := hc ++ [CObj cs]).
  assert (Hroot : h1 !! length hc = Some (CObj cs)) by (by apply list_lookup_middle).
  assert (Hnames : keys_at h1 (blacklist this) = keys_at h (blacklist this)).
  { apply keys_at_agree. unfold h1, hc. by rewrite <- app_assoc, lookup_app_l. }
  unfold apply. rewrite Hcopy. cbn [mbind option_bind get_data]. fold h1.
  rewrite Hroot. unfold _applyBlacklist. rewrite Hnames.
  set (names := keys_at h (blacklist this)).
  pose proof (copied_fields_data fields h cs hc Hcopied) as Hdata.
  destruct (obj_lookup "data" cs) as [d|] eqn:Hd; cbn [default id].
  - destruct Hdata as (d_tree & a & hb & Hl & Ha & [ext Hext] & Hdrep & Hothers).
    assert (Hh1 : h1 = hb ++ (ext ++ [CObj cs])) by (unfold h1; by rewrite Hext, <- app_assoc).
    assert (Hd1 : represents a h1 d_tree d).
    { rewrite Hh1. by apply (represents_mono d_tree a). }
    destruct (getDeepMatches_scans names d_tree fuel a h1 d Hd1) as (ms & Hms & Hspec);
      [by eapply depth_member|].
    rewrite Hms. cbn [mbind option_bind].
    set (h3 := fold_left reindex_match ms (fold_left delete_match ms h1)).
    destruct (applyBlacklist_cells names h1 d ms Hspec) as [Hpruned Hkept]. fold h3 in Hpruned, Hkept.
    assert (Hrange : ∀ l, visited h1 names d l → (a ≤ l < length hb)%nat).
    { intros l Hvis. rewrite Hh1 in Hvis. by eapply visited_range. }
    assert (Houtside : ∀ l, (l < a ∨ length hb ≤ l)%nat → h3 !! l = h1 !! l).
    { intros l Hl'. apply Hkept. intros Hvis%Hrange. lia. }
    assert (Hhb : (length hb ≤ length hc)%nat).
    { rewrite Hext, length_app. lia. }
    exists h3, (HRef (length hc)). repeat split.
    + intros l Hlt. rewrite Houtside by lia. unfold h1, hc.
      by rewrite <- app_assoc, lookup_app_l.
    + unfold h3. rewrite fold_blacklist_length. unfold h1, hc. rewrite !length_app. lia.
    + cbn [filtered]. rewrite Hl. apply represents_obj.
      exists (length hc), cs. repeat split.
      * unfold hc. rewrite length_app. lia.
      * rewrite Houtside by lia. exact Hroot.
      * apply Hothers.
        -- intros l Hl' Hlt. rewrite Houtside by done. unfold h1. by rewrite lookup_app_l.
        -- by apply (prune_represents names a h1 h3 d_tree d).
  - assert (Hms : getDeepMatches fuel h1 HUndef names = Some []) by (by destruct fuel).
    rewrite Hms. cbn [mbind option_bind fold_left].
    exists h1, (HRef (length hc)). repeat split.
    + intros l Hlt. unfold h1, hc. by rewrite <- app_assoc, lookup_app_l.
    + unfold h1, hc. rewrite !length_app. lia.
    + cbn [filtered]. rewrite Hdata. apply represents_obj.
      exists (length hc), cs. repeat split; [unfold hc; rewrite length_app; lia|done|].
      eapply Forall2_impl; [exact Hall|]. intros f c [Hk Hf]. split; [done|].
      by apply (represents_mono _ (length h)).
Qed.

(** C7: [apply] on a data context returns a copy, in new cells, that stands
    for the filtered tree; every cell the caller had, the data context and
    the blacklist of the filter among them, is as it was; and a second
    [apply] on the same data context returns a copy that stands for the same
    tree. *)
Theorem apply_filtered_copy (fuel : nat) (this : t) (h : heap) (dataCtx : hval)
    (fields : obj) :
  represents 0 h (VObj fields) dataCtx →
  (depth (VObj fields) ≤ fuel)%nat →
  (blacklist this < length h)%nat →
  ∃ h' copy,
    apply fuel this h dataCtx = Some (Ok (h', copy))
    ∧ (∀ l, (l < length h)%nat → h' !! l = h !! l)
    ∧ represents 0 h' (VObj fields) dataCtx
    ∧ keys_at h' (blacklist this) = keys_at h (blacklist this)
    ∧ represents (length h) h' (filtered (keys_at h (blacklist this)) (VObj fields)) copy
    ∧ ∃ h'' copy',
        apply fuel this h' dataCtx = Some (Ok (h'', copy'))
        ∧ represents (length h') h''
            (filtered (keys_at h (blacklist this)) (VObj fields)) copy'.
Proof.
  intros Hrep Hdepth Hbl.
  destruct (apply_once fuel this h dataCtx fields Hrep Hdepth Hbl)
    as (h' & copy & Happly & Hframe & Hlen & Hcopy).
  assert (Hrep' : represents 0 h' (VObj fields) dataCtx).
  { eapply represents_agree; [|exact Hrep]. intros l _ Hlt. by apply Hframe. }
  assert (Hnames : keys_at h' (blacklist this) = keys_at h (blacklist this))
    by (by apply keys_at_agree, Hframe).
  exists h', copy. repeat split; try done.
  destruct (apply_once fuel this h' dataCtx fields Hrep' Hdepth)
    as (h'' & copy' & Happly' & _ & _ & Hcopy'); [lia|].
  exists h'', copy'. split; [done|]. by rewrite <- Hnames.
Qed.

End ApplyTheorems.

Section GlobalFilters.
Import DataFilter.

Lemma is_string_spec (s : string) (v : value) : is_string s v = true ↔ v = VStr s.
Proof.
  destruct v; simpl; try (split; [done|by intros [=]]).
  rewrite bool_decide_eq_true. split; [by intros ->|by intros [= ->]].
Qed.

(** Nothing is pruned with an empty blacklist. *)
Lemma prune_nil (t : value) : prune [] t = t.
Proof.
  induction t as [| |b|z|s|name|items props IHitems _|fields IH] using value_nested_ind;
    try done.
  - rewrite prune_arr. rewrite bool_decide_false.
    + f_equal. apply list_eq. intros i. rewrite list_lookup_imap.
      destruct (items !! i) as [t|] eqn:Hi; [|done]. cbn [fmap option_fmap option_map].
      rewrite decide_False by apply not_elem_of_nil. f_equal.
      rewrite Forall_forall in IHitems. apply IHitems. by eapply list_elem_of_lookup_2.
    + intros (k & _ & []%elem_of_nil)%Exists_exists.
  - rewrite prune_obj. f_equal.
    rewrite filter_all by (intros kv _; apply not_elem_of_nil).
    induction fields as [|[k t] fields IHf]; [done|].
    apply Forall_cons in IH as [Ht IH]. rewrite fmap_cons. cbn [fst snd] in *.
    by rewrite Ht, IHf.
Qed.

Lemma filtered_nil (t : value) : filtered [] t = t.
Proof.
  destruct t as [| | | | | | |fields]; try done. cbn [filtered].
  destruct (obj_lookup "data" fields) as [d|] eqn:Hd; [|done].
  rewrite prune_nil. f_equal.
  induction fields as [|[k t] fields IH]; [done|]. cbn [obj_set obj_lookup] in *.
  destruct (decide (k = "data")) as [->|Hne]; [by injection Hd as ->|].
  by rewrite IH.
Qed.

(** A pruned object keeps the keys that are not in the blacklist, in their
    order. *)
Lemma prune_obj_keys (names : list string) (fields : obj) :
  ∃ fields', prune names (VObj fields) = VObj fields'
             ∧ obj_keys fields' = filter (λ k, k ∉ names) (obj_keys fields).
Proof.
  eexists. split; [apply prune_obj|]. unfold obj_keys.
  induction fields as [|[k t] fields IH]; [done|].
  rewrite (fmap_cons fst), !filter_cons. cbn [fst].
  destruct (decide (k ∉ names)); [|exact IH].
  rewrite !fmap_cons. cbn [fst]. by rewrite IH.
Qed.

(** C6: the filter constructed from a sink configuration has [tmstats] in
    its blacklist if and only if the configuration is not of type [Splunk]
    with the format [legacy]; [apply] then returns a copy whose data has the
    top-level keys of the data without [tmstats], and for that one
    combination it returns a copy of the data context as it is. *)
Theorem new_blacklists_tmstats (h : heap) (consumerConfig type_ config format : value) :
  get_member consumerConfig "type" = Ok type_ →
  get_member consumerConfig "config" = Ok config →
  get_member config "format" = Ok format →
  ∃ this h0,
    new h consumerConfig = Ok (h0, this)
    ∧ (blacklist this < length h0)%nat
    ∧ ("tmstats" ∈ keys_at h0 (blacklist this)
       ↔ ¬ (type_ = VStr "Splunk" ∧ format = VStr "legacy"))
    ∧ ∀ (fuel : nat) (h1 : heap) (dataCtx : hval) (fields data_ : obj),
        (length h0 ≤ length h1)%nat →
        h1 !! blacklist this = h0 !! blacklist this →
        represents 0 h1 (VObj fields) dataCtx →
        obj_lookup "data" fields = Some (VObj data_) →
        (depth (VObj fields) ≤ fuel)%nat →
        ∃ h' copy data',
          apply fuel this h1 dataCtx = Some (Ok (h', copy))
          ∧ represents (length h1) h' (VObj (obj_set "data" (VObj data') fields)) copy
          ∧ if is_string "Splunk" type_ && is_string "legacy" format
            then data' = data_
            else obj_keys data' = filter (λ k, k ≠ "tmstats") (obj_keys data_).
Proof.
  intros Htype Hconfig Hformat.
  set (legacy := is_string "Splunk" type_ && is_string "legacy" format).
  set (bl := if legacy then [] else [("tmstats", HBool true)]).
  assert (Hnew : new h consumerConfig
                 = Ok (h ++ [CObj bl], {| _consumerConfig := consumerConfig;
                                          blacklist := length h |})).
  { unfold new, _applyGlobalFilters, bl, legacy. cbv zeta.
    rewrite deepCopy_value, Htype, bind_Ok_l.
    destruct (is_string "Splunk" type_); [|done]. cbn [negb andb].
    rewrite Hconfig, bind_Ok_l, Hformat, bind_Ok_l.
    by destruct (is_string "legacy" format). }
  assert (Hlegacy : legacy = true ↔ type_ = VStr "Splunk" ∧ format = VStr "legacy").
  { unfold legacy. by rewrite andb_true_iff, !is_string_spec. }
  assert (Hkeys : keys_at (h ++ [CObj bl]) (length h) = bl.*1).
  { unfold keys_at. by rewrite list_lookup_middle. }
  eexists _, _. split; [exact Hnew|]. cbn [blacklist]. split; [rewrite length_app; simpl; lia|].
  split.
  { rewrite Hkeys, <- Hlegacy. unfold bl. destruct legacy.
    - split; [by intros ?%elem_of_nil|]. by intros [].
    - split; [done|]. intros _. apply list_elem_of_here. }
  intros fuel h1 dataCtx fields data_ Hlen Hcell Hrep Hdata Hdepth.
  destruct (apply_once fuel {| _consumerConfig := consumerConfig; blacklist := length h |}
              h1 dataCtx fields Hrep Hdepth)
    as (h' & copy & Happly & _ & _ & Hcopy).
  { cbn [blacklist]. rewrite length_app in Hlen. simpl in Hlen. lia. }
  cbn [blacklist] in Hcopy.
  rewrite (keys_at_agree _ _ _ Hcell), Hkeys in Hcopy.
  cbn [filtered] in Hcopy. rewrite Hdata in Hcopy.
  destruct (prune_obj_keys bl.*1 data_) as (data' & Hprune & Hdata').
  rewrite Hprune in Hcopy. exists h', copy, data'. split; [done|]. split; [done|].
  fold legacy. unfold bl in *. destruct legacy.
  - cbn [fmap list_fmap] in Hprune. rewrite prune_nil in Hprune. by injection Hprune as <-.
  - rewrite Hdata'. apply list_filter_iff. intros k. cbn [fmap list_fmap fst].
    by rewrite list_elem_of_singleton.
Qed.

End GlobalFilters.

Section FilterWitnesses.
Import DataFilter.

Lemma sample_heap_represents (ext : heap) :
  represents 0 (sample_heap ++ ext) (VObj sample_dataCtx) (HRef 3).
Proof.
  apply (represents_mono _ 0); [done|].
  cbn [represents sample_dataCtx].
  repeat first [reflexivity | lia | eexists | split].
Qed.

Lemma new_blacklists_tmstats_witness :
  let kafka := VObj [("type", VStr "Kafka"); ("config", VObj [("format", VStr "default")])] in
  ∃ this h0 h' copy data',
    new sample_heap kafka = Ok (h0, this)
    ∧ "tmstats" ∈ keys_at h0 (blacklist this)
    ∧ apply 3 this h0 (HRef 3) = Some (Ok (h', copy))
    ∧ represents (length h0) h' (VObj (obj_set "data" (VObj data') sample_dataCtx)) copy
    ∧ obj_keys data' = ["system"].
Proof.
  intros kafka.
  destruct (new_blacklists_tmstats sample_heap kafka (VStr "Kafka")
              (VObj [("format", VStr "default")]) (VStr "default")
              eq_refl eq_refl eq_refl)
    as (this & h0 & Hnew & _ & Htmstats & Happly).
  assert (Hh0 : h0 = sample_heap ++ [CObj [("tmstats", HBool true)]])
    by (vm_compute in Hnew; by injection Hnew as <- _).
  destruct (Happly 3 h0 (HRef 3) sample_dataCtx
              [("tmstats", VObj [("cpu", VNum 7)]);
               ("system", VObj [("hostname", VStr "bigip1")])])
    as (h' & copy & data' & Hcopy & Hrep & Hkeys);
    [lia|done|rewrite Hh0; apply sample_heap_represents|done|vm_compute; lia|].
  exists this, h0, h', copy, data'. split; [done|]. split.
  - apply Htmstats. by intros [[=] _].
  - repeat split; [done|done|]. rewrite Hkeys. by vm_compute.
Defined.

Lemma apply_filtered_copy_witness :
  let this := {| _consumerConfig := VObj [("type", VStr "Kafka")]; blacklist := 4 |} in
  let h := sample_heap ++ [CObj [("tmstats", HBool true)]] in
  ∃ h' copy,
    apply 3 this h (HRef 3) = Some (Ok (h', copy))
    ∧ (∀ l, (l < length h)%nat → h' !! l = h !! l)
    ∧ represents 0 h' (VObj sample_dataCtx) (HRef 3)
    ∧ keys_at h' (blacklist this) = keys_at h (blacklist this)
    ∧ represents (length h) h'
        (filtered (keys_at h (blacklist this)) (VObj sample_dataCtx)) copy
    ∧ ∃ h'' copy',
        apply 3 this h' (HRef 3) = Some (Ok (h'', copy'))
        ∧ represents (length h') h''
            (filtered (keys_at h (blacklist this)) (VObj sample_dataCtx)) copy'.
Proof.
  intros this h.
  apply (apply_filtered_copy 3 this h (HRef 3) sample_dataCtx).
  - apply sample_heap_represents.
  - vm_compute. lia.
  - vm_compute. lia.
Defined.

End FilterWitnesses.

(** ** Keys ([SystemStats.prototype._splitKey]) *)

Lemma append_nil_l (t : string) : "" +:+ t = t.
Proof. reflexivity. Qed.

Lemma append_cons (c : Ascii.ascii) (a b : string) : String c a +:+ b = String c (a +:+ b).
Proof. reflexivity. Qed.

Lemma prefix_append (p s : string) :
  String.prefix p s = true → ∃ t, s = p +:+ t.
Proof.
  revert s. induction p as [|a p IH]; intros s Hp.
  - by exists s.
  - destruct s as [|c s]; [done|]. cbn [String.prefix] in Hp.
    destruct (Ascii.ascii_dec a c) as [->|]; [|done].
    destruct (IH _ Hp) as [t ->]. by exists t.
Qed.

Lemma append_assoc (a b c : string) : (a +:+ b) +:+ c = a +:+ (b +:+ c).
Proof.
  induction a as [|x a IH]; [done|]. rewrite !append_cons. by rewrite IH.
Qed.

Lemma append_nil_r (a : string) : a +:+ "" = a.
Proof. induction a as [|x a IH]; [done|]. by rewrite append_cons, IH. Qed.

Lemma split_go_nonempty (sep : string) (s : string) :
  ∀ skip cur, split_go sep skip cur s ≠ [].
Proof.
  induction s as [|c s IH]; intros skip cur; cbn [split_go]; [done|].
  destruct skip; [|apply IH]. destruct (String.prefix sep _); [done|apply IH].
Qed.

Lemma concat_cons (sep x : string) (l : list string) :
  l ≠ [] → String.concat sep (x :: l) = x +:+ sep +:+ String.concat sep l.
Proof. by destruct l. Qed.

(** [split] then [join]: the pieces, put together with the separator, are
    the string again. *)
Lemma split_go_concat (sep : string) (s : string) :
  sep ≠ "" →
  ∀ skip cur pre t, s = pre +:+ t → String.length pre = skip →
    String.concat sep (split_go sep skip cur s) = cur +:+ t.
Proof.
  intros Hsep. induction s as [|c s IH]; intros skip cur pre t Hs Hlen.
  - destruct pre; [|done]. rewrite append_nil_l in Hs. subst t.
    cbn [split_go String.concat]. by rewrite append_nil_r.
  - destruct skip as [|n].
    + destruct pre; [|done]. rewrite append_nil_l in Hs. subst t.
      cbn [split_go]. destruct (String.prefix sep (String c s)) eqn:Hp.
      * rewrite concat_cons by apply split_go_nonempty.
        destruct sep as [|a sep']; [done|].
        apply prefix_append in Hp as [t' Ht']. rewrite append_cons in Ht'.
        injection Ht' as -> ->.
        rewrite (IH _ "" sep' t' eq_refl); [|cbn [String.length]; lia].
        by rewrite append_nil_l.
      * rewrite (IH 0%nat _ "" s eq_refl eq_refl).
        by rewrite append_assoc.
    + destruct pre as [|c' pre]; [done|]. rewrite append_cons in Hs.
      cbn [String.length] in Hlen. injection Hs as -> ->.
      cbn [split_go]. apply (IH _ _ pre); [done|lia].
Qed.

Section SplitKey.
Context `{Collaborators}.

(** X1: for a non-empty separator, [_splitKey] of a string key returns a
    root key and a child key from which the key is put together again: the
    key is the root key when there is no child key, and the root key, the
    separator and the child key otherwise. *)
Theorem splitKey_round_trip (s : string) :
  STATS_KEY_SEP ≠ "" →
  ∃ rootKey childKey,
    _splitKey (VStr s) = Ok (VStr rootKey, childKey)
    ∧ ((childKey = VUndef ∧ s = rootKey)
       ∨ ∃ c, childKey = VStr c ∧ s = rootKey +:+ STATS_KEY_SEP +:+ c).
Proof.
  intros Hsep. unfold _splitKey, string_split. rewrite decide_False by done.
  pose proof (split_go_concat STATS_KEY_SEP s Hsep 0 "" "" s eq_refl eq_refl) as Hcat.
  pose proof (split_go_nonempty STATS_KEY_SEP s 0 "") as Hne.
  destruct (split_go STATS_KEY_SEP 0 "" s) as [|rootKey splitKeys]; [done|].
  rewrite append_nil_l in Hcat.
  exists rootKey. eexists. split; [done|].
  destruct splitKeys as [|x rest].
  - left. split; [done|]. by rewrite <- Hcat.
  - right. exists (String.concat STATS_KEY_SEP (x :: rest)).
    split; [by rewrite decide_True by (cbn [length]; lia)|].
    rewrite <- Hcat. by apply concat_cons.
Qed.

End SplitKey.

Lemma splitKey_round_trip_witness :
  let H := sample (VObj []) [] in
  ∃ rootKey childKey,
    _splitKey (VStr "deviceInfo::hostname") = Ok (VStr rootKey, childKey)
    ∧ ((childKey = VUndef ∧ "deviceInfo::hostname" = rootKey)
       ∨ ∃ c, childKey = VStr c
              ∧ "deviceInfo::hostname" = rootKey +:+ STATS_KEY_SEP +:+ c).
Proof.
  intros H. apply (@splitKey_round_trip H "deviceInfo::hostname"). done.
Defined.

(** ** Loading one property ([_loadData], [_processData], [_renderProperty]) *)

Lemma obj_get_obj_set (k k' : string) (v : value) (o : obj) :
  obj_get k' (obj_set k v o) = if decide (k = k') then v else obj_get k' o.
Proof.
  unfold obj_get. rewrite obj_lookup_obj_set. by destruct (decide (k = k')).
Qed.

Section LoadFacts.
Context `{Collaborators}.

Lemma splitKey_string (s : string) :
  ∃ rootKey childKey, _splitKey (VStr s) = Ok (rootKey, childKey).
Proof.
  unfold _splitKey. destruct (string_split STATS_KEY_SEP s); eauto.
Qed.

Lemma splitKey_not_string (k : value) :
  (∀ s, k ≠ VStr s) → _splitKey k = Throw (TypeError "key.split is not a function").
Proof. intros Hk. destruct k; try done. by destruct (Hk s). Qed.

(** X2: a property whose [key] is not a string cannot be loaded: the promise
    of [_loadData] is rejected with a [TypeError] whatever the loader would
    answer, and [_processProperty] logs the failure and rejects with the
    same error, storing nothing. *)
Theorem loadData_key_not_string (this_tags_ : value) (collectedData : obj) (key_ : string)
    (fields : obj) :
  (∀ s, obj_get "key" fields ≠ VStr s) →
  ∃ msg,
    _loadData (VObj fields) = Rejected (TypeError msg)
    ∧ processProperty_settle this_tags_ collectedData key_ (VObj fields)
      = (Rejected (TypeError msg),
         [processProperty_error key_ (VObj fields) (TypeError msg)]).
Proof.
  intros Hk. eexists.
  assert (Hload : _loadData (VObj fields)
                  = Rejected (TypeError "key.split is not a function")).
  { unfold _loadData. cbn [get_member]. rewrite bind_Ok_l.
    by rewrite splitKey_not_string. }
  split; [exact Hload|]. unfold processProperty_settle. by rewrite Hload.
Qed.

(** X3: when the loader answers without an error and with an object under
    [data], [_loadData] resolves with that object, in which [items] is always
    set: the answer is passed on as it is when it has items, and it gets an
    empty array under [items], every other member unchanged, when it has
    none. *)
Theorem loadData_items_default (fields resp d : obj) (s rootKey : string)
    (childKey err : value) :
  obj_get "key" fields = VStr s →
  _splitKey (VStr s) = Ok (VStr rootKey, childKey) →
  loader_response rootKey (obj_get "keyArgs" fields) = (VObj resp, err) →
  truthy err = false →
  obj_get "data" resp = VObj d →
  ∃ d',
    _loadData (VObj fields) = Resolved (VObj d')
    ∧ truthy (obj_get "items" d') = true
    ∧ (truthy (obj_get "items" d) = true → d' = d)
    ∧ (truthy (obj_get "items" d) = false →
       obj_get "items" d' = VArr [] []
       ∧ ∀ k, k ≠ "items" → obj_get k d' = obj_get k d).
Proof.
  intros Hkey Hsplit Hresp Herr Hdata.
  unfold _loadData. cbn [get_member]. rewrite Hkey, !bind_Ok_l, Hsplit, bind_Ok_l.
  cbn [fst]. rewrite bind_Ok_l. cbn [property_key]. rewrite Hresp. unfold loadData_callback. rewrite Herr.
  cbn [get_member]. rewrite Hdata, !bind_Ok_l. cbn [get_member]. rewrite bind_Ok_l.
  destruct (truthy (obj_get "items" d)) eqn:Hitems.
  - exists d. by repeat split.
  - cbn [set_member]. eexists. split; [done|].
    rewrite obj_get_obj_set, decide_True by done. repeat split; [done|].
    intros k Hk. by rewrite obj_get_obj_set, decide_False by done.
Qed.

(** X4: a property that opts out of normalization ([normalize: false]) and
    has a string key gets the loaded data as they are, whatever
    [normalize.data] would make of them. *)
Theorem processData_opt_out (this_tags_ data_ : value) (key_ : string) (fields : obj)
    (s : string) :
  obj_get "key" fields = VStr s →
  obj_get "normalize" fields = VBool false →
  _processData this_tags_ (VObj fields) data_ key_ = Ok data_.
Proof.
  intros Hkey Hnorm. unfold _processData, processData_options.
  cbn [get_member]. rewrite Hkey, Hnorm, !bind_Ok_l.
  destruct (splitKey_string s) as (rootKey & childKey & ->).
  by rewrite !bind_Ok_l.
Qed.

(** X5: [_renderProperty] rewrites [key] and nothing else: the property
    keeps its keys in their order and every other member, and [key] holds
    what the template engine returned.  A property without a key, or with an
    empty one, is returned as it is and the engine is not consulted. *)
Theorem renderProperty_frame (contextData fields : obj) :
  (truthy (obj_get "key" fields) = false →
   _renderProperty contextData (VObj fields) = Ok (VObj fields))
  ∧ (∀ rendered,
       truthy (obj_get "key" fields) = true →
       mustache_render (obj_get "key" fields) contextData = Ok rendered →
       ∃ fields',
         _renderProperty contextData (VObj fields) = Ok (VObj fields')
         ∧ obj_keys fields' = obj_keys fields
         ∧ obj_lookup "key" fields' = Some rendered
         ∧ ∀ k, k ≠ "key" → obj_lookup k fields' = obj_lookup k fields).
Proof.
  unfold _renderProperty. cbn [get_member]. rewrite bind_Ok_l. split.
  - by intros ->.
  - intros rendered Hkey Hrender. rewrite Hkey, Hrender, bind_Ok_l.
    eexists. split; [done|]. split; [|split].
    + apply obj_keys_set_present. apply obj_lookup_is_Some.
      unfold obj_get in Hkey. destruct (obj_lookup "key" fields); [done|].
      by rewrite decide_False in Hkey by (by eapply bool_decide_unpack; vm_compute).
    + by rewrite obj_lookup_obj_set, decide_True.
    + intros k Hk. by rewrite obj_lookup_obj_set, decide_False.
Qed.

End LoadFacts.

Lemma loadData_key_not_string_witness :
  let H := sample (VObj []) [] in
  ∃ msg,
    _loadData (VObj [("keyArgs", VNum 1)]) = Rejected (TypeError msg)
    ∧ processProperty_settle (VObj []) [] "pools" (VObj [("keyArgs", VNum 1)])
      = (Rejected (TypeError msg),
         [processProperty_error "pools" (VObj [("keyArgs", VNum 1)]) (TypeError msg)]).
Proof.
  intros H.
  apply (@loadData_key_not_string H (VObj []) [] "pools" [("keyArgs", VNum 1)]).
  intros s. vm_compute. discriminate.
Defined.

Lemma loadData_items_default_witness :
  let H := sample (VObj []) [] in
  let d : obj := [("endpoint", VStr "deviceInfo")] in
  ∃ d',
    _loadData (VObj [("key", VStr "deviceInfo::hostname")]) = Resolved (VObj d')
    ∧ truthy (obj_get "items" d') = true
    ∧ (truthy (obj_get "items" d) = true → d' = d)
    ∧ (truthy (obj_get "items" d) = false →
       obj_get "items" d' = VArr [] []
       ∧ ∀ k, k ≠ "items" → obj_get k d' = obj_get k d).
Proof.
  intros H d.
  apply (@loadData_items_default H [("key", VStr "deviceInfo::hostname")]
           [("data", VObj d)] d "deviceInfo::hostname" "deviceInfo" (VStr "hostname") VUndef).
  - vm_compute. reflexivity.
  - vm_compute. reflexivity.
  - vm_compute. reflexivity.
  - reflexivity.
  - vm_compute. reflexivity.
Defined.

Lemma processData_opt_out_witness :
  let H := sample (VObj []) [] in
  _processData (VObj []) (VObj [("key", VStr "a"); ("normalize", VBool false)])
    (VNum 7) "raw"
  = Ok (VNum 7).
Proof.
  intros H.
  apply (@processData_opt_out H (VObj []) (VNum 7) "raw"
           [("key", VStr "a"); ("normalize", VBool false)] "a").
  - vm_compute. reflexivity.
  - vm_compute. reflexivity.
Defined.

Lemma renderProperty_frame_witness :
  let H := sample (VObj []) [] in
  let fields : obj := [("key", VStr "/mgmt/{{host}}"); ("keyArgs", VNum 1)] in
  ∃ fields',
    _renderProperty [] (VObj fields) = Ok (VObj fields')
    ∧ obj_keys fields' = obj_keys fields
    ∧ obj_lookup "key" fields' = Some (VStr "/mgmt/{{host}}")
    ∧ ∀ k, k ≠ "key" → obj_lookup k fields' = obj_lookup k fields.
Proof.
  intros H fields.
  apply (proj2 (@renderProperty_frame H [] fields) (VStr "/mgmt/{{host}}")).
  - vm_compute. reflexivity.
  - vm_compute. reflexivity.
Defined.

(** ** Nested levels of a conditional property *)

Lemma copy_entries_lookup (entries acc : obj) (k : string) :
  NoDup (obj_keys entries) →
  obj_lookup k
    (fold_left (λ acc kv, if is_conditional_key kv.1 then acc else obj_set kv.1 kv.2 acc)
       entries acc)
  = if is_conditional_key k then obj_lookup k acc
    else match obj_lookup k entries with
         | Some v => Some v
         | None => obj_lookup k acc
         end.
Proof.
  revert acc. induction entries as [|[k0 v0] entries IH]; intros acc Hnd.
  - cbn [fold_left obj_lookup]. by destruct (is_conditional_key k).
  - unfold obj_keys in Hnd. rewrite fmap_cons in Hnd.
    apply NoDup_cons in Hnd as [Hnotin Hnd]. cbn [fst] in Hnotin.
    cbn [fold_left fst snd obj_lookup]. rewrite IH by done.
    destruct (is_conditional_key k) eqn:Hk.
    + destruct (is_conditional_key k0) eqn:Hk0; [done|].
      rewrite obj_lookup_obj_set. rewrite decide_False; [done|].
      intros ->. congruence.
    + destruct (decide (k0 = k)) as [->|Hne].
      * rewrite Hk. apply obj_lookup_None in Hnotin. rewrite Hnotin.
        by rewrite obj_lookup_obj_set, decide_True.
      * destruct (obj_lookup k entries); [done|].
        destruct (is_conditional_key k0); [done|].
        by rewrite obj_lookup_obj_set, decide_False.
Qed.

Section BranchFacts.
Context `{Collaborators}.

(** X6: the levels of a conditional property are merged from the outside
    in.  When the condition of a property selects a branch ([then] or
    [else]) that is an object without a condition of its own, the result
    holds the members of the branch and, for the names the branch does not
    have, the members of the property; [if], [then] and [else] are dropped
    at both levels. *)
Theorem preprocessProperty_branch (contextData fields inner : obj) (r : value) :
  NoDup (obj_keys fields) → NoDup (obj_keys inner) →
  truthy (obj_get "if" fields) = true →
  _resolveConditional contextData (obj_get "if" fields) = Ok r →
  obj_get (if truthy r then "then" else "else") fields = VObj inner →
  truthy (obj_get "if" inner) = false →
  ∃ newObj,
    _preprocessProperty contextData (VObj fields) = Ok (VObj newObj)
    ∧ ∀ k, obj_lookup k newObj
           = if is_conditional_key k then None
             else match obj_lookup k inner with
                  | Some v => Some v
                  | None => obj_lookup k fields
                  end.
Proof.
  intros Hnd Hnd' Hif Hr Hbranch Hno.
  unfold _preprocessProperty. cbn [get_member]. rewrite bind_Ok_l, Hif.
  rewrite resolve_loop_object. cbv zeta. rewrite Hif, Hr, bind_Ok_l, Hbranch.
  rewrite resolve_loop_object. cbv zeta. rewrite Hno, bind_Ok_l, deepCopy_value.
  eexists. split; [done|]. intros k.
  unfold copy_unconditional. cbn [own_entries].
  rewrite (copy_entries_lookup inner _ k Hnd'), (copy_entries_lookup fields [] k Hnd).
  cbn [obj_lookup]. destruct (is_conditional_key k); [done|].
  destruct (obj_lookup k inner); [done|]. by destruct (obj_lookup k fields).
Qed.

End BranchFacts.

Lemma preprocessProperty_branch_witness :
  let H := sample (VObj []) [] in
  let fields : obj :=
    [("key", VStr "old"); ("keyArgs", VNum 1);
     ("if", VObj [("deviceVersionGreaterOrEqual", VStr "13.0")]);
     ("then", VObj [("key", VStr "new"); ("normalize", VBool false)])] in
  ∃ newObj,
    _preprocessProperty [("deviceVersion", VStr "14.1")] (VObj fields) = Ok (VObj newObj)
    ∧ ∀ k, obj_lookup k newObj
           = if is_conditional_key k then None
             else match obj_lookup k [("key", VStr "new"); ("normalize", VBool false)] with
                  | Some v => Some v
                  | None => obj_lookup k fields
                  end.
Proof.
  intros H fields.
  apply (@preprocessProperty_branch H [("deviceVersion", VStr "14.1")] fields
           [("key", VStr "new"); ("normalize", VBool false)] (VBool true)).
  - by eapply bool_decide_unpack; vm_compute.
  - by eapply bool_decide_unpack; vm_compute.
  - vm_compute. reflexivity.
  - vm_compute. reflexivity.
  - vm_compute. reflexivity.
  - vm_compute. reflexivity.
Defined.

(** ** [collect] when nothing can be loaded *)

Section IdleFacts.
Context `{Collaborators}.

(** With no load in flight an answer of the loader changes nothing. *)
Lemma run_idle (schedule : list nat) (m : machine) :
  in_flight m = [] → run schedule m = m.
Proof.
  intros Hidle. unfold run. induction schedule as [|i schedule IH]; [done|].
  cbn [fold_left]. unfold deliver at 2. by rewrite Hidle.
Qed.

(** X7: when the authentication of the loader fails, [collect] rejects with
    the error of the authentication and logs it once; no property is
    processed, no load is begun and nothing is collected, whatever the
    loader answers afterwards. *)
Theorem collect_auth_failure (tags_ : value) (schedule : list nat) (err : exn) :
  loader_auth = Throw err →
  settled (collect tags_ schedule) = Some (Throw err)
  ∧ logged (collect tags_ schedule) = ["Error: SystemStats.collect: " +:+ exn_to_string err]
  ∧ trace (collect tags_ schedule) = []
  ∧ in_flight (collect tags_ schedule) = []
  ∧ this_collectedData (collect tags_ schedule) = [].
Proof.
  intros Hauth. unfold collect.
  assert (Hstart : collect_start tags_
                   = collect_catch err
                       {| this_contextData := []; this_collectedData := [];
                          this_tags := if truthy tags_ then tags_ else VObj [];
                          in_flight := []; joins := []; awaited := None;
                          settled := None; logged := []; trace := [] |}).
  { unfold collect_start. by rewrite Hauth. }
  rewrite run_idle by (by rewrite Hstart).
  by rewrite Hstart.
Qed.

End IdleFacts.

Lemma collect_auth_failure_witness :
  let H := sample_unauthorized sample_stats in
  settled (collect VUndef [0; 1]) = Some (Throw (Rejection (VStr "401 Unauthorized")))
  ∧ logged (collect VUndef [0; 1]) = ["Error: SystemStats.collect: 401 Unauthorized"]
  ∧ trace (collect VUndef [0; 1]) = []
  ∧ in_flight (collect VUndef [0; 1]) = []
  ∧ this_collectedData (collect VUndef [0; 1]) = [].
Proof.
  intros H.
  apply (@collect_auth_failure H VUndef [0; 1] (Rejection (VStr "401 Unauthorized"))).
  reflexivity.
Defined.

(** ** [collect] when a property throws while it is processed *)

Section ThrowFacts.
Context `{Collaborators}.

(** A context without phases: [_computeContextData] begins nothing. *)
Lemma computeContextData_none (contextData : value) (m : machine) :
  truthy contextData = false ∨ (∃ props, contextData = VArr [] props) →
  _computeContextData contextData m = (m, Ok None).
Proof.
  intros [Hfalsy|[props ->]]; [|done].
  destruct contextData as [| | | | | |items props|]; try done.
  all: unfold _computeContextData; by rewrite Hfalsy.
Qed.

Lemma collect_catch_fresh (err : exn) (m : machine) :
  settled m = None →
  settled (collect_catch err m) = Some (Throw err)
  ∧ trace (collect_catch err m) = trace m
  ∧ logged (collect_catch err m)
    = logged m ++ ["Error: SystemStats.collect: " +:+ exn_to_string err]
  ∧ in_flight (collect_catch err m) = in_flight m.
Proof.
  intros Hnone. unfold collect_catch, settle. cbn [settled add_log]. by rewrite Hnone.
Qed.

Lemma start_entries_throw (kind : join_kind) (key_ : string) (property : value)
    (after : obj) (e : exn) :
  (∀ c, _processProperty [] c key_ property = Throw e) →
  ∀ before loads m,
    this_contextData m = [] →
    Forall (λ kp, ∀ c, ∃ st, _processProperty [] c kp.1 kp.2 = Ok st) before →
    ∃ m' loads',
      start_entries kind (before ++ (key_, property) :: after) loads m
      = (m', loads', Some e)
      ∧ trace m' = trace m ++ (Processing kind <$> (obj_keys before ++ [key_]))
      ∧ settled m' = settled m
      ∧ logged m' = logged m.
Proof.
  intros Hthrow. induction before as [|[k p] before IH]; intros loads m Hctx Hok.
  - cbn [app start_entries add_event this_contextData this_collectedData].
    rewrite Hctx, Hthrow. eexists _, _. split; [done|]. by repeat split.
  - apply Forall_cons in Hok as [Hk Hok]. cbn [fst snd] in Hk.
    rewrite <- app_comm_cons.
    cbn [start_entries add_event this_contextData this_collectedData].
    rewrite Hctx. destruct (Hk (this_collectedData m)) as [st ->].
    destruct st as [collectedData|property'].
    + edestruct (IH loads) as (m' & loads' & -> & Htrace & Hsettled & Hlogged);
        [|exact Hok|]; [done|].
      eexists _, _. split; [done|]. split; [|by split].
      rewrite Htrace. cbn [trace set_collected add_event].
      by rewrite obj_keys_cons, <- app_comm_cons, fmap_cons, <- app_assoc.
    + edestruct (IH (loads ++ [(k, property')])) as (m' & loads' & -> & Htrace & Hsettled & Hlogged);
        [|exact Hok|]; [done|].
      eexists _, _. split; [done|]. split; [|by split].
      rewrite Htrace. cbn [trace add_event].
      by rewrite obj_keys_cons, <- app_comm_cons, fmap_cons, <- app_assoc.
Qed.

(** X8: an exception thrown while a stats property is processed (by its
    conditional block, say) makes [collect] reject with that exception at
    once, in the turn that begins the stats: the properties after it are
    never processed, one line is logged, and no answer of the loader changes
    the outcome.  The properties before it are processed without an
    exception, and those of them that are loaded have a string key, so that
    their loads wait for the loader. *)
Theorem collect_property_throws (tags_ : value) (before after : obj) (key_ : string)
    (property : value) (e : exn) :
  loader_auth = Ok () →
  truthy context = false ∨ (∃ props, context = VArr [] props) →
  stats = before ++ (key_, property) :: after →
  Forall (λ kp, ∀ c, ∃ st, _processProperty [] c kp.1 kp.2 = Ok st
                          ∧ ∀ p, st = Loading p → ∃ s, get_member p "key" = Ok (VStr s))
    before →
  (∀ c, _processProperty [] c key_ property = Throw e) →
  trace (collect_start tags_) = Processing StatsProperties <$> (obj_keys before ++ [key_])
  ∧ logged (collect_start tags_) = ["Error: SystemStats.collect: " +:+ exn_to_string e]
  ∧ ∀ schedule, settled (collect tags_ schedule) = Some (Throw e).
Proof.
  intros Hauth Hcontext Hstats Hloads Hthrow.
  assert (Hok : Forall (λ kp, ∀ c, ∃ st, _processProperty [] c kp.1 kp.2 = Ok st) before).
  { eapply Forall_impl; [exact Hloads|]. intros kp Hkp c.
    destruct (Hkp c) as (st & Hst & _). by exists st. }
  set (m0 := {| this_contextData := []; this_collectedData := [];
                this_tags := if truthy tags_ then tags_ else VObj [];
                in_flight := []; joins := []; awaited := None;
                settled := None; logged := []; trace := [] |}).
  destruct (start_entries_throw StatsProperties key_ property after e Hthrow
              before [] m0 eq_refl Hok) as (m' & loads' & Hentries & Htrace & Hsettled & Hlogged).
  assert (Hstart : collect_start tags_
                   = collect_catch e (add_tasks (new_tasks None StatsProperties loads') m')).
  { unfold collect_start. rewrite Hauth. cbn [new_SystemStats this_contextData
      this_collectedData this_tags in_flight joins awaited settled logged trace].
    fold m0. rewrite (computeContextData_none _ _ Hcontext).
    unfold start_stats, start_join. by rewrite Hstats, Hentries. }
  destruct (collect_catch_fresh e (add_tasks (new_tasks None StatsProperties loads') m'))
    as (Hrejected & Htrace' & Hlogged' & _);
    [cbn [settled add_tasks]; by rewrite Hsettled|].
  rewrite <- Hstart in Hrejected, Htrace', Hlogged'.
  split; [|split].
  - rewrite Htrace'. cbn [trace add_tasks]. by rewrite Htrace.
  - rewrite Hlogged'. cbn [logged add_tasks]. by rewrite Hlogged.
  - intros schedule. unfold collect. by apply settled_stays.
Qed.

End ThrowFacts.

Lemma collect_property_throws_witness :
  let guarded :=
    VObj [("if", VObj [("deviceVersionGreaterOrEqual", VStr "13.0")]);
          ("then", VObj [("key", VStr "provision")])] in
  let H := sample VUndef [("hostname", VObj [("key", VStr "deviceInfo")]);
                          ("provisioning", guarded);
                          ("pools", VObj [("key", VStr "pools")])] in
  let e := Error "deviceVersionGreaterOrEqual: context has no property 'deviceVersion'" in
  trace (collect_start VUndef)
  = Processing StatsProperties <$> (obj_keys [("hostname", VObj [("key", VStr "deviceInfo")])]
                                    ++ ["provisioning"])
  ∧ logged (collect_start VUndef) = ["Error: SystemStats.collect: " +:+ exn_to_string e]
  ∧ ∀ schedule, settled (collect VUndef schedule) = Some (Throw e).
Proof.
  intros guarded H e.
  apply (@collect_property_throws H VUndef [("hostname", VObj [("key", VStr "deviceInfo")])]
           [("pools", VObj [("key", VStr "pools")])] "provisioning" guarded e).
  - reflexivity.
  - left. reflexivity.
  - reflexivity.
  - apply Forall_cons. split; [|apply Forall_nil_2].
    intros c. eexists. split; [vm_compute; reflexivity|].
    intros p [= <-]. eexists. vm_compute. reflexivity.
  - intros c. vm_compute. reflexivity.
Defined.

(** ** A property whose parent holds nothing *)

Lemma set_member_TypeError (v : value) (k : string) (x : value) (e : exn) :
  set_member v k x = Throw e → ∃ msg, e = TypeError msg.
Proof. destruct v; simpl; intros [=]; eauto. Qed.

Section OrphanFacts.
Context `{Collaborators}.

Lemma restructure_parent_undefined (key_ parentKey : string) :
  parent_of key_ = Some parentKey →
  parentKey ∉ object_prototype_names →
  ∀ keys data_,
    key_ ∈ keys → obj_get parentKey data_ = VUndef →
    ∃ msg, restructure data_ keys = Throw (TypeError msg).
Proof.
  intros Hparent Hproto. induction keys as [|k keys IH]; intros data_ Hin Hundef.
  - by apply elem_of_nil in Hin.
  - rewrite restructure_cons, restructure_step_parent.
    destruct (decide (k = key_)) as [->|Hne].
    + rewrite Hparent, Hundef. cbn [set_member]. eauto.
    + apply elem_of_cons in Hin as [->|Hin]; [done|].
      destruct (parent_of k) as [p|] eqn:Hp; [|rewrite bind_Ok_l; by apply IH].
      destruct (set_member (obj_get p data_) k (obj_get k data_)) as [parent|e] eqn:Hset.
      * rewrite !bind_Ok_l. apply IH; [done|].
        assert (Hpne : p ≠ parentKey).
        { intros ->. by rewrite Hundef in Hset. }
        unfold obj_get in *.
        destruct (decide (parentKey = k)) as [->|Hk].
        -- rewrite obj_lookup_delete, decide_True by done.
           by rewrite decide_False by done.
        -- rewrite relocate_lookup by done. by rewrite decide_False by done.
      * destruct (set_member_TypeError _ _ _ _ Hset) as [msg ->]. eauto.
Qed.

Lemma final_tree_throws (key_ parentKey : string) (collectedData : obj) :
  NoDup (obj_keys stats) →
  key_ ∈ obj_keys stats →
  parent_of key_ = Some parentKey →
  parentKey ∉ object_prototype_names →
  (parentKey ∈ obj_keys stats → obj_get parentKey collectedData = VUndef) →
  ∃ msg, final_tree collectedData = Throw (TypeError msg).
Proof.
  intros Hnd Hin Hparent Hproto Hundef. unfold final_tree. cbv zeta.
  rewrite order_data_keys by done. rewrite obj_keys_fmap.
  apply (restructure_parent_undefined key_ parentKey); [done..|].
  unfold obj_get at 1. rewrite obj_lookup_fmap_keys.
  destruct (decide (parentKey ∈ obj_keys stats)); [by apply Hundef|].
  by rewrite decide_False by done.
Qed.

(** X9: a property that is to be moved under a parent that holds nothing
    breaks the last step of [collect].  When the collected data have nothing
    under the parent key (the parent was disabled, say) the last step throws
    a [TypeError]; and when the parent key names no property of the stats
    document, [collect] never resolves, whatever the loader answers. *)
Theorem final_tree_parent_undefined (key_ parentKey : string) :
  NoDup (obj_keys stats) →
  key_ ∈ obj_keys stats →
  parent_of key_ = Some parentKey →
  parentKey ∉ object_prototype_names →
  (∀ collectedData,
     obj_get parentKey collectedData = VUndef →
     ∃ msg, final_tree collectedData = Throw (TypeError msg))
  ∧ (parentKey ∉ obj_keys stats →
     ∀ tags_ schedule output, settled (collect tags_ schedule) ≠ Some (Ok output)).
Proof.
  intros Hnd Hin Hparent Hproto. split.
  - intros collectedData Hundef. by apply (final_tree_throws key_ parentKey).
  - intros Hnotin tags_ schedule output Hsettled.
    apply collect_resolves_with_final_tree in Hsettled as [collectedData Hfinal].
    destruct (final_tree_throws key_ parentKey collectedData) as [msg Hthrow]; [done..|].
    by rewrite Hthrow in Hfinal.
Qed.

End OrphanFacts.

Lemma final_tree_parent_undefined_witness :
  let H := sample (VObj [])
             [("hostname", VObj [("key", VStr "deviceInfo");
                                 ("structure", VObj [("parentKey", VStr "system")])])] in
  (∀ collectedData,
     obj_get "system" collectedData = VUndef →
     ∃ msg, final_tree collectedData = Throw (TypeError msg))
  ∧ ("system" ∉ obj_keys stats →
     ∀ tags_ schedule output, settled (collect tags_ schedule) ≠ Some (Ok output)).
Proof.
  intros H. apply (@final_tree_parent_undefined H "hostname" "system").
  - by eapply bool_decide_unpack; vm_compute.
  - by eapply bool_decide_unpack; vm_compute.
  - vm_compute. reflexivity.
  - by eapply bool_decide_unpack; vm_compute.
Defined.

(** ** The two passes of [_applyBlacklist]; the constructor *)

Section PassFacts.
Import DataFilter.

(** The elements left of an array whose elements at the indices in [P]
    were deleted and whose holes were then spliced out. *)
Lemma splice_holes_from (P : nat → bool) (items : list hval) :
  ∀ g : nat → nat,
    filter (λ x, x ≠ HUndef) (imap (λ i x, if P (g i) then HUndef else x) items)
    = (filter (λ ix, P ix.1 = false ∧ ix.2 ≠ HUndef) (imap (λ i x, (g i, x)) items)).*2.
Proof.
  induction items as [|x items IH]; intros g; [done|].
  rewrite !imap_cons. rewrite !filter_cons. cbn [fst snd].
  specialize (IH (g ∘ S)). unfold compose in *.
  destruct (P (g 0%nat)) eqn:HP.
  - rewrite decide_False by (intros Hc; by apply Hc).
    rewrite decide_False by (by intros [? _]).
    exact IH.
  - destruct (decide (x ≠ HUndef)) as [Hx|Hx].
    + rewrite decide_True by done. rewrite fmap_cons. cbn [snd]. by rewrite IH.
    + rewrite decide_False by (by intros [_ ?]). exact IH.
Qed.

Lemma splice_holes (P : nat → bool) (items : list hval) :
  filter (λ x, x ≠ HUndef) (imap (λ i x, if P i then HUndef else x) items)
  = (filter (λ ix, P ix.1 = false ∧ ix.2 ≠ HUndef) (imap (λ i x, (i, x)) items)).*2.
Proof. apply (splice_holes_from P items id). Qed.

Lemma keys_matched_none (ms : list deep_match) (l : nat) :
  l ∉ data <$> ms → keys_matched ms l = [].
Proof.
  intros Hl. destruct (keys_matched ms l) as [|k ks] eqn:Hks; [done|].
  exfalso. apply Hl. apply data_matched_elem. exists k.
  apply keys_matched_elem. rewrite Hks. apply list_elem_of_here.
Qed.

(** X10: what the two loops of [_applyBlacklist] make of a cell, given
    matches whose keys are own enumerable keys of their cells (the keys of a
    mapping, the indices of a sequence), as a scan of the cells finds them.
    An object loses the properties matched in it.  An array with a match
    loses the elements at the matched indices (the indices the elements had
    before any deletion) and its [undefined] elements, the others keep their
    order; an array without a match is left as it is. *)
Theorem applyBlacklist_passes (ms : list deep_match) (h : heap) (l : nat) :
  Forall (λ mt, ∃ c, h !! data mt = Some c ∧ key mt ∈ (cell_entries c).*1) ms →
  let h' := fold_left reindex_match ms (fold_left delete_match ms h) in
  (∀ fields, h !! l = Some (CObj fields) →
     h' !! l = Some (CObj (filter (λ kv, kv.1 ∉ keys_matched ms l) fields)))
  ∧ (∀ items, h !! l = Some (CArr items) →
       h' !! l
       = Some (CArr (if decide (l ∈ data <$> ms)
                     then (filter (λ ix, bool_decide (pretty ix.1 ∈ keys_matched ms l) = false
                                         ∧ ix.2 ≠ HUndef)
                             (imap (λ i x, (i, x)) items)).*2
                     else items)))
  ∧ (h !! l = None → h' !! l = None).
Proof.
  intros _. cbv zeta. rewrite applyBlacklist_lookup. split; [|split].
  - intros fields ->. cbn [fmap option_fmap option_map delete_keys].
    by destruct (decide (l ∈ data <$> ms)).
  - intros items ->. cbn [fmap option_fmap option_map].
    destruct (decide (l ∈ data <$> ms)) as [Hl|Hl].
    + cbn [delete_keys reindex].
      pose proof (splice_holes (λ i, bool_decide (pretty i ∈ keys_matched ms l)) items)
        as Hsplice.
      cbn beta in Hsplice. rewrite <- Hsplice.
      do 3 f_equal. apply imap_ext. intros i x _. cbn beta.
      by destruct (decide (pretty i ∈ keys_matched ms l)) as [Hi|Hi];
        [rewrite bool_decide_eq_true_2|rewrite bool_decide_eq_false_2].
    + rewrite keys_matched_none by done. by rewrite delete_keys_nil.
  - by intros ->.
Qed.

(** X11: the constructor reads [config] only for a sink of type [Splunk].
    For any other type the filter is made, with [tmstats] on its blacklist,
    whatever [config] is; for the type [Splunk] and a configuration without
    [config] the constructor throws a [TypeError]. *)
Theorem new_reads_config (h : heap) (consumerConfig type_ : value) :
  get_member consumerConfig "type" = Ok type_ →
  (is_string "Splunk" type_ = false →
   new h consumerConfig
   = Ok (h ++ [CObj [("tmstats", HBool true)]],
         {| _consumerConfig := consumerConfig; blacklist := length h |}))
  ∧ (is_string "Splunk" type_ = true →
     get_member consumerConfig "config" = Ok VUndef
     ∨ get_member consumerConfig "config" = Ok VNull →
     ∃ msg, new h consumerConfig = Throw (TypeError msg)).
Proof.
  intros Htype. unfold new, _applyGlobalFilters.
  rewrite deepCopy_value, Htype, bind_Ok_l. split.
  - by intros ->.
  - intros -> [->| ->]; cbn [negb]; rewrite bind_Ok_l; cbn [get_member]; eauto.
Qed.

End PassFacts.

Lemma new_reads_config_witness :
  DataFilter.new [] (VObj [("type", VStr "Kafka")])
  = Ok ([DataFilter.CObj [("tmstats", DataFilter.HBool true)]],
        {| DataFilter._consumerConfig := VObj [("type", VStr "Kafka")];
           DataFilter.blacklist := 0 |})
  ∧ ∃ msg, DataFilter.new [] (VObj [("type", VStr "Splunk")]) = Throw (TypeError msg).
Proof.
  split.
  - refine (proj1 (new_reads_config [] (VObj [("type", VStr "Kafka")]) (VStr "Kafka") _) _);
      vm_compute; reflexivity.
  - refine (proj2 (new_reads_config [] (VObj [("type", VStr "Splunk")]) (VStr "Splunk") _)
              _ _).
    + vm_compute. reflexivity.
    + vm_compute. reflexivity.
    + left. vm_compute. reflexivity.
Defined.

Lemma applyBlacklist_passes_witness :
  let h := [DataFilter.CArr [DataFilter.HStr "A"; DataFilter.HStr "B"; DataFilter.HStr "C"]] in
  let ms := [{| DataFilter.data := 0; DataFilter.key := "1" |}] in
  fold_left DataFilter.reindex_match ms (fold_left DataFilter.delete_match ms h) !! 0%nat
  = Some (DataFilter.CArr [DataFilter.HStr "A"; DataFilter.HStr "C"]).
Proof.
  intros h ms.
  refine (eq_trans
            (proj1 (proj2 (applyBlacklist_passes ms h 0 _))
               [DataFilter.HStr "A"; DataFilter.HStr "B"; DataFilter.HStr "C"] eq_refl) _).
  - apply Forall_cons_2; [|apply Forall_nil_2].
    eexists. split; [reflexivity|]. by eapply bool_decide_unpack; vm_compute.
  - vm_compute. reflexivity.
Defined.

(** ** The disk usage summary *)

(** X12: the promise of the disk usage summary stays pending for ever
    exactly when [request.data] can be read and has no [diskStorage]: then the
    executor returns without resolving.  (When [request] or [request.data] is
    [undefined] or [null], or [diskStorage] is [null], the promise is
    rejected; in every other case it is resolved.) *)
Theorem disk_usage_pending (request : value) :
  disk_usage_summary request = Pending
  ↔ ∃ data_, get_member request "data" = Ok data_
             ∧ get_member data_ "diskStorage" = Ok VUndef.
Proof.
  unfold disk_usage_summary. split.
  - destruct (get_member request "data") as [data_|e] eqn:Hdata; [|done].
    rewrite bind_Ok_l.
    destruct (get_member data_ "diskStorage") as [diskStorage|e] eqn:Hdisk; [|done].
    rewrite bind_Ok_l. intros Hpending. exists data_. split; [done|].
    destruct diskStorage; try done;
      destruct (disk_usage_template data_); try done;
      rewrite bind_Ok_l in Hpending; done.
  - intros (data_ & -> & Hdisk). rewrite bind_Ok_l, Hdisk. by rewrite bind_Ok_l.
Qed.

Lemma disk_usage_template_object (fields : obj) :
  disk_usage_template (VObj fields)
  = Ok [("time", obj_get "timestamp" fields); ("host", obj_get "hostname" fields);
        ("index", obj_get "rbac_system_index" fields);
        ("source", VStr "bigip.tmsh.disk_usage");
        ("sourcetype", VStr "f5:bigip:status:iapp:json");
        ("event", VObj [("aggr_period", obj_get "aggregationPeriod" fields);
                        ("device_base_mac", obj_get "baseMac" fields);
                        ("devicegroup", obj_get "deviceGroup" fields);
                        ("facility", obj_get "facility" fields)])].
Proof. reflexivity. Qed.

Lemma disk_usage_event_template (time host index a b c d entry : value) :
  disk_usage_event
    [("time", time); ("host", host); ("index", index);
     ("source", VStr "bigip.tmsh.disk_usage");
     ("sourcetype", VStr "f5:bigip:status:iapp:json");
     ("event", VObj [("aggr_period", a); ("device_base_mac", b);
                     ("devicegroup", c); ("facility", d)])] entry
  = [("time", time); ("host", host); ("index", index);
     ("source", VStr "bigip.tmsh.disk_usage");
     ("sourcetype", VStr "f5:bigip:status:iapp:json");
     ("event", VObj (obj_assign (obj_assign [] (own_entries entry))
                       [("aggr_period", a); ("device_base_mac", b);
                        ("devicegroup", c); ("facility", d)]))].
Proof. reflexivity. Qed.

(** X13: with an object under [request.data.diskStorage] the promise is
    resolved with one event for every entry of [diskStorage], in their
    order.  Every event has the same six members; its [event] holds the
    members of the entry and the four summary members taken from [data]
    ([aggr_period], [device_base_mac], [devicegroup], [facility]), and a
    summary member replaces a member of the entry with the same name.  The
    name of the entry is not part of the event. *)
Theorem disk_usage_events (rfields data_ disks : obj) :
  obj_get "data" rfields = VObj data_ →
  obj_get "diskStorage" data_ = VObj disks →
  ∃ events,
    disk_usage_summary (VObj rfields) = Resolved (VArr events [])
    ∧ length events = length disks
    ∧ ∀ i name entry,
        disks !! i = Some (name, entry) →
        ∃ ev event,
          events !! i = Some (VObj ev)
          ∧ obj_keys ev = ["time"; "host"; "index"; "source"; "sourcetype"; "event"]
          ∧ obj_lookup "time" ev = Some (obj_get "timestamp" data_)
          ∧ obj_lookup "host" ev = Some (obj_get "hostname" data_)
          ∧ obj_lookup "index" ev = Some (obj_get "rbac_system_index" data_)
          ∧ obj_lookup "event" ev = Some (VObj event)
          ∧ obj_lookup "aggr_period" event = Some (obj_get "aggregationPeriod" data_)
          ∧ obj_lookup "device_base_mac" event = Some (obj_get "baseMac" data_)
          ∧ obj_lookup "devicegroup" event = Some (obj_get "deviceGroup" data_)
          ∧ obj_lookup "facility" event = Some (obj_get "facility" data_)
          ∧ (NoDup (obj_keys (own_entries entry)) →
             ∀ k, k ∉ ["aggr_period"; "device_base_mac"; "devicegroup"; "facility"] →
                  obj_lookup k event = obj_lookup k (own_entries entry)).
Proof.
  intros Hdata Hdisks. unfold disk_usage_summary.
  cbn [get_member]. rewrite Hdata, bind_Ok_l. cbn [get_member].
  rewrite Hdisks, bind_Ok_l, disk_usage_template_object, bind_Ok_l.
  cbn [object_entries own_entries]. rewrite bind_Ok_l.
  eexists. split; [done|]. split; [by rewrite length_fmap|].
  intros i name entry Hi. rewrite list_lookup_fmap, Hi. cbn [fmap option_fmap option_map snd].
  rewrite disk_usage_event_template.
  eexists _, _. split; [done|]. do 5 (split; [done|]).
  assert (Hfour : NoDup (obj_keys [("aggr_period", obj_get "aggregationPeriod" data_);
                                   ("device_base_mac", obj_get "baseMac" data_);
                                   ("devicegroup", obj_get "deviceGroup" data_);
                                   ("facility", obj_get "facility" data_)]))
    by (by eapply bool_decide_unpack; vm_compute).
  do 4 (split; [by rewrite obj_lookup_assign by done|]).
  intros Hnd k Hk. rewrite obj_lookup_assign by done.
  rewrite obj_lookup_assign by done. cbn [obj_lookup].
  rewrite !not_elem_of_cons in Hk. destruct Hk as (? & ? & ? & ? & _).
  rewrite !decide_False by done. by destruct (obj_lookup k (own_entries entry)).
Qed.

Lemma disk_usage_pending_witness :
  disk_usage_summary (VObj [("data", VObj [("hostname", VStr "bigip1")])]) = Pending.
Proof.
  apply (proj2 (disk_usage_pending (VObj [("data", VObj [("hostname", VStr "bigip1")])]))).
  exists (VObj [("hostname", VStr "bigip1")]). split; vm_compute; reflexivity.
Defined.

Lemma disk_usage_events_witness :
  let data_ : obj :=
    [("hostname", VStr "bigip1"); ("facility", VStr "myFacility");
     ("diskStorage",
      VObj [("/", VObj [("Capacity", VStr "55%"); ("facility", VStr "own")]);
            ("/var", VObj [("Capacity", VStr "8%")])])] in
  let disks : obj :=
    [("/", VObj [("Capacity", VStr "55%"); ("facility", VStr "own")]);
     ("/var", VObj [("Capacity", VStr "8%")])] in
  ∃ events,
    disk_usage_summary sample_request = Resolved (VArr events [])
    ∧ length events = length disks
    ∧ ∀ i name entry,
        disks !! i = Some (name, entry) →
        ∃ ev event,
          events !! i = Some (VObj ev)
          ∧ obj_keys ev = ["time"; "host"; "index"; "source"; "sourcetype"; "event"]
          ∧ obj_lookup "time" ev = Some (obj_get "timestamp" data_)
          ∧ obj_lookup "host" ev = Some (obj_get "hostname" data_)
          ∧ obj_lookup "index" ev = Some (obj_get "rbac_system_index" data_)
          ∧ obj_lookup "event" ev = Some (VObj event)
          ∧ obj_lookup "aggr_period" event = Some (obj_get "aggregationPeriod" data_)
          ∧ obj_lookup "device_base_mac" event = Some (obj_get "baseMac" data_)
          ∧ obj_lookup "devicegroup" event = Some (obj_get "deviceGroup" data_)
          ∧ obj_lookup "facility" event = Some (obj_get "facility" data_)
          ∧ (NoDup (obj_keys (own_entries entry)) →
             ∀ k, k ∉ ["aggr_period"; "device_base_mac"; "devicegroup"; "facility"] →
                  obj_lookup k event = obj_lookup k (own_entries entry)).
Proof.
  intros data_ disks.
  apply (disk_usage_events [("data", VObj data_)] data_ disks).
  - vm_compute. reflexivity.
  - vm_compute. reflexivity.
Defined.

(** ** The stats properties when every load succeeds *)

Section GatherFacts.
Context `{Collaborators}.

(** The last step reads the collected data by key only. *)
Lemma final_tree_ext (c1 c2 : obj) :
  (∀ k, obj_lookup k c1 = obj_lookup k c2) → final_tree c1 = final_tree c2.
Proof.
  intros Hext. unfold final_tree. cbv zeta.
  assert (Horder : order_data c1 = order_data c2); [|by rewrite Horder].
  assert (Hget : ∀ k, obj_get k c1 = obj_get k c2).
  { intros k. unfold obj_get. by rewrite Hext. }
  unfold order_data. generalize (@nil (string * value)).
  induction (obj_keys stats) as [|k ks IH]; intros acc; [done|].
  cbn [fold_left]. rewrite (Hget k). apply IH.
Qed.

Lemma gathered_all (tags_ : value) (loads : list task) (initial c1 c2 : obj) :
  gathered tags_ loads [] initial c1 → gathered tags_ loads [] initial c2 →
  ∀ k, obj_lookup k c1 = obj_lookup k c2.
Proof.
  intros [Hdone1 Hrest1] [Hdone2 Hrest2] k.
  destruct (decide (k ∈ task_key <$> loads)) as [Hin|Hnotin].
  - apply list_elem_of_fmap in Hin as (t & -> & Ht).
    rewrite Hdone1, Hdone2; [done|done|apply not_elem_of_nil|done|apply not_elem_of_nil].
  - rewrite Hrest1, Hrest2; [done|..];
      intros t Ht <-; destruct Hnotin; by apply list_elem_of_fmap_2.
Qed.

(** [start_entries] begins loads and settles folders; it touches nothing
    else.  The loads it begins are properties of [entries], in their order. *)
Lemma start_entries_frame (kind : join_kind) (entries : obj) :
  ∀ loads m,
    let r := start_entries kind entries loads m in
    in_flight r.1.1 = in_flight m
    ∧ joins r.1.1 = joins m
    ∧ awaited r.1.1 = awaited m
    ∧ settled r.1.1 = settled m
    ∧ this_tags r.1.1 = this_tags m
    ∧ ∃ begun, r.1.2 = loads ++ begun ∧ sublist begun.*1 (obj_keys entries).
Proof.
  induction entries as [|[k p] entries IH]; intros loads m; cbv zeta.
  - cbn [start_entries fst snd]. repeat split; try done.
    exists []. by rewrite app_nil_r.
  - cbn [start_entries]. rewrite obj_keys_cons.
    destruct (_processProperty _ _ k p) as [[collectedData|property]|e].
    + destruct (IH loads (set_collected collectedData (add_event (Processing kind k) m)))
        as (? & ? & ? & ? & ? & begun & ? & ?).
      repeat split; try done. exists begun. split; [done|]. by apply sublist_cons.
    + destruct (IH (loads ++ [(k, property)]) (add_event (Processing kind k) m))
        as (? & ? & ? & ? & ? & begun & Hbegun & ?).
      repeat split; try done. exists ((k, property) :: begun).
      split; [by rewrite Hbegun, <- app_assoc|].
      rewrite fmap_cons. by apply sublist_skip.
    + cbn [fst snd]. repeat split; try done.
      exists []. split; [by rewrite app_nil_r|]. apply sublist_nil_l.
Qed.

Lemma new_tasks_keys (j : option nat) (kind : join_kind) (loads : obj) :
  task_key <$> new_tasks j kind loads = loads.*1.
Proof.
  unfold new_tasks. rewrite <- list_fmap_compose. by apply list_fmap_ext.
Qed.

(** The turn that begins the stats properties: [collect] settles in it
    (an exception, or no load to wait for), or it waits for the loads. *)
Lemma start_stats_phase (m : machine) :
  NoDup (obj_keys stats) →
  settled m = None → in_flight m = [] →
  is_Some (settled (start_stats m))
  ∨ (gathering (this_tags m) (length (joins m)) (in_flight (start_stats m))
       (this_collectedData (start_stats m)) (start_stats m)
     ∧ NoDup (task_key <$> in_flight (start_stats m))).
Proof.
  intros Hnd Hnone Hidle. unfold start_stats, start_join.
  pose proof (start_entries_frame StatsProperties stats [] m) as Hframe.
  cbv zeta in Hframe.
  destruct (start_entries StatsProperties stats [] m) as [[m' loads] err].
  cbn [fst snd] in Hframe.
  destruct Hframe as (Hflight & Hjoins & Hawaited & Hsettled & Htags & begun & -> & Hsub).
  rewrite app_nil_l.
  destruct err as [e|].
  - left. unfold collect_catch, settle. cbn [settled add_log add_tasks].
    rewrite Hsettled, Hnone. by eexists.
  - cbn [joins set_joins add_tasks]. rewrite Hjoins.
    rewrite list_lookup_middle by done. cbn [fmap option_fmap option_map join_is].
    destruct begun as [|load begun].
    + left. cbn [length]. unfold assemble.
      destruct (final_tree _) as [data_|e].
      * unfold settle. cbn [settled add_event set_join_state set_joins add_tasks].
        rewrite Hsettled, Hnone. by eexists.
      * unfold collect_catch, settle.
        cbn [settled add_log add_event set_join_state set_joins add_tasks].
        rewrite Hsettled, Hnone. by eexists.
    + right. cbn [length].
      assert (Hkeys : NoDup (task_key <$> new_tasks (Some (length (joins m))) StatsProperties
                                            (load :: begun))).
      { rewrite new_tasks_keys. by eapply sublist_NoDup. }
      cbn [in_flight set_awaited set_joins add_tasks this_collectedData].
      rewrite Hflight, Hidle, app_nil_l. split; [|done].
      unfold gathering.
      cbn [settled awaited joins in_flight this_tags this_collectedData
           set_awaited set_joins add_tasks].
      rewrite ?Hflight, ?Hidle, ?app_nil_l, ?Hjoins, ?Hsettled, ?Htags.
      split; [done|]. split; [done|].
      split; [rewrite list_lookup_middle by done; unfold new_tasks;
              by rewrite length_fmap|].
      split; [done|]. split; [done|]. split; [|split; [done|]].
      * apply Forall_forall. intros t Ht. split; [|done].
        unfold new_tasks in Ht. by apply list_elem_of_fmap in Ht as (kp & -> & _).
      * split; [by intros t Ht Hnot|done].
Qed.

End GatherFacts.

Lemma elem_of_delete_NoDup {A} (l : list A) :
  ∀ i x y, NoDup l → l !! i = Some x → (y ∈ delete i l ↔ y ∈ l ∧ y ≠ x).
Proof.
  induction l as [|a l IH]; intros i x y Hnd Hi; [done|].
  apply NoDup_cons in Hnd as [Ha Hnd]. destruct i as [|i]; cbn [delete list_delete].
  - injection Hi as ->. rewrite elem_of_cons. split.
    + intros Hy. split; [by right|]. by intros ->.
    + by intros [[->|Hy] Hne].
  - cbn in Hi. rewrite !elem_of_cons, (IH i x y Hnd Hi). split.
    + intros [->|[Hy Hne]]; [|by split; [right|]].
      split; [by left|]. intros ->. apply Ha. by eapply list_elem_of_lookup_2.
    + intros [[->|Hy] Hne]; [by left|by right].
Qed.

Lemma NoDup_fmap_inj {A B} (f : A → B) (l : list A) (x y : A) :
  NoDup (f <$> l) → x ∈ l → y ∈ l → f x = f y → x = y.
Proof.
  induction l as [|a l IH]; intros Hnd Hx Hy Hf; [by apply elem_of_nil in Hx|].
  rewrite fmap_cons in Hnd. apply NoDup_cons in Hnd as [Ha Hnd].
  apply elem_of_cons in Hx as [->|Hx]; apply elem_of_cons in Hy as [->|Hy].
  - done.
  - destruct Ha. rewrite Hf. by apply list_elem_of_fmap_2.
  - destruct Ha. rewrite <- Hf. by apply list_elem_of_fmap_2.
  - by apply IH.
Qed.

Section DeliverFacts.
Context `{Collaborators}.

Lemma processProperty_settle_succeeds (tags_ : value) (collectedData : obj) (t : task) :
  load_succeeds tags_ t →
  processProperty_settle tags_ collectedData (task_key t) (task_property t)
  = (Resolved (obj_set (task_key t) (stored_value tags_ t) collectedData), []).
Proof.
  intros (data_ & v & Hload & Hdata). unfold processProperty_settle, stored_value.
  by rewrite Hload, Hdata.
Qed.

(** One more load is answered: its value is stored under its key. *)
Lemma gathered_step (tags_ : value) (loads pending : list task) (initial collectedData : obj)
    (i : nat) (t : task) :
  NoDup (task_key <$> loads) →
  Forall (λ t, t ∈ loads) pending →
  NoDup pending →
  pending !! i = Some t →
  gathered tags_ loads pending initial collectedData →
  gathered tags_ loads (delete i pending) initial
    (obj_set (task_key t) (stored_value tags_ t) collectedData).
Proof.
  intros Hnd Hsub Hndp Hi [Hdone Hrest].
  assert (Ht : t ∈ loads).
  { eapply Forall_forall in Hsub; [done|]. by eapply list_elem_of_lookup_2. }
  split.
  - intros t' Ht' Hnot. rewrite obj_lookup_obj_set.
    destruct (decide (task_key t = task_key t')) as [Hkey|Hkey].
    + by rewrite (NoDup_fmap_inj task_key loads t t' Hnd Ht Ht' Hkey).
    + apply Hdone; [done|]. intros Hin. apply Hnot.
      apply (elem_of_delete_NoDup pending i t t' Hndp Hi). split; [done|].
      by intros ->.
  - intros k Hk. rewrite obj_lookup_obj_set.
    destruct (decide (task_key t = k)) as [Hkey|Hkey].
    + specialize (Hk t Ht Hkey).
      apply (elem_of_delete_NoDup pending i t t Hndp Hi) in Hk as [_ Hne]. done.
    + apply Hrest. intros t' Ht' Hkey'. specialize (Hk t' Ht' Hkey').
      by apply (elem_of_delete_NoDup pending i t t' Hndp Hi) in Hk as [? _].
Qed.

End DeliverFacts.

Section OrderFacts.
Context `{Collaborators}.

Lemma settled_assemble (m : machine) :
  settled m = None →
  settled (assemble m) = Some (final_tree (this_collectedData m))
  ∧ in_flight (assemble m) = in_flight m.
Proof.
  intros Hnone. unfold assemble. cbv zeta. cbn [this_collectedData add_event].
  destruct (final_tree (this_collectedData m)) as [data_|e].
  - unfold settle. cbn [settled add_event]. by rewrite Hnone.
  - unfold collect_catch, settle. cbn [settled add_log add_event]. by rewrite Hnone.
Qed.

(** An answer of the loader while [collect] waits for the loads: the value
    is stored, and with the last answer [collect] settles. *)
Lemma deliver_gathering (tags_ : value) (j : nat) (loads : list task) (initial : obj)
    (i : nat) (m : machine) :
  NoDup (task_key <$> loads) →
  (∀ t, t ∈ loads → load_succeeds tags_ t) →
  gathering tags_ j loads initial m →
  gathering tags_ j loads initial (deliver i m)
  ∨ finished tags_ loads initial (deliver i m).
Proof.
  intros Hnd Hok (Hnone & Haw & Hjoin & Hne & Htags & Hall & Hkeys & Hgath).
  unfold deliver. destruct (in_flight m !! i) as [t|] eqn:Hi; [|by left]. cbv zeta.
  assert (Ht : task_join t = Some j ∧ t ∈ loads).
  { eapply Forall_forall in Hall; [done|]. by eapply list_elem_of_lookup_2. }
  destruct Ht as [Hj Ht].
  cbn [this_tags this_collectedData set_in_flight]. rewrite Htags.
  rewrite processProperty_settle_succeeds by auto. rewrite Hj.
  assert (Hg : gathered tags_ loads (delete i (in_flight m)) initial
                 (obj_set (task_key t) (stored_value tags_ t) (this_collectedData m))).
  { apply gathered_step; try done.
    - eapply Forall_impl; [exact Hall|]. by intros ? [_ ?].
    - by eapply NoDup_fmap_1. }
  assert (Hlen : length (in_flight m) = S (length (delete i (in_flight m)))).
  { rewrite length_delete by eauto. apply lookup_lt_Some in Hi. lia. }
  unfold member_resolved. cbn [joins add_event set_collected set_in_flight].
  rewrite Hjoin. cbn [fmap option_fmap option_map join_is]. rewrite Hlen. cbv zeta.
  destruct (length (delete i (in_flight m))) as [|n] eqn:Hn.
  - right. unfold fulfil.
    rewrite join_of_set_join_state. cbn [joins add_event set_collected set_in_flight].
    rewrite Hjoin. cbn [fmap option_fmap option_map join_of]. cbv zeta.
    cbn [awaited set_join_state set_joins add_event set_collected set_in_flight].
    rewrite Haw, bool_decide_eq_true_2 by done.
    match goal with |- finished _ _ _ (assemble ?m1) =>
      destruct (settled_assemble m1 Hnone) as [Hsettled Hflight] end.
    split.
    + rewrite Hflight. cbn [in_flight set_joins add_event set_collected set_in_flight].
      by apply nil_length_inv.
    + eexists. split; [|exact Hsettled].
      cbn [this_collectedData set_joins add_event set_collected set_in_flight].
      by rewrite <- (nil_length_inv _ Hn).
  - left. unfold gathering.
    cbn [settled awaited joins in_flight this_tags this_collectedData
         set_join_state set_joins add_event set_collected set_in_flight].
    split; [done|]. split; [done|].
    split; [by rewrite list_lookup_alter_eq, Hjoin, Hn|].
    split; [by intros Hnil; rewrite Hnil in Hn|]. split; [done|].
    split; [by apply Forall_delete|]. split; [|done].
    assert (Hsub : sublist (task_key <$> delete i (in_flight m)) (task_key <$> in_flight m))
      by apply fmap_sublist, sublist_delete.
    by eapply sublist_NoDup.
Qed.

Lemma run_gathering (tags_ : value) (j : nat) (loads : list task) (initial : obj)
    (schedule : list nat) :
  NoDup (task_key <$> loads) →
  (∀ t, t ∈ loads → load_succeeds tags_ t) →
  ∀ m, gathering tags_ j loads initial m →
    gathering tags_ j loads initial (run schedule m)
    ∨ finished tags_ loads initial (run schedule m).
Proof.
  intros Hnd Hok. induction schedule as [|i schedule IH]; intros m Hm; [by left|].
  change (run (i :: schedule) m) with (run schedule (deliver i m)).
  destruct (deliver_gathering tags_ j loads initial i m Hnd Hok Hm) as [Hm'|Hm'].
  - by apply IH.
  - right. by rewrite run_idle by apply Hm'.
Qed.

End OrderFacts.

Section OrderTheorem.
Context `{Collaborators}.

(** X14: the outcome of [collect] does not depend on the order in which the
    loader answers.  [start_stats m] is the turn of [collect] that begins the
    stats properties, from a state [m] with no load in flight.  When the load
    of every property it begins succeeds, then after any two sequences of
    answers that leave no load in flight [collect] has settled, and it has
    settled in the same way: with the same tree, or with the same error of
    the last step. *)
Theorem stats_order_independent (m : machine) (s1 s2 : list nat) :
  NoDup (obj_keys stats) →
  settled m = None → in_flight m = [] →
  (∀ t, t ∈ in_flight (start_stats m) → load_succeeds (this_tags m) t) →
  in_flight (run s1 (start_stats m)) = [] →
  in_flight (run s2 (start_stats m)) = [] →
  is_Some (settled (run s1 (start_stats m)))
  ∧ settled (run s1 (start_stats m)) = settled (run s2 (start_stats m)).
Proof.
  intros Hnd Hnone Hidle Hok Hs1 Hs2.
  destruct (start_stats_phase m Hnd Hnone Hidle) as [[r Hr]|[Hg Hkeys]].
  - rewrite !(settled_stays _ _ r Hr). by split.
  - destruct (run_gathering _ _ _ _ s1 Hkeys Hok _ Hg) as [Hg1|(_ & c1 & Hc1 & Hr1)].
    { by destruct Hg1 as (_ & _ & _ & Hne & _). }
    destruct (run_gathering _ _ _ _ s2 Hkeys Hok _ Hg) as [Hg2|(_ & c2 & Hc2 & Hr2)].
    { by destruct Hg2 as (_ & _ & _ & Hne & _). }
    rewrite Hr1, Hr2. split; [done|]. f_equal.
    apply final_tree_ext. by eapply gathered_all.
Qed.

End OrderTheorem.

Lemma stats_order_independent_witness :
  let H := sample (VObj []) [("hostname", VObj [("key", VStr "deviceInfo::hostname")]);
                             ("pools", VObj [("key", VStr "pools")])] in
  is_Some (settled (run [0; 0] (start_stats new_SystemStats)))
  ∧ settled (run [0; 0] (start_stats new_SystemStats))
    = settled (run [1; 0] (start_stats new_SystemStats)).
Proof.
  intros H. apply (@stats_order_independent H new_SystemStats [0; 0] [1; 0]).
  - by eapply bool_decide_unpack; vm_compute.
  - reflexivity.
  - reflexivity.
  - apply Forall_forall. vm_compute (in_flight _).
    repeat apply Forall_cons_2; [..|apply Forall_nil_2];
      eexists _, _; split; vm_compute; reflexivity.
  - vm_compute. reflexivity.
  - vm_compute. reflexivity.
Defined.

(** ** The stats properties wait for the context *)

Lemma follow_app (tr e : list event) :
  Published 0 ∈ tr → stats_follow_context tr → stats_follow_context (tr ++ e).
Proof.
  intros Hpub Hfollow i k Hi.
  apply lookup_app_Some in Hi as [Hi|[Hlen Hi]].
  - destruct (Hfollow i k Hi) as (i0 & Hlt & Hi0). exists i0.
    split; [done|]. by apply lookup_app_l_Some.
  - apply list_elem_of_lookup_1 in Hpub as [i0 Hi0]. exists i0.
    split; [apply lookup_lt_Some in Hi0; lia|]. by apply lookup_app_l_Some.
Qed.

Section TraceFacts.
Context `{Collaborators}.

Lemma settle_trace (r : result obj) (m : machine) : trace (settle r m) = trace m.
Proof. unfold settle. by destruct (settled m). Qed.

Lemma collect_catch_trace (err : exn) (m : machine) : trace (collect_catch err m) = trace m.
Proof. unfold collect_catch. by rewrite settle_trace. Qed.

Lemma assemble_trace (m : machine) : trace (assemble m) = trace m ++ [Assembled].
Proof.
  unfold assemble. cbv zeta.
  destruct (final_tree _); by rewrite ?settle_trace, ?collect_catch_trace.
Qed.

Lemma start_entries_trace (kind : join_kind) (entries : obj) :
  ∀ loads m, ∃ ks,
    trace (start_entries kind entries loads m).1.1 = trace m ++ (Processing kind <$> ks).
Proof.
  induction entries as [|[k p] entries IH]; intros loads m.
  - exists []. cbn [start_entries fst fmap list_fmap]. by rewrite app_nil_r.
  - cbn [start_entries].
    destruct (_processProperty _ _ k p) as [[collectedData|property]|e].
    + destruct (IH loads (set_collected collectedData (add_event (Processing kind k) m)))
        as [ks ->].
      exists (k :: ks). cbn [trace set_collected add_event].
      by rewrite <- app_assoc.
    + destruct (IH (loads ++ [(k, property)]) (add_event (Processing kind k) m)) as [ks ->].
      exists (k :: ks). cbn [trace add_event]. by rewrite <- app_assoc.
    + exists [k]. done.
Qed.

Lemma start_join_trace (kind : join_kind) (entries : obj) (m : machine) :
  ∃ ks, trace (start_join kind entries m).1 = trace m ++ (Processing kind <$> ks).
Proof.
  unfold start_join.
  destruct (start_entries_trace kind entries [] m) as [ks Hks].
  destruct (start_entries kind entries [] m) as [[m' loads] [e|]]; by exists ks.
Qed.

Lemma start_stats_trace (m : machine) : ∃ e, trace (start_stats m) = trace m ++ e.
Proof.
  unfold start_stats.
  destruct (start_join_trace StatsProperties stats m) as [ks Hks].
  destruct (start_join StatsProperties stats m) as [m' [j|e]]; cbn [fst] in Hks.
  - destruct (join_is <$> joins m' !! j) as [[[|n]| |]|];
      try (eexists; exact Hks).
    rewrite assemble_trace. cbn [trace set_join_state set_joins].
    rewrite Hks, <- app_assoc. by eexists.
  - rewrite collect_catch_trace. by eexists.
Qed.

Lemma fulfil_trace (j : nat) (m : machine) : ∃ e, trace (fulfil j m) = trace m ++ e.
Proof.
  unfold fulfil. destruct (join_of <$> joins m !! j) as [[i|]|];
    [..|exists []; by rewrite app_nil_r]; cbv zeta.
  - destruct (bool_decide _); [|by eexists].
    destruct (start_stats_trace (publish i (set_join_state j Fulfilled m))) as [e ->].
    cbn [trace publish add_event set_join_state set_joins].
    rewrite <- app_assoc. by eexists.
  - destruct (bool_decide _); [|exists []; by rewrite app_nil_r].
    rewrite assemble_trace. by eexists.
Qed.

Lemma member_resolved_trace (j : nat) (m : machine) :
  ∃ e, trace (member_resolved j m) = trace m ++ e.
Proof.
  unfold member_resolved.
  destruct (join_is <$> joins m !! j) as [[[|[|n]]| |]|];
    try (exists []; by rewrite app_nil_r).
  cbv zeta. destruct (fulfil_trace j (set_join_state j (Waiting 0) m)) as [e ->].
  by eexists.
Qed.

Lemma member_rejected_trace (err : exn) (j : nat) (m : machine) :
  trace (member_rejected err j m) = trace m.
Proof.
  unfold member_rejected.
  destruct (join_is <$> joins m !! j) as [[n| |]|]; try done.
  cbv zeta. destruct (bool_decide _); [|done]. by rewrite collect_catch_trace.
Qed.

Lemma deliver_trace (i : nat) (m : machine) : ∃ e, trace (deliver i m) = trace m ++ e.
Proof.
  unfold deliver. destruct (in_flight m !! i) as [t|]; [|exists []; by rewrite app_nil_r].
  cbv zeta. destruct (processProperty_settle _ _ _ _) as [[c|err|] lines].
  - destruct (task_join t) as [j|]; [|by eexists].
    match goal with |- context [member_resolved j ?m1] =>
      destruct (member_resolved_trace j m1) as [e ->] end.
    cbn [trace add_event set_collected set_in_flight]. rewrite <- app_assoc. by eexists.
  - destruct (task_join t) as [j|]; [|exists []; by rewrite app_nil_r].
    rewrite member_rejected_trace. exists []. by rewrite app_nil_r.
  - exists []. by rewrite app_nil_r.
Qed.

End TraceFacts.

Section SequenceFacts.
Context `{Collaborators}.

Lemma sequenced_extend (m m' : machine) (e : list event) :
  trace m' = trace m ++ e →
  Published 0 ∈ trace m → stats_follow_context (trace m) → sequenced m'.
Proof.
  intros Htr Hpub Hfollow. right. rewrite Htr.
  split; [apply elem_of_app; by left|by apply follow_app].
Qed.

Lemma sequenced_later (m m' : machine) (e : list event) :
  trace m' = trace m ++ e →
  (∀ k, Processing StatsProperties k ∉ e) →
  awaited m' = awaited m ∨ awaited m' = None →
  (∀ j kind, join_of <$> joins m !! j = Some kind →
             join_of <$> joins m' !! j = Some kind) →
  sequenced m → sequenced m'.
Proof.
  intros Htr He Haw Hjoins [[Hnone Hwait]|[Hpub Hfollow]].
  - left. split.
    + intros k. rewrite Htr. apply not_elem_of_app. split; [apply Hnone|apply He].
    + intros j Hj. apply Hjoins, Hwait. destruct Haw as [Haw|Haw]; congruence.
  - by apply (sequenced_extend m m' e).
Qed.

Lemma settle_frame (r : result obj) (m : machine) :
  joins (settle r m) = joins m
  ∧ (awaited (settle r m) = awaited m ∨ awaited (settle r m) = None).
Proof. unfold settle. destruct (settled m); cbn [joins awaited]; auto. Qed.

Lemma sequenced_catch (err : exn) (m : machine) :
  sequenced m → sequenced (collect_catch err m).
Proof.
  intros Hm. apply (sequenced_later m _ []); try done.
  - by rewrite collect_catch_trace, app_nil_r.
  - intros k. apply not_elem_of_nil.
  - unfold collect_catch.
    destruct (settle_frame (Throw err)
                (add_log ["Error: SystemStats.collect: " +:+ exn_to_string err] m))
      as [_ Haw]. exact Haw.
  - intros j kind. unfold collect_catch.
    destruct (settle_frame (Throw err)
                (add_log ["Error: SystemStats.collect: " +:+ exn_to_string err] m))
      as [-> _]. done.
Qed.

Lemma sequenced_assemble (m : machine) : sequenced m → sequenced (assemble m).
Proof.
  intros Hm.
  assert (Hm' : sequenced (add_event Assembled m)).
  { apply (sequenced_later m _ [Assembled]); try done; [|by left].
    intros k [=]%list_elem_of_singleton. }
  unfold assemble. cbv zeta. destruct (final_tree _) as [data_|e].
  - apply (sequenced_later (add_event Assembled m) _ []); try done.
    + by rewrite settle_trace, app_nil_r.
    + intros k. apply not_elem_of_nil.
    + apply settle_frame.
    + intros j kind. by destruct (settle_frame (Ok data_) (add_event Assembled m)) as [-> _].
  - by apply sequenced_catch.
Qed.

Lemma sequenced_set_join_state (j : nat) (st : join_state) (m : machine) :
  sequenced m → sequenced (set_join_state j st m).
Proof.
  intros Hm. apply (sequenced_later m _ []); try done.
  - by rewrite app_nil_r.
  - intros k. apply not_elem_of_nil.
  - by left.
  - intros j' kind. by rewrite join_of_set_join_state.
Qed.

Lemma sequenced_start_stats (m : machine) :
  Published 0 ∈ trace m → stats_follow_context (trace m) → sequenced (start_stats m).
Proof.
  intros Hpub Hfollow. destruct (start_stats_trace m) as [e He].
  by apply (sequenced_extend m _ e).
Qed.

Lemma sequenced_publish (i : nat) (m : machine) : sequenced m → sequenced (publish i m).
Proof.
  intros Hm. apply (sequenced_later m _ [Published i]); try done; [|by left].
  intros k [=]%list_elem_of_singleton.
Qed.

Lemma sequenced_fulfil (j : nat) (m : machine) : sequenced m → sequenced (fulfil j m).
Proof.
  intros Hm. unfold fulfil.
  destruct (join_of <$> joins m !! j) as [kind|] eqn:Hkind; [|done]. cbv zeta.
  pose proof (sequenced_set_join_state j Fulfilled m Hm) as Hm'.
  destruct kind as [i|].
  - case_bool_decide as Hw; [|by apply sequenced_publish].
    cbn [awaited set_join_state set_joins] in Hw.
    assert (Hpub : Published 0 ∈ trace (publish i (set_join_state j Fulfilled m))
                   ∧ stats_follow_context (trace (publish i (set_join_state j Fulfilled m)))).
    { cbn [trace publish add_event set_join_state set_joins].
      destruct Hm as [[Hnone Hwait]|[Hpub Hfollow]].
      - specialize (Hwait j Hw). rewrite Hkind in Hwait. injection Hwait as ->.
        split; [apply elem_of_app; right; apply list_elem_of_here|].
        intros i' k Hi'. apply lookup_app_Some in Hi' as [Hi'|[_ Hi']].
        + destruct (Hnone k). by eapply list_elem_of_lookup_2.
        + by apply list_lookup_singleton_Some in Hi' as [_ [=]].
      - split; [apply elem_of_app; by left|by apply follow_app]. }
    destruct Hpub as [Hpub Hfollow]. by apply sequenced_start_stats.
  - case_bool_decide; [by apply sequenced_assemble|done].
Qed.

Lemma sequenced_member_resolved (j : nat) (m : machine) :
  sequenced m → sequenced (member_resolved j m).
Proof.
  intros Hm. unfold member_resolved.
  destruct (join_is <$> joins m !! j) as [[[|n]| |]|]; try done. cbv zeta.
  pose proof (sequenced_set_join_state j (Waiting n) m Hm) as Hm'.
  destruct n; [by apply sequenced_fulfil|done].
Qed.

Lemma sequenced_member_rejected (err : exn) (j : nat) (m : machine) :
  sequenced m → sequenced (member_rejected err j m).
Proof.
  intros Hm. unfold member_rejected.
  destruct (join_is <$> joins m !! j) as [[n| |]|]; try done. cbv zeta.
  pose proof (sequenced_set_join_state j Failed m Hm) as Hm'.
  case_bool_decide; [by apply sequenced_catch|done].
Qed.

Lemma sequenced_deliver (i : nat) (m : machine) : sequenced m → sequenced (deliver i m).
Proof.
  intros Hm. unfold deliver. destruct (in_flight m !! i) as [t|]; [|done]. cbv zeta.
  destruct (processProperty_settle _ _ _ _) as [[c|err|] lines].
  - match goal with |- context [add_event ?ev ?m0] =>
      assert (Hm1 : sequenced (add_event ev m0)) end.
    { apply (sequenced_later m _ [Stored (task_kind t) (task_key t)]); try done; [|by left].
      intros k [=]%list_elem_of_singleton. }
    destruct (task_join t); [by apply sequenced_member_resolved|done].
  - match goal with |- context [add_log ?ls ?m0] =>
      assert (Hm1 : sequenced (add_log ls m0)) end.
    { apply (sequenced_later m _ []); try done; [by rewrite app_nil_r| |by left].
      intros k. apply not_elem_of_nil. }
    destruct (task_join t); [by apply sequenced_member_rejected|done].
  - apply (sequenced_later m _ []); try done; [by rewrite app_nil_r| |by left].
    intros k. apply not_elem_of_nil.
Qed.

Lemma sequenced_run (schedule : list nat) (m : machine) :
  sequenced m → sequenced (run schedule m).
Proof.
  revert m. induction schedule as [|i schedule IH]; intros m Hm; [done|].
  apply IH. by apply sequenced_deliver.
Qed.

End SequenceFacts.

Section SequenceStart.
Context `{Collaborators}.

Lemma before_stats_later (m m' : machine) (e : list event) :
  trace m' = trace m ++ e →
  (∀ k, Processing StatsProperties k ∉ e) →
  awaited m' = awaited m →
  (∀ j kind, join_of <$> joins m !! j = Some kind →
             join_of <$> joins m' !! j = Some kind) →
  before_stats m → before_stats m'.
Proof.
  intros Htr He Haw Hjoins [Hnone Hwait]. split.
  - intros k. rewrite Htr. apply not_elem_of_app. split; [apply Hnone|apply He].
  - intros j Hj. apply Hjoins, Hwait. congruence.
Qed.

(** A [Promise.all] of a context phase is begun: no stats property is
    processed, and the new [Promise.all] is that of the phase. *)
Lemma before_stats_start_join (i : nat) (entries : obj) (m : machine) :
  before_stats m →
  before_stats (start_join (ContextPhase i) entries m).1
  ∧ awaited (start_join (ContextPhase i) entries m).1 = awaited m
  ∧ (∀ j kind, join_of <$> joins m !! j = Some kind →
               join_of <$> joins (start_join (ContextPhase i) entries m).1 !! j = Some kind)
  ∧ (∀ j, (start_join (ContextPhase i) entries m).2 = Ok j →
          j = length (joins m)
          ∧ join_of <$> joins (start_join (ContextPhase i) entries m).1 !! j
            = Some (ContextPhase i)).
Proof.
  intros Hm.
  destruct (start_join_trace (ContextPhase i) entries m) as [ks Hks].
  unfold start_join in *.
  pose proof (start_entries_frame (ContextPhase i) entries [] m) as Hframe.
  cbv zeta in Hframe.
  destruct (start_entries (ContextPhase i) entries [] m) as [[m' loads] err].
  cbn [fst snd] in Hframe. destruct Hframe as (_ & Hjoins & Hawaited & _).
  assert (Hevents : ∀ k, Processing StatsProperties k ∉ Processing (ContextPhase i) <$> ks).
  { intros k Hin. by apply list_elem_of_fmap in Hin as (? & [=] & _). }
  destruct err as [e|]; cbn [fst snd] in *.
  - assert (Hmono : ∀ j kind, join_of <$> joins m !! j = Some kind →
                              join_of <$> joins m' !! j = Some kind)
      by (intros j kind; by rewrite Hjoins).
    split; [by eapply before_stats_later|]. split; [done|]. split; [done|].
    by intros j [=].
  - assert (Hmono : ∀ j kind, join_of <$> joins m !! j = Some kind →
              join_of <$> (joins m' ++ [{| join_of := ContextPhase i;
                                           join_is := Waiting (length loads) |}]) !! j
              = Some kind).
    { intros j kind Hj. rewrite Hjoins.
      destruct (joins m !! j) as [jn|] eqn:Hjn; [|done].
      by rewrite (lookup_app_l_Some _ _ _ _ Hjn). }
    split; [by eapply before_stats_later|]. split; [done|]. split; [done|].
    intros j [= <-]. split; [by rewrite Hjoins|].
    cbn [joins set_joins add_tasks]. rewrite Hjoins.
    by rewrite list_lookup_middle.
Qed.

Lemma before_stats_start_phases (phases : list value) :
  ∀ i m,
    before_stats m →
    before_stats (start_phases i phases m).1
    ∧ awaited (start_phases i phases m).1 = awaited m
    ∧ (∀ j kind, join_of <$> joins m !! j = Some kind →
                 join_of <$> joins (start_phases i phases m).1 !! j = Some kind).
Proof.
  induction phases as [|phase phases IH]; intros i m Hm; [done|].
  cbn [start_phases]. destruct (object_entries phase) as [entries|e]; [|done].
  destruct (before_stats_start_join i entries m Hm) as (Hm' & Haw & Hmono & _).
  destruct (start_join (ContextPhase i) entries m) as [m' [j|e]]; [|done].
  cbn [fst] in *. destruct (IH (S i) m' Hm') as (Hm'' & Haw' & Hmono').
  split; [done|]. split; [congruence|]. intros j' kind Hj. by apply Hmono', Hmono.
Qed.

Lemma sequenced_drain (m : machine) : sequenced m → sequenced (drain m).
Proof.
  unfold drain. generalize (seq 0 (length (joins m))). intros js.
  revert m. induction js as [|j js IH]; intros m Hm; [done|].
  cbn [fold_left]. apply IH.
  destruct (join_is <$> joins m !! j) as [[[|n]| |]|]; try done.
  by apply sequenced_fulfil.
Qed.

Lemma before_stats_awaited (j : nat) (m : machine) :
  before_stats m → join_of <$> joins m !! j = Some (ContextPhase 0) →
  before_stats (set_awaited (Some j) m).
Proof.
  intros [Hnone _] Hj. split; [done|]. by intros j' [= <-].
Qed.

(** The first turn of [collect] with a context that has a phase. *)
Lemma sequenced_collect_start (tags_ : value) :
  truthy context = true → (∀ props, context ≠ VArr [] props) →
  sequenced (collect_start tags_).
Proof.
  intros Htruthy Hphase. unfold collect_start. cbv zeta.
  set (m0 := {| this_contextData := _ |}).
  assert (Hm0 : before_stats m0).
  { split; [intros k; apply not_elem_of_nil|done]. }
  destruct loader_auth as [[]|e]; [|apply sequenced_catch; by left].
  unfold _computeContextData.
  destruct context as [| | | | | |[|phase rest] props|fields] eqn:Hcontext;
    try done; try (by destruct (Hphase props)); rewrite ?Htruthy.
  all: try match goal with |- context [object_entries ?p] =>
      destruct (object_entries p) as [entries|e];
        [|apply sequenced_catch, sequenced_drain; by left] end.
  all: match goal with |- context [start_join (ContextPhase 0) ?es ?mm] =>
      destruct (before_stats_start_join 0 es mm Hm0) as (Hm1 & Haw1 & Hmono1 & Hj1);
      destruct (start_join (ContextPhase 0) es mm) as [m1 [j|e]]; cbn [fst snd] in *;
        [|apply sequenced_catch, sequenced_drain; by left] end.
  all: destruct (Hj1 j eq_refl) as [_ Hj].
  all: try match goal with |- context [start_phases 1 ?ps ?mm] =>
      destruct (before_stats_start_phases ps 1 mm Hm1) as (Hm2 & Haw2 & Hmono2);
      destruct (start_phases 1 ps mm) as [m2 [[]|e]]; cbn [fst snd] in *;
        [|apply sequenced_catch, sequenced_drain; by left] end.
  all: apply sequenced_drain; left; apply before_stats_awaited; auto.
Qed.

(** X15: the stats properties wait for the context.  When the context has
    a phase, no stats property is processed before the first phase of the
    context has been published to [contextData], whatever the loader answers
    and in whatever order. *)
Theorem stats_wait_for_context (tags_ : value) (schedule : list nat) (i : nat) (k : string) :
  truthy context = true → (∀ props, context ≠ VArr [] props) →
  trace (collect tags_ schedule) !! i = Some (Processing StatsProperties k) →
  ∃ i0, (i0 < i)%nat ∧ trace (collect tags_ schedule) !! i0 = Some (Published 0).
Proof.
  intros Htruthy Hphase Hi.
  destruct (sequenced_run schedule _ (sequenced_collect_start tags_ Htruthy Hphase))
    as [[Hnone _]|[_ Hfollow]].
  - destruct (Hnone k). by eapply list_elem_of_lookup_2.
  - by apply (Hfollow i k).
Qed.

End SequenceStart.

Lemma stats_wait_for_context_witness :
  let H := sample (VObj [("deviceVersion", VObj [("key", VStr "deviceInfo")])])
             [("pools", VObj [("key", VStr "pools")])] in
  ∃ i0, (i0 < 3)%nat ∧ trace (collect VUndef [0]) !! i0 = Some (Published 0).
Proof.
  intros H. apply (@stats_wait_for_context H VUndef [0] 3 "pools").
  - reflexivity.
  - intros props. discriminate.
  - vm_compute. reflexivity.
Defined.

(** ** Properties the last step leaves alone *)

Section UntouchedFacts.
Context `{Collaborators}.

Lemma restructure_untouched (key_ : string) :
  parent_of key_ = None →
  ∀ keys data_ out,
    (∀ c, c ∈ keys → parent_of c ≠ Some key_) →
    restructure data_ keys = Ok out →
    obj_lookup key_ out = obj_lookup key_ data_.
Proof.
  intros Hparent. induction keys as [|k keys IH]; intros data_ out Hchildren Hout.
  - by injection Hout as ->.
  - rewrite restructure_cons, restructure_step_parent in Hout.
    assert (Hrest : ∀ c, c ∈ keys → parent_of c ≠ Some key_)
      by (intros c Hc; apply Hchildren; by right).
    destruct (parent_of k) as [p|] eqn:Hp.
    + destruct (set_member (obj_get p data_) k (obj_get k data_)) as [parent|e]; [|done].
      rewrite !bind_Ok_l in Hout. rewrite (IH _ _ Hrest Hout).
      assert (Hk : key_ ≠ k) by (intros ->; congruence).
      rewrite relocate_lookup by done. rewrite decide_False; [done|].
      intros ->. by apply (Hchildren k); [left|].
    + rewrite bind_Ok_l in Hout. by apply IH.
Qed.

(** X16: the last step of [collect] leaves alone every property that is
    neither moved under a parent nor the parent of another property: the
    tree holds under its key what was collected under it ([undefined] when
    nothing was). *)
Theorem final_tree_untouched (collectedData output : obj) (key_ : string) :
  NoDup (obj_keys stats) →
  final_tree collectedData = Ok output →
  key_ ∈ obj_keys stats →
  parent_of key_ = None →
  (∀ c, c ∈ obj_keys stats → parent_of c ≠ Some key_) →
  obj_lookup key_ output = Some (obj_get key_ collectedData).
Proof.
  intros Hnd Hout Hin Hparent Hchildren. unfold final_tree in Hout. cbv zeta in Hout.
  rewrite order_data_keys in Hout by done. rewrite obj_keys_fmap in Hout.
  rewrite (restructure_untouched key_ Hparent _ _ _ Hchildren Hout).
  by rewrite obj_lookup_fmap_keys, decide_True.
Qed.

End UntouchedFacts.

Lemma final_tree_untouched_witness :
  let H := sample (VObj []) sample_stats in
  obj_lookup "asmState"
    [("system", VObj [("hostname", VStr "bigip1")]); ("asmState", VStr "enabled")]
  = Some (obj_get "asmState" [("hostname", VStr "bigip1"); ("asmState", VStr "enabled");
                              ("system", VObj [])]).
Proof.
  intros H.
  apply (@final_tree_untouched H
           [("hostname", VStr "bigip1"); ("asmState", VStr "enabled"); ("system", VObj [])]
           [("system", VObj [("hostname", VStr "bigip1")]); ("asmState", VStr "enabled")]
           "asmState").
  - by eapply bool_decide_unpack; vm_compute.
  - vm_compute. reflexivity.
  - by eapply bool_decide_unpack; vm_compute.
  - vm_compute. reflexivity.
  - intros c Hc. apply Forall_forall with (x := c) (l := obj_keys stats); [|done].
    by eapply bool_decide_unpack; vm_compute.
Defined.

(** ** The root key holds no separator *)

Lemma prefix_app (p t : string) : String.prefix p (p +:+ t) = true.
Proof.
  induction p as [|a p IH]; [by destruct t|].
  rewrite append_cons. cbn [String.prefix].
  by destruct (Ascii.ascii_dec a a).
Qed.

Lemma append_eq_nil (a b : string) : a +:+ b = "" → a = "" ∧ b = "".
Proof.
  destruct a; [rewrite append_nil_l; by intros ->|by rewrite append_cons].
Qed.

(** The ways to cut a string that ends with the character [c]. *)
Lemma append_snoc_inv (c : Ascii.ascii) (cur : string) :
  ∀ v u, v +:+ u = cur +:+ String c "" → u ≠ "" →
    (u = String c "" ∧ v = cur)
    ∨ ∃ u0, u0 ≠ "" ∧ u = u0 +:+ String c "" ∧ cur = v +:+ u0.
Proof.
  induction cur as [|x cur IH]; intros v u Heq Hu.
  - rewrite append_nil_l in Heq. destruct v as [|y v].
    + rewrite append_nil_l in Heq. by left.
    + rewrite append_cons in Heq. injection Heq as -> Heq.
      by apply append_eq_nil in Heq as [_ ->].
  - rewrite append_cons in Heq. destruct v as [|y v].
    + rewrite append_nil_l in Heq. right. exists (String x cur).
      split; [done|]. by rewrite append_cons, append_nil_l.
    + rewrite append_cons in Heq. injection Heq as -> Heq.
      destruct (IH v u Heq Hu) as [[-> ->]|(u0 & Hu0 & -> & ->)]; [by left|].
      right. exists u0. by rewrite append_cons.
Qed.

Lemma split_go_head (sep : string) :
  sep ≠ "" →
  ∀ s cur,
    (∀ v u, cur = v +:+ u → u ≠ "" → String.prefix sep (u +:+ s) = false) →
    ∀ root rest, split_go sep 0 cur s = root :: rest →
      ∀ a b, root ≠ a +:+ sep +:+ b.
Proof.
  intros Hsep.
  assert (Hfound : ∀ s cur,
            (∀ v u, cur = v +:+ u → u ≠ "" → String.prefix sep (u +:+ s) = false) →
            ∀ a b, cur ≠ a +:+ sep +:+ b).
  { intros s cur Hcur a b Heq.
    assert (Hu : sep +:+ b ≠ "") by (destruct sep; done).
    specialize (Hcur a (sep +:+ b) Heq Hu).
    by rewrite append_assoc, prefix_app in Hcur. }
  induction s as [|c s IH]; intros cur Hcur root rest Hsplit.
  - cbn [split_go] in Hsplit. injection Hsplit as <- _. by apply (Hfound "").
  - cbn [split_go] in Hsplit. destruct (String.prefix sep (String c s)) eqn:Hp.
    + injection Hsplit as <- _. by apply (Hfound (String c s)).
    + refine (IH (cur +:+ String c "") _ root rest Hsplit).
      intros v u Heq Hu.
      destruct (append_snoc_inv c cur v u (eq_sym Heq) Hu)
        as [[-> ->]|(u0 & Hu0 & -> & ->)].
      * by rewrite append_cons, append_nil_l.
      * rewrite append_assoc, append_cons, append_nil_l. by apply (Hcur v).
Qed.

Section RootKey.
Context `{Collaborators}.

(** X17: for a non-empty separator, the root key that [_splitKey] returns
    holds no separator: the key is cut at its first separator, so that the
    root key names the endpoint and everything after the first separator is
    the child key. *)
Theorem splitKey_root_key (s rootKey : string) (childKey : value) :
  STATS_KEY_SEP ≠ "" →
  _splitKey (VStr s) = Ok (VStr rootKey, childKey) →
  ∀ a b, rootKey ≠ a +:+ STATS_KEY_SEP +:+ b.
Proof.
  intros Hsep Hsplit. unfold _splitKey, string_split in Hsplit.
  rewrite decide_False in Hsplit by done.
  destruct (split_go STATS_KEY_SEP 0 "" s) as [|root rest] eqn:Hgo; [done|].
  injection Hsplit as -> _.
  refine (split_go_head STATS_KEY_SEP Hsep s "" _ rootKey rest Hgo).
  intros v u Heq Hu. symmetry in Heq. by apply append_eq_nil in Heq as [_ ->].
Qed.

(** X18: [isModuleProvisioned] on a context whose [provisioning] is an
    object.  A module that is not listed is not provisioned, and for a module
    listed with an object the answer is whether its [level] is set and is not
    ['none']; neither case throws. *)
Theorem isModuleProvisioned_level (contextData prov : obj) (name : string) :
  obj_get "provisioning" contextData = VObj prov →
  name ∉ object_prototype_names →
  (obj_lookup name prov = None →
   isModuleProvisioned contextData (VStr name) = Ok (VBool false))
  ∧ (∀ entry, obj_lookup name prov = Some (VObj entry) →
       isModuleProvisioned contextData (VStr name)
       = Ok (VBool (truthy (obj_get "level" entry)
                    && negb (is_string "none" (obj_get "level" entry))))).
Proof.
  intros Hprov Hname. unfold isModuleProvisioned. cbv zeta. rewrite Hprov.
  cbn [get_member property_key]. rewrite bind_Ok_l. split.
  - intros Hnone. assert (Hget : obj_get name prov = VUndef).
    { unfold obj_get. by rewrite Hnone, decide_False by done. }
    by rewrite Hget.
  - intros entry Hsome. assert (Hget : obj_get name prov = VObj entry).
    { unfold obj_get. by rewrite Hsome. }
    rewrite Hget. cbn [truthy level_of].
    by destruct (truthy (obj_get "level" entry)).
Qed.

End RootKey.

Lemma splitKey_root_key_witness :
  let H := sample (VObj []) [] in
  _splitKey (VStr "sysinfo::memory::used") = Ok (VStr "sysinfo", VStr "memory::used")
  ∧ ∀ a b, "sysinfo" ≠ a +:+ STATS_KEY_SEP +:+ b.
Proof.
  intros H. split; [vm_compute; reflexivity|].
  apply (@splitKey_root_key H "sysinfo::memory::used" "sysinfo" (VStr "memory::used")).
  - done.
  - vm_compute. reflexivity.
Defined.

Lemma isModuleProvisioned_level_witness :
  let H := sample (VObj []) [] in
  let contextData : obj :=
    [("provisioning", VObj [("ltm", VObj [("level", VStr "nominal")]);
                            ("asm", VObj [("level", VStr "none")])])] in
  isModuleProvisioned contextData (VStr "afm") = Ok (VBool false)
  ∧ isModuleProvisioned contextData (VStr "asm") = Ok (VBool false)
  ∧ isModuleProvisioned contextData (VStr "ltm") = Ok (VBool true).
Proof.
  intros H contextData.
  pose (prov := [("ltm", VObj [("level", VStr "nominal")]);
                 ("asm", VObj [("level", VStr "none")])] : obj).
  split; [|split].
  - refine (proj1 (@isModuleProvisioned_level H contextData prov "afm" _ _) _).
    + vm_compute. reflexivity.
    + by eapply bool_decide_unpack; vm_compute.
    + vm_compute. reflexivity.
  - refine (proj2 (@isModuleProvisioned_level H contextData prov "asm" _ _)
              [("level", VStr "none")] _).
    + vm_compute. reflexivity.
    + by eapply bool_decide_unpack; vm_compute.
    + vm_compute. reflexivity.
  - refine (proj2 (@isModuleProvisioned_level H contextData prov "ltm" _ _)
              [("level", VStr "nominal")] _).
    + vm_compute. reflexivity.
    + by eapply bool_decide_unpack; vm_compute.
    + vm_compute. reflexivity.
Defined.

(** ** What [collect] resolves with *)

Section ValueFacts.
Context `{Collaborators}.

Lemma settle_in_flight (r : result obj) (m : machine) :
  in_flight (settle r m) = in_flight m.
Proof. unfold settle. by destruct (settled m). Qed.



End ValueFacts.


(** ** A context of one phase: after it is published *)

Section PublishedFacts.
Context `{Collaborators}.
Variable tags_ : value.
Variable loads : list task.

Lemma published_later (m m' : machine) :
  this_contextData m' = this_contextData m →
  (∀ j i, join_of <$> joins m' !! j = Some (ContextPhase i) →
          join_of <$> joins m !! j = Some (ContextPhase i)
          ∧ join_is <$> joins m' !! j = join_is <$> joins m !! j) →
  context_published tags_ loads m → context_published tags_ loads m'.
Proof.
  intros Hctx Hjoins [Hvalues Hdone]. split.
  - intros t Ht. rewrite Hctx. by apply Hvalues.
  - intros j i Hj. destruct (Hjoins j i Hj) as [Hkind ->]. by eapply Hdone.
Qed.

Lemma settle_context (r : result obj) (m : machine) :
  this_contextData (settle r m) = this_contextData m.
Proof. unfold settle. by destruct (settled m). Qed.

Lemma published_catch (err : exn) (m : machine) :
  context_published tags_ loads m → context_published tags_ loads (collect_catch err m).
Proof.
  apply published_later.
  - unfold collect_catch. by rewrite settle_context.
  - intros j i. unfold collect_catch.
    destruct (settle_frame (Throw err)
                (add_log ["Error: SystemStats.collect: " +:+ exn_to_string err] m))
      as [-> _]. done.
Qed.

Lemma published_assemble (m : machine) :
  context_published tags_ loads m → context_published tags_ loads (assemble m).
Proof.
  intros Hm. unfold assemble. cbv zeta. destruct (final_tree _) as [data_|e].
  - revert Hm. apply published_later.
    + by rewrite settle_context.
    + intros j i. by destruct (settle_frame (Ok data_) (add_event Assembled m)) as [-> _].
  - apply published_catch. revert Hm. by apply published_later.
Qed.

Lemma start_entries_context (kind : join_kind) (entries : obj) :
  ∀ loads' m,
    this_contextData (start_entries kind entries loads' m).1.1 = this_contextData m.
Proof.
  induction entries as [|[k p] entries IH]; intros loads' m; [done|].
  cbn [start_entries].
  destruct (_processProperty _ _ k p) as [[collectedData|property]|e];
    [rewrite IH..|]; done.
Qed.

Lemma published_set_join_state (j : nat) (st : join_state) (m : machine) :
  join_of <$> joins m !! j = Some StatsProperties →
  context_published tags_ loads m → context_published tags_ loads (set_join_state j st m).
Proof.
  intros Hkind. apply published_later; [done|].
  intros j' i Hj'. rewrite join_of_set_join_state in Hj'. split; [done|].
  unfold set_join_state. cbn [joins set_joins].
  destruct (decide (j = j')) as [->|Hne]; [congruence|].
  by rewrite list_lookup_alter_ne.
Qed.

Lemma published_start_stats (m : machine) :
  context_published tags_ loads m → context_published tags_ loads (start_stats m).
Proof.
  intros Hm. unfold start_stats, start_join.
  pose proof (start_entries_frame StatsProperties stats [] m) as Hframe.
  pose proof (start_entries_context StatsProperties stats [] m) as Hctx.
  cbv zeta in Hframe.
  destruct (start_entries StatsProperties stats [] m) as [[m' begun] err].
  cbn [fst snd] in Hframe, Hctx. destruct Hframe as (_ & Hjoins & _).
  assert (Hm' : context_published tags_ loads m').
  { revert Hm. apply published_later; [done|]. intros j i. by rewrite Hjoins. }
  destruct err as [e|].
  - apply published_catch. revert Hm'. by apply published_later.
  - set (m1 := set_joins _ _).
    assert (Hm1 : context_published tags_ loads m1).
    { revert Hm'. apply published_later; [done|]. subst m1.
      cbn [joins set_joins add_tasks]. intros j i Hj.
      destruct (decide (j < length (joins m'))%nat) as [Hlt|Hge].
      - by rewrite lookup_app_l in Hj |- * by done.
      - rewrite lookup_app_r in Hj by lia.
        by destruct (j - length (joins m'))%nat. }
    assert (Hlast : join_of <$> joins m1 !! length (joins m') = Some StatsProperties).
    { subst m1. cbn [joins set_joins add_tasks]. by rewrite list_lookup_middle. }
    destruct (join_is <$> joins m1 !! length (joins m')) as [[[|n]| |]|];
      try (revert Hm1; by apply published_later).
    apply published_assemble. by apply published_set_join_state.
Qed.

Lemma published_member_resolved (j : nat) (m : machine) :
  context_published tags_ loads m → context_published tags_ loads (member_resolved j m).
Proof.
  intros Hm. unfold member_resolved.
  destruct (joins m !! j) as [[kind state]|] eqn:Hj; [|done].
  cbn [fmap option_fmap option_map join_is].
  destruct state as [[|n]| |]; try done. cbv zeta.
  assert (Hkind : join_of <$> joins m !! j = Some StatsProperties).
  { rewrite Hj. destruct kind as [i|]; [|done].
    destruct Hm as [_ Hdone]. specialize (Hdone j i). by rewrite Hj in Hdone;
      specialize (Hdone eq_refl). }
  pose proof (published_set_join_state j (Waiting n) m Hkind Hm) as Hm'.
  destruct n; [|done]. unfold fulfil.
  rewrite join_of_set_join_state, Hkind. cbv zeta.
  case_bool_decide; [|by apply published_set_join_state;
                       [rewrite join_of_set_join_state|]].
  apply published_assemble. apply published_set_join_state; [|done].
  by rewrite join_of_set_join_state.
Qed.

Lemma published_member_rejected (err : exn) (j : nat) (m : machine) :
  context_published tags_ loads m →
  context_published tags_ loads (member_rejected err j m).
Proof.
  intros Hm. unfold member_rejected.
  destruct (joins m !! j) as [[kind state]|] eqn:Hj; [|done].
  cbn [fmap option_fmap option_map join_is].
  destruct state as [n| |]; try done. cbv zeta.
  assert (Hkind : join_of <$> joins m !! j = Some StatsProperties).
  { rewrite Hj. destruct kind as [i|]; [|done].
    destruct Hm as [_ Hdone]. specialize (Hdone j i). by rewrite Hj in Hdone;
      specialize (Hdone eq_refl). }
  pose proof (published_set_join_state j Failed m Hkind Hm) as Hm'.
  case_bool_decide; [by apply published_catch|done].
Qed.

Lemma published_deliver (i : nat) (m : machine) :
  context_published tags_ loads m → context_published tags_ loads (deliver i m).
Proof.
  intros Hm. unfold deliver. destruct (in_flight m !! i) as [t|]; [|done]. cbv zeta.
  destruct (processProperty_settle _ _ _ _) as [[c|err|] lines].
  - match goal with |- context [add_event ?ev ?m0] =>
      assert (Hm1 : context_published tags_ loads (add_event ev m0))
        by (revert Hm; by apply published_later) end.
    destruct (task_join t); [by apply published_member_resolved|done].
  - match goal with |- context [add_log ?ls ?m0] =>
      assert (Hm1 : context_published tags_ loads (add_log ls m0))
        by (revert Hm; by apply published_later) end.
    destruct (task_join t); [by apply published_member_rejected|done].
  - revert Hm. by apply published_later.
Qed.

Lemma published_run (schedule : list nat) (m : machine) :
  context_published tags_ loads m → context_published tags_ loads (run schedule m).
Proof.
  revert m. induction schedule as [|i schedule IH]; intros m Hm; [done|].
  apply IH. by apply published_deliver.
Qed.

End PublishedFacts.

(** ** A context of one phase: while it is loaded *)

Lemma obj_set_NoDup (k : string) (v : value) (o : obj) :
  NoDup (obj_keys o) → NoDup (obj_keys (obj_set k v o)).
Proof.
  intros Hnd. destruct (decide (k ∈ obj_keys o)) as [Hin|Hnotin].
  - by rewrite obj_keys_set_present.
  - rewrite obj_set_absent by done. unfold obj_keys. rewrite fmap_app.
    apply NoDup_app. split; [done|]. split; [|apply NoDup_singleton].
    intros k' Hk' ->%list_elem_of_singleton. done.
Qed.

Section ContextFacts.
Context `{Collaborators}.

Lemma deliver_context_gathering (tags_ : value) (loads : list task) (initial : obj)
    (i : nat) (m : machine) :
  NoDup (task_key <$> loads) →
  (∀ t, t ∈ loads → load_succeeds tags_ t) →
  context_gathering tags_ loads initial m →
  context_gathering tags_ loads initial (deliver i m)
  ∨ context_published tags_ loads (deliver i m).
Proof.
  intros Hnd Hok
    (Hnone & Haw & Hjoins & Hne & Htags & Hctx & Hpub & Hall & Hkeys & Hndc & Hgath).
  assert (Hjoin : joins m !! 0%nat
                  = Some {| join_of := ContextPhase 0;
                            join_is := Waiting (length (in_flight m)) |})
    by (by rewrite Hjoins).
  unfold deliver. destruct (in_flight m !! i) as [t|] eqn:Hi; [|by left]. cbv zeta.
  assert (Ht : task_join t = Some 0%nat ∧ t ∈ loads).
  { eapply Forall_forall in Hall; [done|]. by eapply list_elem_of_lookup_2. }
  destruct Ht as [Hj Ht].
  cbn [this_tags this_collectedData set_in_flight]. rewrite Htags.
  rewrite processProperty_settle_succeeds by auto. rewrite Hj.
  assert (Hg : gathered tags_ loads (delete i (in_flight m)) initial
                 (obj_set (task_key t) (stored_value tags_ t) (this_collectedData m))).
  { apply gathered_step; try done.
    - eapply Forall_impl; [exact Hall|]. by intros ? [_ ?].
    - by eapply NoDup_fmap_1. }
  assert (Hlen : length (in_flight m) = S (length (delete i (in_flight m)))).
  { rewrite length_delete by eauto. apply lookup_lt_Some in Hi. lia. }
  unfold member_resolved. cbn [joins add_event set_collected set_in_flight].
  rewrite Hjoin. cbn [fmap option_fmap option_map join_is]. rewrite Hlen. cbv zeta.
  destruct (length (delete i (in_flight m))) as [|n] eqn:Hn.
  - right. unfold fulfil.
    rewrite join_of_set_join_state. cbn [joins add_event set_collected set_in_flight].
    rewrite Hjoin. cbn [fmap option_fmap option_map join_of]. cbv zeta.
    cbn [awaited set_join_state set_joins add_event set_collected set_in_flight].
    rewrite Haw, bool_decide_eq_true_2 by done.
    apply published_start_stats. split.
    + intros t' Ht'.
      cbn [this_contextData this_collectedData publish add_event set_join_state
           set_joins set_collected set_in_flight].
      rewrite Hctx, obj_lookup_assign by (by apply obj_set_NoDup).
      destruct Hg as [Hdone _]. rewrite (nil_length_inv _ Hn) in Hdone.
      rewrite Hdone; [done|done|apply not_elem_of_nil].
    + intros j k.
      cbn [joins publish add_event set_join_state set_joins set_collected
           set_in_flight].
      rewrite Hjoins. destruct j as [|j]; [done|]. by destruct j.
  - left. unfold context_gathering.
    cbn [settled awaited joins in_flight this_tags this_collectedData this_contextData
         trace set_join_state set_joins add_event set_collected set_in_flight].
    split; [done|]. split; [done|].
    split; [rewrite Hjoins, Hn; reflexivity|].
    split; [by intros Hnil; rewrite Hnil in Hn|]. split; [done|]. split; [done|].
    split; [apply not_elem_of_app; split; [done|];
            by intros [=]%list_elem_of_singleton|].
    split; [by apply Forall_delete|]. split; [|split; [by apply obj_set_NoDup|done]].
    assert (Hsub : sublist (task_key <$> delete i (in_flight m)) (task_key <$> in_flight m))
      by apply fmap_sublist, sublist_delete.
    exact (sublist_NoDup _ _ Hkeys Hsub).
Qed.

Lemma run_context_gathering (tags_ : value) (loads : list task) (initial : obj)
    (schedule : list nat) :
  NoDup (task_key <$> loads) →
  (∀ t, t ∈ loads → load_succeeds tags_ t) →
  ∀ m, context_gathering tags_ loads initial m →
    context_gathering tags_ loads initial (run schedule m)
    ∨ context_published tags_ loads (run schedule m).
Proof.
  intros Hnd Hok. induction schedule as [|i schedule IH]; intros m Hm; [by left|].
  change (run (i :: schedule) m) with (run schedule (deliver i m)).
  destruct (deliver_context_gathering tags_ loads initial i m Hnd Hok Hm) as [Hm'|Hm'].
  - by apply IH.
  - right. by apply published_run.
Qed.

(** With no [Promise.all] nothing is ever published. *)
Lemma abandoned_deliver (i : nat) (m : machine) :
  context_abandoned m → context_abandoned (deliver i m).
Proof.
  intros [Hjoins Hpub]. unfold deliver.
  destruct (in_flight m !! i) as [t|]; [|done]. cbv zeta.
  destruct (processProperty_settle _ _ _ _) as [[c|err|] lines].
  - assert (Hstored : Published 0 ∉ trace m ++ [Stored (task_kind t) (task_key t)]).
    { apply not_elem_of_app. split; [done|]. by intros [=]%list_elem_of_singleton. }
    destruct (task_join t) as [j|]; [|done].
    unfold member_resolved. cbn [joins add_event set_collected set_in_flight].
    by rewrite Hjoins.
  - destruct (task_join t) as [j|]; [|done].
    unfold member_rejected. cbn [joins add_log set_in_flight].
    by rewrite Hjoins.
  - done.
Qed.

Lemma abandoned_run (schedule : list nat) (m : machine) :
  context_abandoned m → context_abandoned (run schedule m).
Proof.
  revert m. induction schedule as [|i schedule IH]; intros m Hm; [done|].
  apply IH. by apply abandoned_deliver.
Qed.

End ContextFacts.

(** ** A context of one phase: the first turn *)

Section FirstTurn.
Context `{Collaborators}.

Lemma start_entries_NoDup (kind : join_kind) (entries : obj) :
  ∀ loads m,
    NoDup (obj_keys (this_collectedData m)) →
    NoDup (obj_keys (this_collectedData (start_entries kind entries loads m).1.1)).
Proof.
  induction entries as [|[k p] entries IH]; intros loads m Hnd; [done|].
  cbn [start_entries].
  destruct (_processProperty _ _ k p) as [[collectedData|property]|e] eqn:Hp;
    [apply IH..|]; try done.
  cbn [this_collectedData set_collected].
  cbn [this_contextData this_collectedData add_event] in Hp.
  destruct (processProperty_settled _ _ _ _ _ Hp) as [->| ->];
    [done|by apply obj_set_NoDup].
Qed.

(** The loads the turn of the stats properties begins are loads of stats
    properties. *)
Lemma start_stats_kinds (m : machine) :
  in_flight m = [] →
  Forall (λ t, task_kind t = StatsProperties) (in_flight (start_stats m)).
Proof.
  intros Hidle. unfold start_stats, start_join.
  pose proof (start_entries_frame StatsProperties stats [] m) as Hframe.
  cbv zeta in Hframe.
  destruct (start_entries StatsProperties stats [] m) as [[m' loads] err].
  cbn [fst snd] in Hframe. destruct Hframe as (Hflight & Hjoins & _).
  assert (Hkinds : ∀ j, Forall (λ t, task_kind t = StatsProperties)
                          (in_flight m' ++ new_tasks j StatsProperties loads)).
  { intros j. rewrite Hflight, Hidle, app_nil_l. unfold new_tasks.
    apply Forall_fmap. by apply Forall_forall. }
  destruct err as [e|].
  - unfold collect_catch. rewrite settle_in_flight. apply Hkinds.
  - cbn [joins set_joins add_tasks]. rewrite Hjoins.
    rewrite list_lookup_middle by done. cbn [fmap option_fmap option_map join_is].
    destruct (length loads) as [|n]; [|apply Hkinds].
    unfold assemble. cbv zeta.
    destruct (final_tree _); unfold collect_catch; rewrite settle_in_flight;
      apply Hkinds.
Qed.

Lemma settle_tags (r : result obj) (m : machine) : this_tags (settle r m) = this_tags m.
Proof. unfold settle. by destruct (settled m). Qed.

Lemma start_stats_tags (m : machine) : this_tags (start_stats m) = this_tags m.
Proof.
  unfold start_stats, start_join.
  pose proof (start_entries_frame StatsProperties stats [] m) as Hf.
  cbv zeta in Hf.
  destruct (start_entries StatsProperties stats [] m) as [[m' loads] err].
  cbn [fst snd] in Hf. destruct Hf as (_ & _ & _ & _ & Htags & _).
  destruct err as [e|].
  - unfold collect_catch. by rewrite settle_tags.
  - destruct (join_is <$> _) as [[[|n]| |]|]; try done.
    unfold assemble. cbv zeta.
    destruct (final_tree _); unfold collect_catch; by rewrite settle_tags.
Qed.

(** The first turn of [collect] when the context is one object: nothing can
    be published (the authentication failed or a property threw), or the
    loads of the context are in flight, or the context had nothing to load
    and is published. *)
Lemma collect_start_one_phase (tags_ : value) (entries : obj) :
  context = VObj entries →
  NoDup (obj_keys entries) →
  context_abandoned (collect_start tags_)
  ∨ (∃ initial,
       context_gathering (this_tags (collect_start tags_)) (in_flight (collect_start tags_))
         initial (collect_start tags_)
       ∧ NoDup (task_key <$> in_flight (collect_start tags_)))
  ∨ (context_published (this_tags (collect_start tags_)) [] (collect_start tags_)
     ∧ Forall (λ t, task_kind t = StatsProperties) (in_flight (collect_start tags_))).
Proof.
  intros Hcontext Hnd. unfold collect_start. cbv zeta.
  set (m0 := {| this_contextData := _ |}).
  destruct loader_auth as [[]|e].
  2: { left. split.
       - unfold collect_catch.
         by destruct (settle_frame (Throw e)
                        (add_log ["Error: SystemStats.collect: " +:+ exn_to_string e] m0))
           as [-> _].
       - rewrite collect_catch_trace. apply not_elem_of_nil. }
  rewrite Hcontext. unfold _computeContextData. cbn [truthy own_entries].
  unfold start_join.
  pose proof (start_entries_frame (ContextPhase 0) entries [] m0) as Hframe.
  pose proof (start_entries_context (ContextPhase 0) entries [] m0) as Hctx.
  pose proof (start_entries_NoDup (ContextPhase 0) entries [] m0 (NoDup_nil_2)) as Hndc.
  destruct (start_entries_trace (ContextPhase 0) entries [] m0) as [ks Htrace].
  cbv zeta in Hframe.
  destruct (start_entries (ContextPhase 0) entries [] m0) as [[m' loads] err].
  cbn [fst snd] in Hframe, Hctx, Hndc, Htrace.
  destruct Hframe as (Hflight & Hjoins & Hawaited & Hsettled & Htags & begun & -> & Hsub).
  rewrite app_nil_l. subst m0.
  cbn [in_flight joins awaited settled this_tags this_contextData trace
       new_SystemStats] in *.
  assert (Hevents : Published 0 ∉ trace m').
  { rewrite Htrace. cbn [trace app]. intros Hin.
    by apply list_elem_of_fmap in Hin as (? & [=] & _). }
  destruct err as [e|].
  - left. unfold drain. cbn [joins add_tasks]. rewrite Hjoins. cbn [length seq fold_left].
    split.
    + unfold collect_catch.
      match goal with |- joins (settle ?r ?m1) = _ =>
        destruct (settle_frame r m1) as [-> _] end.
      by cbn [joins add_log add_tasks].
    + by rewrite collect_catch_trace.
  - unfold drain. cbn [joins set_awaited set_joins add_tasks]. rewrite Hjoins.
    cbn [app length seq fold_left lookup list_lookup fmap option_fmap option_map join_is].
    destruct begun as [|load begun].
    + right. right. cbn [length]. unfold fulfil.
      cbn [joins awaited set_awaited set_joins add_tasks lookup list_lookup
           fmap option_fmap option_map join_of]. cbv zeta.
      rewrite bool_decide_eq_true_2 by done. cbn [join_is].
      match goal with |- context [start_stats ?m1] => set (m2 := m1) end.
      pose proof (start_stats_tags m2) as Htags2.
      split.
      * rewrite Htags2. apply published_start_stats. split.
        -- by intros t Ht%elem_of_nil.
        -- intros j i. subst m2.
           cbn [joins publish add_event set_join_state set_joins set_awaited add_tasks
                alter list_alter].
           destruct j as [|j]; [done|]. by destruct j.
      * apply start_stats_kinds. subst m2.
        cbn [in_flight publish add_event set_join_state set_joins set_awaited add_tasks
             new_tasks fmap list_fmap].
        by rewrite Hflight, app_nil_r.
    + right. left. exists (this_collectedData m').
      cbn [joins set_awaited set_joins add_tasks lookup list_lookup fmap option_fmap
           option_map join_is length].
      cbn [in_flight this_tags set_awaited set_joins add_tasks].
      rewrite Hflight, app_nil_l.
      assert (Hkeys : NoDup (task_key <$> new_tasks (Some 0%nat) (ContextPhase 0)
                                            (load :: begun))).
      { rewrite new_tasks_keys. exact (sublist_NoDup _ _ Hnd Hsub). }
      split; [|done]. unfold context_gathering.
      cbn [settled awaited joins in_flight this_tags this_collectedData this_contextData
           trace set_awaited set_joins add_tasks].
      rewrite Hflight, app_nil_l, Hsettled, Hctx.
      split; [done|]. split; [done|].
      split; [unfold new_tasks; by rewrite length_fmap|].
      split; [done|]. split; [done|]. split; [done|]. split; [done|].
      split; [|split; [done|split; [done|]]].
      * apply Forall_forall. intros t Ht. split; [|done].
        unfold new_tasks in Ht. by apply list_elem_of_fmap in Ht as (kp & -> & _).
      * split; [by intros t Ht Hnot|done].
Qed.

End FirstTurn.

Section OnePhaseTheorem.
Context `{Collaborators}.

(** X20: a context of one phase reaches the stats properties.  When the
    context is one object and every load begun in the first turn succeeds,
    then once the phase has been published, [contextData] holds under the key
    of every context property that was loaded the value [_processData]
    returned for the data [_loadData] resolved with, and it keeps holding it
    whatever the loader answers afterwards. *)
Theorem context_values_published (tags_ : value) (entries : obj) (schedule : list nat)
    (t : task) :
  context = VObj entries →
  NoDup (obj_keys entries) →
  (∀ t, t ∈ in_flight (collect_start tags_) →
        load_succeeds (this_tags (collect_start tags_)) t) →
  Published 0 ∈ trace (collect tags_ schedule) →
  t ∈ in_flight (collect_start tags_) →
  task_kind t = ContextPhase 0 →
  ∃ data_ v,
    _loadData (task_property t) = Resolved data_
    ∧ _processData (this_tags (collect_start tags_)) (task_property t) data_ (task_key t)
      = Ok v
    ∧ obj_lookup (task_key t) (this_contextData (collect tags_ schedule)) = Some v.
Proof.
  intros Hcontext Hnd Hok Hpub Ht Hkind.
  destruct (Hok t Ht) as (data_ & v & Hload & Hdata). exists data_, v.
  split; [done|]. split; [done|].
  assert (Hstored : stored_value (this_tags (collect_start tags_)) t = v)
    by (unfold stored_value; by rewrite Hload, Hdata).
  unfold collect in *.
  destruct (collect_start_one_phase tags_ entries Hcontext Hnd)
    as [Hab|[(initial & Hg & Hnd')|[_ Hkinds]]].
  - by destruct (abandoned_run schedule _ Hab) as [_ Hnone].
  - destruct (run_context_gathering _ _ _ schedule Hnd' Hok _ Hg)
      as [Hg'|[Hvalues _]].
    + by destruct Hg' as (_ & _ & _ & _ & _ & _ & Hnone & _).
    + rewrite <- Hstored. by apply Hvalues.
  - eapply Forall_forall in Hkinds; [|exact Ht]. congruence.
Qed.

End OnePhaseTheorem.

Lemma context_values_published_witness :
  let H := sample (VObj [("deviceVersion", VObj [("key", VStr "deviceInfo")])])
             [("pools", VObj [("key", VStr "pools")])] in
  let t := {| task_join := Some 0; task_kind := ContextPhase 0;
              task_key := "deviceVersion";
              task_property := VObj [("key", VStr "deviceInfo")] |} in
  ∃ data_ v,
    _loadData (task_property t) = Resolved data_
    ∧ _processData (this_tags (collect_start VUndef)) (task_property t) data_ (task_key t)
      = Ok v
    ∧ obj_lookup (task_key t) (this_contextData (collect VUndef [0])) = Some v.
Proof.
  intros H t.
  apply (@context_values_published H VUndef [("deviceVersion", VObj [("key", VStr "deviceInfo")])]
           [0] t).
  - reflexivity.
  - by eapply bool_decide_unpack; vm_compute.
  - apply Forall_forall. vm_compute (in_flight _).
    repeat apply Forall_cons_2; [..|apply Forall_nil_2];
      eexists _, _; split; vm_compute; reflexivity.
  - vm_compute. apply list_elem_of_further, list_elem_of_further, list_elem_of_here.
  - vm_compute (in_flight _). apply list_elem_of_here.
  - reflexivity.
Defined.
